(** * igl::repdiag: repeating a matrix along the diagonal

    A shallow embedding of [repdiag.h] (libigl): the dense overload, the
    sparse overload and the by-value wrapper, together with the parts of
    the Eigen matrix library they call (dynamic dense matrices, the
    compressed column-major [SparseMatrix] and the row-major
    [DynamicSparseMatrix] used as an accumulator).

    Conventions of the embedding:
    - a C++ [int] is a [Z] in the range of a 32-bit signed integer, and
      every [int] operation of the source is written with its two's
      complement wrap-around ([Int.mul], [Int.add], [Int.of_index]);
    - the sizes of a dense matrix are Eigen's [Index] ([std::ptrdiff_t]),
      any non-negative [Z] here; the sizes of a sparse matrix are [int]s;
    - the element type [T] of the matrices is a parameter, with the three
      things the code uses from it: the literal [0], [+=] and [*=];
      the C++ [int] and IEEE doubles are the two instances;
    - a failed Eigen precondition (an [eigen_assert], or the undefined
      behaviour it stands for), an access outside a [std::vector] and a
      negative container size end the call with an [error];
    - memory that [resize] allocates is not initialised; its contents are
      given by a function [heap : nat -> T], one value per fresh cell;
    - memory is not a resource of the embedding: an allocation does not
      fail, and a sparse matrix may store more entries than an [int]
      counts. What is stated of the results holds for every call that
      returns; that a call returns is stated where the sizes, and for a
      count the count, fit in an [int];
    - the input [A] and the output parameter [B] are distinct objects,
      except in [Dense.repdiag_aliased], the call [repdiag(A, d, A)].

    The file has three parts: the program, the vocabulary in which its
    specification is stated, and the properties. *)

From Stdlib Require Import ZArith Lia List Bool Eqdep_dec.
From Stdlib Require Import Floats.SpecFloat.
From stdpp Require Import base list.

Local Open Scope Z_scope.

(** ** Results of fallible calls *)

Inductive error : Type :=
| AssertionFailed   (* eigen_assert: sizes, block ranges *)
| OutOfBounds       (* index outside a std::vector or an index array *)
| LengthError.      (* negative size handed to a container *)

Inductive result (A : Type) : Type :=
| Ok (a : A)
| Err (e : error).
Arguments Ok {A} a.
Arguments Err {A} e.

Definition bind {A B : Type} (r : result A) (k : A -> result B) : result B :=
  match r with
  | Ok a => k a
  | Err e => Err e
  end.

Notation "'let*' x ':=' r 'in' k" := (bind r (fun x => k))
  (at level 10, x name, r at level 100, k at level 200).

Definition is_ok {A : Type} (r : result A) : bool :=
  match r with Ok _ => true | Err _ => false end.

(** [foldM body l s] runs [body x] for the elements [x] of [l] in order,
    threading the state and stopping at the first error. *)
Fixpoint foldM {S A : Type} (body : A -> S -> result S) (l : list A) (s : S)
  : result S :=
  match l with
  | [] => Ok s
  | x :: l' => let* s' := body x s in foldM body l' s'
  end.

(** The values taken by [i] in [for (int i = 0; i < n; i++)]. *)
Definition upto (n : Z) : list Z := Z.of_nat <$> seq 0 (Z.to_nat n).

(** ** The C++ type [int] *)

Module Int.
Definition min_int : Z := -2147483648.
Definition max_int : Z := 2147483647.
Definition modulus : Z := 4294967296.

Definition in_range (z : Z) : Prop := min_int <= z <= max_int.

(** Reduction modulo 2^32 into the signed range. *)
Definition wrap (z : Z) : Z := (z + 2147483648) mod modulus - 2147483648.

Definition mul (a b : Z) : Z := wrap (a * b).
Definition add (a b : Z) : Z := wrap (a + b).

(** [int m = A.rows();] narrowing of Eigen's [Index]. *)
Definition of_index (z : Z) : Z := wrap z.

(** [int] as an element type of matrices: the integers of its range. *)
Definition in_range_b (z : Z) : bool := (min_int <=? z) && (z <=? max_int).

Record int : Type := mk_int { val : Z; val_in_range : in_range_b val = true }.

Lemma wrap_in_range_b (z : Z) : in_range_b (wrap z) = true.
Proof.
  unfold in_range_b, wrap, min_int, max_int, modulus.
  pose proof (Z.mod_pos_bound (z + 2147483648) 4294967296 eq_refl).
  apply andb_true_iff. split; apply Z.leb_le; lia.
Qed.

(** A proof of [b = true] that is [eq_refl] as soon as [b] evaluates to
    [true], so that two equal values of type [int] are convertible. *)
Definition evaluated {b : bool} (p : b = true) : b = true :=
  match b as b' return b' = true -> b' = true with
  | true => fun _ => eq_refl
  | false => fun q => q
  end p.

(** The [int] that a computation in [Z] yields. *)
Definition of_Z (z : Z) : int := mk_int (wrap z) (evaluated (wrap_in_range_b z)).
End Int.

(** ** Element types *)

Class Scalar (T : Type) : Type := {
  zero : T;             (* T(0) *)
  add : T -> T -> T;    (* x += y *)
  mul : T -> T -> T     (* x *= y *)
}.

(** The C++ type [int], with two's complement wrap-around: adding up the
    values stored under one coordinate can leave the range. *)
#[export] Instance int_Scalar : Scalar Int.int :=
  {| zero := Int.of_Z 0;
     add x y := Int.of_Z (Int.val x + Int.val y);
     mul x y := Int.of_Z (Int.val x * Int.val y) |}.

(** IEEE 754 binary64 ([double]), from the Standard Library's
    specification of floating-point arithmetic. *)
Definition double : Type := spec_float.
#[export] Instance double_Scalar : Scalar double :=
  {| zero := S754_zero false; add := SFadd 53 1024; mul := SFmul 53 1024 |}.

(** ** Dense matrices: [Eigen::Matrix<T, Dynamic, Dynamic>] *)

Module Dense.
Section WithScalar.
Context {T : Type} `{Scalar T}.

(** Column-major storage: coefficient (i, j) is [data] cell
    [i + j * rows]. *)
Record Matrix : Type := mk { rows : Z; cols : Z; data : list T }.

(** The storage invariant of the class. *)
Definition wf (M : Matrix) : Prop :=
  0 <= rows M /\ 0 <= cols M /\ Z.of_nat (length (data M)) = rows M * cols M.

(** [Mat B;] *)
Definition empty : Matrix := mk 0 0 [].

Definition index (M : Matrix) (i j : Z) : nat := Z.to_nat (i + j * rows M).

Definition in_bounds (M : Matrix) (i j : Z) : bool :=
  (0 <=? i) && (i <? rows M) && (0 <=? j) && (j <? cols M).

(** [M(i, j)], defined inside the matrix only. *)
Definition coeff (M : Matrix) (i j : Z) : option T :=
  if in_bounds M i j then data M !! index M i j else None.

(** [M.coeffRef(i, j) = x] *)
Definition set_coeff (M : Matrix) (i j : Z) (x : T) : Matrix :=
  mk (rows M) (cols M) (<[index M i j := x]> (data M)).

(** [B.resize(r, c)]: negative sizes are refused; the storage is kept
    when the number of coefficients does not change and is reallocated,
    uninitialised, otherwise. The allocation itself does not fail (see
    the conventions on memory). *)
Definition resize (heap : nat -> T) (B : Matrix) (r c : Z) : result Matrix :=
  if (r <? 0) || (c <? 0) then Err AssertionFailed
  else if r * c =? rows B * cols B then Ok (mk r c (data B))
  else Ok (mk r c (heap <$> seq 0 (Z.to_nat (r * c)))).

(** [B.array() *= 0] *)
Definition array_mul_zero (B : Matrix) : Matrix :=
  mk (rows B) (cols B) ((fun x => mul x zero) <$> data B).

(** One coefficient of a block assignment: [B(sr + r, sc + c) = A(r, c)].
    The read is inside [A] for every (r, c) the copy visits, so the
    [None] branch is not reached on a well-formed [A]. *)
Definition copy_coeff (A : Matrix) (sr sc : Z) (c r : Z) (B : Matrix) : Matrix :=
  match data A !! index A r c with
  | Some x => set_coeff B (sr + r) (sc + c) x
  | None => B
  end.

Definition copy_col (A : Matrix) (sr sc : Z) (B : Matrix) (c : Z) : Matrix :=
  foldl (fun B r => copy_coeff A sr sc c r B) B (upto (rows A)).

Definition copy_block (A : Matrix) (sr sc : Z) (B : Matrix) : Matrix :=
  foldl (copy_col A sr sc) B (upto (cols A)).

(** The range check of [B.block(sr, sc, br, bc)]. *)
Definition block_ok (B : Matrix) (sr sc br bc : Z) : bool :=
  (0 <=? sr) && (0 <=? br) && (sr + br <=? rows B) &&
  (0 <=? sc) && (0 <=? bc) && (sc + bc <=? cols B).

(** [B.block(sr, sc, br, bc) = A]: the block must lie inside [B] and
    have the size of [A]; the coefficients are copied column by column. *)
Definition block_assign (B : Matrix) (sr sc br bc : Z) (A : Matrix)
  : result Matrix :=
  if block_ok B sr sc br bc then
    if (br =? rows A) && (bc =? cols A) then Ok (copy_block A sr sc B)
    else Err AssertionFailed
  else Err AssertionFailed.

(** The sizes handed to [B.resize]: [m*d] and [n*d] as [int] products. *)
Definition requested_dims (A : Matrix) (d : Z) : Z * Z :=
  let m := Int.of_index (rows A) in
  let n := Int.of_index (cols A) in
  (Int.mul m d, Int.mul n d).

(** [void repdiag(const Matrix& A, const int d, Matrix& B)].
    [B] is the state of the output parameter at entry; the result is
    its state at exit. *)
Definition repdiag (heap : nat -> T) (A : Matrix) (d : Z) (B : Matrix)
  : result Matrix :=
  let m := Int.of_index (rows A) in
  let n := Int.of_index (cols A) in
  let* B := resize heap B (Int.mul m d) (Int.mul n d) in
  let B := array_mul_zero B in
  foldM (fun i B => block_assign B (Int.mul i m) (Int.mul i n) m n A)
        (upto d) B.

(** *** The call [repdiag(A, d, A)]

    The two parameters are references and nothing in the source keeps a
    caller from handing over one object as the input and as the output
    parameter. Every read of [A] after [int n = A.cols();] then sees the
    current state of [B]. *)

(** [B.block(sr, sc, br, bc) = B]: the assignment copies coefficient by
    coefficient without a temporary, so each read sees the writes made
    before it. *)
Definition copy_block_self (sr sc : Z) (B : Matrix) : Matrix :=
  foldl (fun B c =>
           foldl (fun B r => copy_coeff B sr sc c r B) B (upto (rows B)))
        B (upto (cols B)).

Definition block_assign_self (B : Matrix) (sr sc br bc : Z) : result Matrix :=
  if block_ok B sr sc br bc then
    if (br =? rows B) && (bc =? cols B) then Ok (copy_block_self sr sc B)
    else Err AssertionFailed
  else Err AssertionFailed.

(** The body of the dense overload with [B] bound to the object [A]. *)
Definition repdiag_aliased (heap : nat -> T) (A : Matrix) (d : Z) : result Matrix :=
  let m := Int.of_index (rows A) in
  let n := Int.of_index (cols A) in
  let* B := resize heap A (Int.mul m d) (Int.mul n d) in
  let B := array_mul_zero B in
  foldM (fun i B => block_assign_self B (Int.mul i m) (Int.mul i n) m n)
        (upto d) B.

End WithScalar.
Arguments Matrix T : clear implicits.
End Dense.

(** ** Sparse matrices: [Eigen::SparseMatrix<T>] and
       [Eigen::DynamicSparseMatrix<T, RowMajor>] *)

Module Sparse.

(** A sparse vector: its stored (inner index, value) pairs, in storage
    order. *)
Abbreviation SparseVector T := (list (Z * T)) (only parsing).

Section WithScalar.
Context {T : Type} `{Scalar T}.

(** The compressed column-major matrix: one sparse vector per column,
    the inner index of an entry is its row. *)
Record SparseMatrix : Type :=
  mk { rows : Z; cols : Z; outer : list (SparseVector T) }.

(** The row-major accumulator: one sparse vector per row, the inner
    index of an entry is its column. *)
Record DynamicSparseMatrix : Type :=
  mk_dyn { dyn_rows : Z; dyn_cols : Z; dyn_data : list (SparseVector T) }.

(** [SparseMatrix<T> B;] *)
Definition empty : SparseMatrix := mk 0 0 [].

Definition outerSize (A : SparseMatrix) : Z := cols A.

(** [A.nonZeros()]: the number of stored entries. It is an [int] in the
    code, and [repdiag] reads it into one ([Int.of_index]). *)
Definition nonZeros (A : SparseMatrix) : Z :=
  Z.of_nat (length (concat (outer A))).

(** The entries visited by [InnerIterator it(A, k)], each with
    [it.row()], [it.col()] and [it.value()]. *)
Definition InnerIterator (A : SparseMatrix) (k : Z) : list (Z * Z * T) :=
  (fun e => (e.1, k, e.2)) <$> default [] (outer A !! Z.to_nat k).

(** [DynamicSparseMatrix<T, RowMajor> dyn_B(r, c)]: a vector of [r]
    empty rows. *)
Definition dyn_new (r c : Z) : result DynamicSparseMatrix :=
  if r <? 0 then Err LengthError
  else Ok (mk_dyn r c (replicate (Z.to_nat r) [])).

(** [dyn_B.reserve(size)] only changes capacities. *)
Definition reserve (M : DynamicSparseMatrix) (size : Z) : DynamicSparseMatrix := M.

(** The position of the first entry of a sorted vector whose index is
    not below [key] (Eigen finds it by bisection). *)
Fixpoint searchLowerIndex (key : Z) (v : SparseVector T) : nat :=
  match v with
  | [] => O
  | e :: v' => if e.1 <? key then S (searchLowerIndex key v') else O
  end.

(** [v.atWithInsertion(key)]: the position of the entry with index
    [key], which is first inserted with value 0, at its sorted place,
    when the vector has none. *)
Definition atWithInsertion (key : Z) (v : SparseVector T) : (SparseVector T * nat) :=
  let id := searchLowerIndex key v in
  match v !! id with
  | Some e =>
      if e.1 =? key then (v, id)
      else (take id v ++ (key, zero) :: drop id v, id)
  | None => (take id v ++ (key, zero) :: drop id v, id)
  end.

(** [v.atWithInsertion(key) += x] *)
Definition vector_add (key : Z) (x : T) (v : SparseVector T) : SparseVector T :=
  let '(v', id) := atWithInsertion key v in
  alter (fun e => (e.1, add e.2 x)) id v'.

(** [dyn_B.coeffRef(row, col) += x]: the row vector is taken from a
    [std::vector] without any check of [col]. *)
Definition coeffRef_add (M : DynamicSparseMatrix) (row col : Z) (x : T)
  : result DynamicSparseMatrix :=
  if (0 <=? row) && (row <? Z.of_nat (length (dyn_data M))) then
    Ok (mk_dyn (dyn_rows M) (dyn_cols M)
          (alter (vector_add col x) (Z.to_nat row) (dyn_data M)))
  else Err OutOfBounds.

(** Second pass of the conversion to column-major storage: entry
    (c, x) of row [j] goes to the end of column [c]. *)
Definition push_back (j : Z) (columns : list (SparseVector T)) (e : Z * T)
  : list (SparseVector T) :=
  alter (fun col => col ++ [(j, e.2)]) (Z.to_nat e.1) columns.

Fixpoint fill_columns (j : Z) (rws : list (SparseVector T))
    (columns : list (SparseVector T)) : list (SparseVector T) :=
  match rws with
  | [] => columns
  | v :: rest => fill_columns (j + 1) rest (foldl (push_back j) columns v)
  end.

(** First pass: every entry is counted in the slot of its column. *)
Definition inner_in_range (M : DynamicSparseMatrix) : bool :=
  forallb (forallb (fun e : Z * T => (0 <=? e.1) && (e.1 <? dyn_cols M)))
          (dyn_data M).

(** [SparseMatrix<T>(dyn_B)]: the storage orders differ, so the
    conversion is Eigen's two-pass transposed copy; it keeps every
    stored entry. The number of entries that it copies is not limited
    (see the conventions on memory). *)
Definition of_dynamic (M : DynamicSparseMatrix) : result SparseMatrix :=
  if dyn_cols M <? 0 then Err LengthError
  else if inner_in_range M then
    Ok (mk (dyn_rows M) (dyn_cols M)
          (fill_columns 0 (dyn_data M) (replicate (Z.to_nat (dyn_cols M)) [])))
  else Err OutOfBounds.

(** The sizes handed to the accumulator: [m*d] and [n*d] as [int]
    products. *)
Definition requested_dims (A : SparseMatrix) (d : Z) : Z * Z :=
  let m := Int.of_index (rows A) in
  let n := Int.of_index (cols A) in
  (Int.mul m d, Int.mul n d).

(** The body of the innermost loop. *)
Definition accumulate (i m n : Z) (it : Z * Z * T) (dyn_B : DynamicSparseMatrix)
  : result DynamicSparseMatrix :=
  coeffRef_add dyn_B (Int.add (Int.mul i m) it.1.1)
                     (Int.add (Int.mul i n) it.1.2) it.2.

(** [void repdiag(const SparseMatrix& A, const int d, SparseMatrix& B)].
    [B] is the state of the output parameter at entry; the result is
    its state at exit, which the final assignment replaces as a whole. *)
Definition repdiag (A : SparseMatrix) (d : Z) (B : SparseMatrix)
  : result SparseMatrix :=
  let m := Int.of_index (rows A) in
  let n := Int.of_index (cols A) in
  let* dyn_B := dyn_new (Int.mul m d) (Int.mul n d) in
  let dyn_B := reserve dyn_B (Int.mul d (Int.of_index (nonZeros A))) in
  let* dyn_B :=
    foldM (fun i dyn_B =>
      foldM (fun k dyn_B =>
        foldM (accumulate i m n) (InnerIterator A k) dyn_B)
        (upto (outerSize A)) dyn_B)
      (upto d) dyn_B in
  of_dynamic dyn_B.

(** *** Observations used by the specification *)

(** The value stored under index [key], if any. *)
Fixpoint vlookup (key : Z) (v : SparseVector T) : option T :=
  match v with
  | [] => None
  | e :: v' => if e.1 =? key then Some e.2 else vlookup key v'
  end.

(** Strictly increasing indices: the order of a compressed vector. *)
Fixpoint vsorted (v : SparseVector T) : Prop :=
  match v with
  | [] => True
  | e :: v' => Forall (fun e' : Z * T => e.1 < e'.1) v' /\ vsorted v'
  end.

(** The stored entry of [A] at row [i], column [j]. *)
Definition entry (A : SparseMatrix) (i j : Z) : option T :=
  if 0 <=? j then
    match outer A !! Z.to_nat j with
    | Some v => vlookup i v
    | None => None
    end
  else None.

(** [A.coeff(i, j)] inside the matrix: the stored value, or 0. *)
Definition coeff (A : SparseMatrix) (i j : Z) : option T :=
  if (0 <=? i) && (i <? rows A) && (0 <=? j) && (j <? cols A)
  then Some (default zero (entry A i j))
  else None.

(** The invariant of the class: sizes are non-negative [int]s, there is
    one vector per column, and every stored row index is a row. *)
Definition wf (A : SparseMatrix) : Prop :=
  0 <= rows A <= Int.max_int /\ 0 <= cols A <= Int.max_int /\
  Z.of_nat (length (outer A)) = cols A /\
  Forall (Forall (fun e : Z * T => 0 <= e.1 < rows A)) (outer A).

(** No coordinate is stored twice. *)
Definition no_duplicates (A : SparseMatrix) : Prop :=
  Forall (fun v : SparseVector T => NoDup (v.*1)) (outer A).

(** Every column is in increasing order of the rows. *)
Definition canonical (A : SparseMatrix) : Prop :=
  Forall vsorted (outer A).

(** The same for the accumulator. *)
Definition dyn_entry (M : DynamicSparseMatrix) (i j : Z) : option T :=
  if 0 <=? i then
    match dyn_data M !! Z.to_nat i with
    | Some v => vlookup j v
    | None => None
    end
  else None.

Definition dyn_nonZeros (M : DynamicSparseMatrix) : nat :=
  length (concat (dyn_data M)).

Definition dyn_ok (M : DynamicSparseMatrix) : Prop :=
  0 <= dyn_rows M /\ length (dyn_data M) = Z.to_nat (dyn_rows M) /\
  Forall vsorted (dyn_data M).

(** [vector_add] as one pass over the vector. *)
Fixpoint vadd (key : Z) (x : T) (v : SparseVector T) : SparseVector T :=
  match v with
  | [] => [(key, add zero x)]
  | e :: v' =>
      if e.1 <? key then e :: vadd key x v'
      else if e.1 =? key then (e.1, add e.2 x) :: v'
      else (key, add zero x) :: e :: v'
  end.

(** What [fill_columns] appends to column [c]: the entries of index [c]
    of the rows, numbered from [j]. *)
Fixpoint column_of (j : Z) (rws : list (SparseVector T)) (c : Z) : SparseVector T :=
  match rws with
  | [] => []
  | v :: rest =>
      match vlookup c v with
      | Some x => (j, x) :: column_of (j + 1) rest c
      | None => column_of (j + 1) rest c
      end
  end.

(** The coordinates and values that the three loops hand to
    [coeffRef], in order. *)
Definition insertions (A : SparseMatrix) (d : Z) : list (Z * Z * T) :=
  let m := Int.of_index (rows A) in
  let n := Int.of_index (cols A) in
  i ← upto d;
  k ← upto (outerSize A);
  (fun it : Z * Z * T =>
     (Int.add (Int.mul i m) it.1.1, Int.add (Int.mul i n) it.1.2, it.2))
    <$> InnerIterator A k.

Definition insert (t : Z * Z * T) (M : DynamicSparseMatrix)
  : result DynamicSparseMatrix :=
  coeffRef_add M t.1.1 t.1.2 t.2.

(** What a sequence of [coeffRef(...) += x] leaves under one index: the
    [x] are added to 0 one after the other, in their order. *)
Definition accumulated (start : option T) (xs : list T) : option T :=
  foldl (fun o x => Some (add (default zero o) x)) start xs.

(** The values stored under index [key], in storage order. *)
Definition stored_under (key : Z) (v : SparseVector T) : list T :=
  (filter (fun e : Z * T => e.1 = key) v).*2.

(** [A] with every stored value [x] replaced by [f x]: the same sizes
    and the same stored coordinates, in the same order. *)
Definition map_values (f : T -> T) (A : SparseMatrix) : SparseMatrix :=
  mk (rows A) (cols A)
     ((fun v : SparseVector T => (fun e : Z * T => (e.1, f e.2)) <$> v) <$> outer A).

(** The number of different coordinates that [A] stores: [nonZeros],
    with a coordinate that is stored several times counted once. *)
Definition distinct_nonZeros (A : SparseMatrix) : Z :=
  Z.of_nat (length (concat ((fun v : SparseVector T => remove_dups (v.*1)) <$> outer A))).

End WithScalar.
Arguments SparseMatrix T : clear implicits.
Arguments DynamicSparseMatrix T : clear implicits.
End Sparse.

(** ** The by-value wrapper

    [template <class Mat> Mat repdiag(const Mat& A, const int d)]: the
    overload of [repdiag(A, d, B)] is chosen by the type [Mat], which is
    also the type of the local [B] and of the result. *)

Class RepDiag (Mat : Type) : Type := {
  default_ctor : Mat;                              (* Mat B; *)
  repdiag_into : Mat -> Z -> Mat -> result Mat     (* repdiag(A, d, B) *)
}.

#[export] Instance Dense_RepDiag {T : Type} `{Scalar T} (heap : nat -> T)
  : RepDiag (Dense.Matrix T) :=
  {| default_ctor := Dense.empty; repdiag_into := Dense.repdiag heap |}.

#[export] Instance Sparse_RepDiag {T : Type} `{Scalar T}
  : RepDiag (Sparse.SparseMatrix T) :=
  {| default_ctor := Sparse.empty; repdiag_into := Sparse.repdiag |}.

Definition repdiag {Mat : Type} (R : RepDiag Mat) (A : Mat) (d : Z) : result Mat :=
  let B := default_ctor in
  repdiag_into A d B.

(** * Vocabulary of the specification *)

(** [d] is a non-negative [int] and the exact products [m*d] and [n*d]
    are in the range of [int]. *)
Definition fits (m n d : Z) : Prop :=
  0 <= d <= Int.max_int /\ m * d <= Int.max_int /\ n * d <= Int.max_int.

(** The coordinates of the block of size [m] by [n] at (sr, sc). *)
Definition in_rect (sr sc m n i j : Z) : Prop :=
  sr <= i < sr + m /\ sc <= j < sc + n.

#[export] Instance in_rect_dec sr sc m n i j : Decision (in_rect sr sc m n i j).
Proof. unfold in_rect. apply _. Defined.

(** Coordinate (i, j) lies in one of the diagonal blocks numbered by [ks]. *)
Definition on_blocks (m n : Z) (ks : list Z) (i j : Z) : Prop :=
  Exists (fun k => in_rect (k * m) (k * n) m n i j) ks.

#[export] Instance on_blocks_dec m n ks i j : Decision (on_blocks m n ks i j).
Proof. unfold on_blocks. apply _. Defined.

Section DenseSpec.
Context {T : Type} `{Scalar T}.

(** The effect of an assignment: [B'] has the shape of [B], and its
    coefficients are those of [src] on [region], those of [B] elsewhere. *)
Definition assigned (B B' : Dense.Matrix T)
    (region : Z -> Z -> Prop) `{forall i j, Decision (region i j)}
    (src : Z -> Z -> option T) : Prop :=
  Dense.wf B' /\ Dense.rows B' = Dense.rows B /\ Dense.cols B' = Dense.cols B /\
  forall i j, Dense.coeff B' i j =
              if decide (region i j) then src i j else Dense.coeff B i j.

End DenseSpec.

Section SparseSpec.
Context {T : Type} `{Scalar T}.

(** The entries of column [k]. *)
Definition column (A : Sparse.SparseMatrix T) (k : Z) : Sparse.SparseVector T :=
  default [] (Sparse.outer A !! Z.to_nat k).

(** The insertions of the three loops when no [int] operation wraps. *)
Definition exact_insertions (A : Sparse.SparseMatrix T) (d : Z) : list (Z * Z * T) :=
  i ← upto d;
  k ← upto (Sparse.cols A);
  (fun e : Z * T => (i * Sparse.rows A + e.1, i * Sparse.cols A + k, e.2))
    <$> column A k.

(** The values that a list of insertions hands to [coeffRef(r, c)], in
    order. *)
Definition inserted_at (ins : list (Z * Z * T)) (r c : Z) : list T :=
  (filter (fun t : Z * Z * T => t.1 = (r, c)) ins).*2.

End SparseSpec.

(** ** Concrete inputs *)

(** Matrices of [int]s, written with the integers they hold: a dense
    matrix from its coefficients in column-major order, a sparse matrix
    from the (row, value) pairs of its columns. *)
Definition dense_ints (r c : Z) (l : list Z) : Dense.Matrix Int.int :=
  Dense.mk r c (Int.of_Z <$> l).
Definition sparse_ints (r c : Z) (columns : list (list (Z * Z)))
  : Sparse.SparseMatrix Int.int :=
  Sparse.mk r c ((fun v : list (Z * Z) =>
                   (fun e : Z * Z => (e.1, Int.of_Z e.2)) <$> v) <$> columns).

(** [[1, 2], [3, 4]] in column-major order. *)
Definition A22 : Dense.Matrix Int.int := dense_ints 2 2 [1; 3; 2; 4].

(** The 3 by 3 sparse matrix with entries (0,0):5 and (2,1):7. *)
Definition S33 : Sparse.SparseMatrix Int.int :=
  sparse_ints 3 3 [[(0, 5)]; [(2, 7)]; []].

(** Contents of fresh memory used in the examples. *)
Definition stale : nat -> Int.int := fun _ => Int.of_Z 77.

(** A 2^30 by 0 dense matrix; a 2^31 by 0 dense matrix. *)
Definition tall_dense : Dense.Matrix Int.int := dense_ints 1073741824 0 [].
Definition huge_dense : Dense.Matrix Int.int := dense_ints 2147483648 0 [].

(** A 2^30 by 1 sparse matrix without entries, and one with the single
    entry (0,0):5. *)
Definition tall_sparse : Sparse.SparseMatrix Int.int := sparse_ints 1073741824 1 [[]].
Definition tall_sparse_one : Sparse.SparseMatrix Int.int :=
  sparse_ints 1073741824 1 [[(0, 5)]].

(** The doubles 1.0, 2.0, 3.0, 4.0 and a quiet NaN. *)
Definition d_one : double := S754_finite false 4503599627370496 (-52).
Definition d_two : double := S754_finite false 4503599627370496 (-51).
Definition d_three : double := S754_finite false 6755399441055744 (-51).
Definition d_four : double := S754_finite false 4503599627370496 (-50).
Definition d_nan : double := S754_nan.

(** [[1, 2], [3, 4]] as a matrix of doubles, and two 4 by 4 states of the
    output parameter: filled with NaN, filled with zeros. *)
Definition D22 : Dense.Matrix double := Dense.mk 2 2 [d_one; d_three; d_two; d_four].
Definition B_nan : Dense.Matrix double := Dense.mk 4 4 (replicate 16 d_nan).
Definition B_zero : Dense.Matrix double := Dense.mk 4 4 (replicate 16 (S754_zero false)).

(** [[1, 2], [3, 4]] as a sparse matrix, and a 2 by 2 sparse matrix that
    stores the coordinate (0,0) twice, with the values 5 and 6. *)
Definition S22 : Sparse.SparseMatrix Int.int :=
  sparse_ints 2 2 [[(0, 1); (1, 3)]; [(0, 2); (1, 4)]].
Definition S_twice : Sparse.SparseMatrix Int.int :=
  sparse_ints 2 2 [[(0, 5); (0, 6)]; [(1, 7)]].

(** The same matrix with the first column stored in decreasing order of
    the rows. *)
Definition S22_unordered : Sparse.SparseMatrix Int.int :=
  sparse_ints 2 2 [[(1, 3); (0, 1)]; [(0, 2); (1, 4)]].

(** The symmetric matrix [[1, 2], [2, 3]], dense and sparse. *)
Definition A_sym : Dense.Matrix Int.int := dense_ints 2 2 [1; 2; 2; 3].
Definition S_sym : Sparse.SparseMatrix Int.int :=
  sparse_ints 2 2 [[(0, 1); (1, 2)]; [(0, 2); (1, 3)]].

(** [A22] repeated twice. *)
Definition A22_twice : Dense.Matrix Int.int :=
  dense_ints 4 4 [1; 3; 0; 0;  2; 4; 0; 0;  0; 0; 1; 3;  0; 0; 2; 4].

(** [S33] repeated twice. *)
Definition S33_twice : Sparse.SparseMatrix Int.int :=
  sparse_ints 6 6 [[(0, 5)]; [(2, 7)]; []; [(3, 5)]; [(5, 7)]; []].


(** A sparse matrix of doubles with a stored negative zero. *)
Definition SD22 : Sparse.SparseMatrix double :=
  Sparse.mk 2 2 [[(0, S754_zero true)]; [(1, d_two)]].

(** What [x * 0] is for a double [x]: a zero of the sign of [x] when [x]
    is finite, NaN when [x] is infinite or NaN. *)
Definition times_zero (x : double) : double :=
  match x with
  | S754_zero s | S754_finite s _ _ => S754_zero s
  | S754_infinity _ | S754_nan => S754_nan
  end.

(** What [0 + x] is for a double [x]: [x] itself, but for the negative
    zero. *)
Definition unsigned_zero (x : double) : double :=
  match x with
  | S754_zero true => S754_zero false
  | _ => x
  end.

(** * Properties *)

(** ** Loops *)

Lemma elem_of_upto (n x : Z) : x ∈ upto n <-> 0 <= x < n.
Proof.
  unfold upto. rewrite list_elem_of_fmap. split.
  - intros (k & -> & Hk). apply elem_of_seq in Hk. lia.
  - intros Hx. exists (Z.to_nat x). split; [lia|]. apply elem_of_seq. lia.
Qed.

Lemma upto_nonpos (n : Z) : n <= 0 -> upto n = [].
Proof. intros Hn. unfold upto. replace (Z.to_nat n) with O by lia. reflexivity. Qed.

Lemma upto_snoc (n : Z) : 0 <= n -> upto (n + 1) = upto n ++ [n].
Proof.
  intros Hn. unfold upto.
  replace (Z.to_nat (n + 1)) with (S (Z.to_nat n)) by lia.
  rewrite seq_S, fmap_app. simpl. f_equal. f_equal. lia.
Qed.

Lemma length_upto (n : Z) : length (upto n) = Z.to_nat n.
Proof. unfold upto. rewrite length_fmap. apply length_seq. Qed.

Lemma bind_ok {A B : Type} (r : result A) (k : A -> result B) (b : B) :
  bind r k = Ok b -> exists a, r = Ok a /\ k a = Ok b.
Proof. destruct r as [a|e]; simpl; [eauto | discriminate]. Qed.

Lemma foldM_app {S A : Type} (body : A -> S -> result S) (l1 l2 : list A) (s : S) :
  foldM body (l1 ++ l2) s = bind (foldM body l1 s) (foldM body l2).
Proof.
  revert s. induction l1 as [|x l1 IH]; intros s; simpl; [reflexivity|].
  destruct (body x s); simpl; [apply IH | reflexivity].
Qed.

(** A loop whose body cannot fail on its elements succeeds, and an
    invariant of the body holds at the exit. *)
Lemma foldM_invariant {S A : Type} (I : S -> Prop) (body : A -> S -> result S)
    (l : list A) (s : S) :
  I s ->
  (forall x s, x ∈ l -> I s -> exists s', body x s = Ok s' /\ I s') ->
  exists s', foldM body l s = Ok s' /\ I s'.
Proof.
  revert s. induction l as [|x l IH]; intros s Hs Hbody; simpl.
  - eauto.
  - destruct (Hbody x s) as (s1 & -> & Hs1); [left | exact Hs |].
    simpl. apply IH; [exact Hs1|].
    intros y t Hy. apply Hbody. now right.
Qed.

(** ** Arithmetic of [int] *)

Lemma wrap_range (z : Z) : Int.in_range (Int.wrap z).
Proof.
  unfold Int.in_range, Int.wrap, Int.min_int, Int.max_int, Int.modulus.
  pose proof (Z.mod_pos_bound (z + 2147483648) 4294967296). lia.
Qed.

Lemma wrap_small (z : Z) : Int.in_range z -> Int.wrap z = z.
Proof.
  unfold Int.in_range, Int.wrap, Int.min_int, Int.max_int, Int.modulus.
  intros Hz. rewrite Z.mod_small; lia.
Qed.

Lemma wrap_congr (z : Z) : exists q, Int.wrap z = z + Int.modulus * q.
Proof.
  unfold Int.wrap, Int.modulus.
  exists (- ((z + 2147483648) / 4294967296)).
  pose proof (Z.div_mod (z + 2147483648) 4294967296). lia.
Qed.

Lemma wrap_add_modulus (z q : Z) : Int.wrap (z + Int.modulus * q) = Int.wrap z.
Proof.
  unfold Int.wrap, Int.modulus.
  replace (z + 4294967296 * q + 2147483648) with (z + 2147483648 + q * 4294967296) by lia.
  now rewrite Z_mod_plus_full.
Qed.

(** An [int] product of a narrowed size is the exact product, reduced. *)
Lemma mul_of_index (r d : Z) : Int.mul (Int.of_index r) d = Int.wrap (r * d).
Proof.
  unfold Int.mul, Int.of_index.
  destruct (wrap_congr r) as [q ->].
  replace ((r + Int.modulus * q) * d) with (r * d + Int.modulus * (q * d)) by lia.
  apply wrap_add_modulus.
Qed.

Lemma add_mul_wrap (i m r : Z) : Int.add (Int.mul i m) r = Int.wrap (i * m + r).
Proof.
  unfold Int.add, Int.mul.
  destruct (wrap_congr (i * m)) as [q ->].
  replace (i * m + Int.modulus * q + r) with (i * m + r + Int.modulus * q) by lia.
  apply wrap_add_modulus.
Qed.

(** Beyond the range the reduced value differs from the exact one. *)
Lemma wrap_overflow (z : Z) :
  Int.max_int < z -> Int.wrap z <> z /\ (Int.wrap z - z) mod Int.modulus = 0.
Proof.
  intros Hz. split.
  - pose proof (wrap_range z) as Hr. unfold Int.in_range in Hr. lia.
  - destruct (wrap_congr z) as [q ->].
    replace (z + Int.modulus * q - z) with (q * Int.modulus) by lia.
    apply Z_mod_mult.
Qed.

(** ** The element type [int] *)

Lemma int_eq (x y : Int.int) : Int.val x = Int.val y -> x = y.
Proof.
  destruct x as [x Hx], y as [y Hy]. simpl. intros ->. f_equal.
  apply UIP_dec. apply Bool.bool_dec.
Qed.

Lemma int_val_wrap (x : Int.int) : Int.wrap (Int.val x) = Int.val x.
Proof.
  destruct x as [x Hx]. simpl. apply wrap_small.
  unfold Int.in_range_b in Hx. apply andb_true_iff in Hx as [Hlo Hhi].
  apply Z.leb_le in Hlo, Hhi. split; assumption.
Qed.

(** [0 + x] is [x], and [x * 0] is [0]. *)
Lemma int_add_zero_l (x : Int.int) : add zero x = x.
Proof. apply int_eq. simpl. apply int_val_wrap. Qed.

Lemma int_mul_zero_r (x : Int.int) : mul x zero = zero.
Proof. apply int_eq. simpl. now rewrite Z.mul_0_r. Qed.

(** ** Dense matrices: coefficients after an assignment *)

Section DenseFacts.
Context {T : Type} `{Scalar T}.
Implicit Types A B M : Dense.Matrix T.

Lemma in_bounds_spec M i j :
  Dense.in_bounds M i j = true <->
  0 <= i < Dense.rows M /\ 0 <= j < Dense.cols M.
Proof. unfold Dense.in_bounds. rewrite !andb_true_iff. lia. Qed.

Lemma index_lt M i j :
  Dense.wf M -> 0 <= i < Dense.rows M -> 0 <= j < Dense.cols M ->
  (Dense.index M i j < length (Dense.data M))%nat.
Proof. intros (Hr & Hc & Hlen) Hi Hj. unfold Dense.index. nia. Qed.

Lemma index_inj M i j i' j' :
  0 <= i < Dense.rows M -> 0 <= j -> 0 <= i' < Dense.rows M -> 0 <= j' ->
  Dense.index M i j = Dense.index M i' j' -> i = i' /\ j = j'.
Proof.
  unfold Dense.index. intros Hi Hj Hi' Hj' Heq.
  assert (i + j * Dense.rows M = i' + j' * Dense.rows M) as Hz by nia.
  assert (j = j') by nia. subst j'. lia.
Qed.

Lemma coeff_in_bounds M i j :
  0 <= i < Dense.rows M -> 0 <= j < Dense.cols M ->
  Dense.coeff M i j = Dense.data M !! Dense.index M i j.
Proof.
  intros Hi Hj. unfold Dense.coeff.
  destruct (Dense.in_bounds M i j) eqn:E; [reflexivity|].
  apply not_true_iff_false in E. rewrite in_bounds_spec in E. lia.
Qed.

Lemma coeff_out_of_bounds M i j :
  ~ (0 <= i < Dense.rows M /\ 0 <= j < Dense.cols M) -> Dense.coeff M i j = None.
Proof.
  intros Hij. unfold Dense.coeff.
  destruct (Dense.in_bounds M i j) eqn:E; [|reflexivity].
  apply in_bounds_spec in E. tauto.
Qed.

Lemma coeff_is_Some M i j :
  Dense.wf M -> 0 <= i < Dense.rows M -> 0 <= j < Dense.cols M ->
  is_Some (Dense.coeff M i j).
Proof.
  intros Hwf Hi Hj. rewrite coeff_in_bounds by assumption.
  apply lookup_lt_is_Some. now apply index_lt.
Qed.

Lemma wf_set_coeff M i j x : Dense.wf M -> Dense.wf (Dense.set_coeff M i j x).
Proof.
  unfold Dense.wf, Dense.set_coeff. simpl. now rewrite length_insert.
Qed.

Lemma coeff_set_coeff M i j x i' j' :
  Dense.wf M -> 0 <= i < Dense.rows M -> 0 <= j < Dense.cols M ->
  Dense.coeff (Dense.set_coeff M i j x) i' j' =
  if decide (i' = i /\ j' = j) then Some x else Dense.coeff M i' j'.
Proof.
  intros Hwf Hi Hj.
  destruct (decide (0 <= i' < Dense.rows M /\ 0 <= j' < Dense.cols M)) as [[Hi' Hj']|Hout].
  - rewrite !coeff_in_bounds by (simpl; assumption).
    unfold Dense.set_coeff at 1. simpl.
    change (Dense.index (Dense.set_coeff M i j x) i' j') with (Dense.index M i' j').
    case_decide as Hd.
    + destruct Hd as [-> ->]. apply list_lookup_insert_eq. now apply index_lt.
    + apply list_lookup_insert_ne. intros Heq.
      apply index_inj in Heq; [| lia ..]. apply Hd. lia.
  - rewrite !coeff_out_of_bounds by (simpl; assumption).
    case_decide as Hd; [|reflexivity]. destruct Hd as [-> ->]. tauto.
Qed.


Ltac split_assigned := unfold assigned; split; [|split; [|split]].

Lemma copy_coeff_assigned A B sr sc c r :
  Dense.wf A -> Dense.wf B ->
  0 <= r < Dense.rows A -> 0 <= c < Dense.cols A ->
  0 <= sr + r < Dense.rows B -> 0 <= sc + c < Dense.cols B ->
  assigned B (Dense.copy_coeff A sr sc c r B)
    (fun i j => i = sr + r /\ j = sc + c)
    (fun i j => Dense.coeff A (i - sr) (j - sc)).
Proof.
  intros HA HB Hr Hc Hi Hj. unfold Dense.copy_coeff.
  destruct (coeff_is_Some A r c HA Hr Hc) as [x Hx].
  rewrite coeff_in_bounds in Hx by assumption. rewrite Hx.
  split_assigned; [now apply wf_set_coeff | reflexivity | reflexivity |].
  intros i j. rewrite coeff_set_coeff by assumption.
  case_decide as Hd; [|reflexivity]. destruct Hd as [-> ->].
  replace (sr + r - sr) with r by lia. replace (sc + c - sc) with c by lia.
  now rewrite coeff_in_bounds.
Qed.

Lemma copy_rows_assigned A sr sc c (rs : list Z) : forall B,
  Dense.wf A -> Dense.wf B -> 0 <= c < Dense.cols A ->
  0 <= sc + c < Dense.cols B ->
  (forall r, r ∈ rs -> 0 <= r < Dense.rows A /\ 0 <= sr + r < Dense.rows B) ->
  assigned B (foldl (fun B r => Dense.copy_coeff A sr sc c r B) B rs)
    (fun i j => (i - sr) ∈ rs /\ j = sc + c)
    (fun i j => Dense.coeff A (i - sr) (j - sc)).
Proof.
  induction rs as [|r rs IH]; intros B HA HB Hc Hj Hrs; simpl.
  - split_assigned; [assumption | reflexivity | reflexivity |]. intros i j.
    case_decide as Hd; [|reflexivity]. destruct Hd as [Hd _]. inversion Hd.
  - destruct (Hrs r) as [Hr Hi]; [left|].
    destruct (copy_coeff_assigned A B sr sc c r HA HB Hr Hc Hi Hj)
      as (Hwf1 & Hr1 & Hc1 & Hco1).
    destruct (IH (Dense.copy_coeff A sr sc c r B)) as (Hwf2 & Hr2 & Hc2 & Hco2);
      [assumption | assumption | assumption | lia | |].
    { intros r' Hr'. rewrite Hr1. apply Hrs. now right. }
    split_assigned; [assumption | lia | lia |].
    intros i j. rewrite Hco2, Hco1.
    repeat case_decide; try reflexivity.
    + exfalso. match goal with H : ~ (_ ∈ r :: rs /\ _) |- _ => apply H end.
      split; [right|]; tauto.
    + exfalso. match goal with H : ~ (_ ∈ r :: rs /\ _) |- _ => apply H end.
      split; [|tauto]. replace (i - sr) with r by lia. left.
    + exfalso.
      match goal with H : _ ∈ r :: rs /\ _ |- _ => destruct H as [Hin ->] end.
      apply elem_of_cons in Hin. destruct Hin as [Hin|Hin].
      * match goal with H : ~ (i = _ /\ _) |- _ => apply H end. lia.
      * tauto.
Qed.

Lemma assigned_refl B src :
  Dense.wf B -> assigned B B (fun _ _ => False) src.
Proof.
  intros HB. split_assigned; [assumption | reflexivity | reflexivity |].
  intros i j. case_decide; tauto.
Qed.

Lemma assigned_trans B B1 B2
    (P Q : Z -> Z -> Prop) `{forall i j, Decision (P i j)}
    `{forall i j, Decision (Q i j)} src :
  assigned B B1 P src -> assigned B1 B2 Q src ->
  assigned B B2 (fun i j => P i j \/ Q i j) src.
Proof.
  intros (_ & Hr1 & Hc1 & Hco1) (Hwf2 & Hr2 & Hc2 & Hco2).
  split_assigned; [assumption | lia | lia |].
  intros i j. rewrite Hco2, Hco1. repeat case_decide; tauto.
Qed.

(** The region and the source may be replaced by equivalent ones. *)
Lemma assigned_ext B B'
    (P Q : Z -> Z -> Prop) `{forall i j, Decision (P i j)}
    `{forall i j, Decision (Q i j)} src src' :
  (forall i j, P i j <-> Q i j) ->
  (forall i j, P i j -> src i j = src' i j) ->
  assigned B B' P src -> assigned B B' Q src'.
Proof.
  intros HPQ Hsrc (Hwf & Hr & Hc & Hco).
  split_assigned; [assumption | lia | lia |].
  intros i j. rewrite Hco. repeat case_decide; try reflexivity.
  - now apply Hsrc.
  - exfalso. rewrite HPQ in *. tauto.
  - exfalso. rewrite <- HPQ in *. tauto.
Qed.

Lemma copy_cols_assigned A sr sc (cs : list Z) : forall B,
  Dense.wf A -> Dense.wf B ->
  0 <= sr -> sr + Dense.rows A <= Dense.rows B ->
  (forall c, c ∈ cs -> 0 <= c < Dense.cols A /\ 0 <= sc + c < Dense.cols B) ->
  assigned B (foldl (Dense.copy_col A sr sc) B cs)
    (fun i j => (i - sr) ∈ upto (Dense.rows A) /\ (j - sc) ∈ cs)
    (fun i j => Dense.coeff A (i - sr) (j - sc)).
Proof.
  induction cs as [|c cs IH]; intros B HA HB Hsr Hrows Hcs; simpl.
  - eapply assigned_ext; [| |apply (assigned_refl B); assumption].
    + intros i j. split; [tauto|]. intros [_ Hin]. inversion Hin.
    + reflexivity.
  - destruct (Hcs c) as [Hc Hj]; [left|].
    assert (assigned B (Dense.copy_col A sr sc B c)
              (fun i j => (i - sr) ∈ upto (Dense.rows A) /\ j = sc + c)
              (fun i j => Dense.coeff A (i - sr) (j - sc))) as Hcol.
    { apply copy_rows_assigned; try assumption.
      intros r Hr. apply elem_of_upto in Hr. lia. }
    pose proof Hcol as (Hwf1 & Hr1 & Hc1 & _).
    eapply assigned_ext; [| |eapply assigned_trans; [exact Hcol|apply IH]];
      try assumption; try lia.
    + intros i j. simpl. rewrite elem_of_cons.
      split; [intros [[? ?]|[? ?]] | intros [? [?|?]]]; try tauto.
      * split; [assumption|]. left. lia.
      * left. split; [assumption|]. lia.
    + reflexivity.
    + intros c' Hc'. rewrite Hc1. apply Hcs. now right.
Qed.


Lemma block_ok_spec B sr sc br bc :
  Dense.block_ok B sr sc br bc = true <->
  0 <= sr /\ 0 <= br /\ sr + br <= Dense.rows B /\
  0 <= sc /\ 0 <= bc /\ sc + bc <= Dense.cols B.
Proof. unfold Dense.block_ok. rewrite !andb_true_iff. lia. Qed.

Lemma block_assign_assigned A B sr sc :
  Dense.wf A -> Dense.wf B ->
  0 <= sr -> sr + Dense.rows A <= Dense.rows B ->
  0 <= sc -> sc + Dense.cols A <= Dense.cols B ->
  exists B',
    Dense.block_assign B sr sc (Dense.rows A) (Dense.cols A) A = Ok B' /\
    assigned B B' (in_rect sr sc (Dense.rows A) (Dense.cols A))
      (fun i j => Dense.coeff A (i - sr) (j - sc)).
Proof.
  intros HA HB Hsr Hrows Hsc Hcols.
  pose proof HA as (HmA & HnA & _).
  unfold Dense.block_assign.
  replace (Dense.block_ok B sr sc (Dense.rows A) (Dense.cols A)) with true
    by (symmetry; apply block_ok_spec; lia).
  rewrite !Z.eqb_refl. simpl. eexists. split; [reflexivity|].
  unfold Dense.copy_block.
  eapply assigned_ext; [| |apply copy_cols_assigned]; try assumption.
  - intros i j. simpl. unfold in_rect. rewrite !elem_of_upto. lia.
  - reflexivity.
  - intros c Hc. apply elem_of_upto in Hc. lia.
Qed.

(** *** Resizing and zeroing *)

Lemma resize_ok heap B r c :
  Dense.wf B -> 0 <= r -> 0 <= c ->
  exists B', Dense.resize heap B r c = Ok B' /\
             Dense.wf B' /\ Dense.rows B' = r /\ Dense.cols B' = c.
Proof.
  intros (_ & _ & Hlen) Hr Hc. unfold Dense.resize.
  replace ((r <? 0) || (c <? 0)) with false by (symmetry; apply orb_false_iff; lia).
  destruct (r * c =? Dense.rows B * Dense.cols B) eqn:E;
    eexists; (split; [reflexivity|]); unfold Dense.wf; simpl.
  - apply Z.eqb_eq in E. lia.
  - rewrite length_fmap, length_seq. nia.
Qed.

Lemma resize_negative heap B r c :
  r < 0 \/ c < 0 -> Dense.resize heap B r c = Err AssertionFailed.
Proof.
  intros Hneg. unfold Dense.resize.
  replace ((r <? 0) || (c <? 0)) with true; [reflexivity|].
  symmetry. apply orb_true_iff. lia.
Qed.

Lemma wf_array_mul_zero B : Dense.wf B -> Dense.wf (Dense.array_mul_zero B).
Proof. unfold Dense.wf, Dense.array_mul_zero. simpl. now rewrite length_fmap. Qed.

Lemma coeff_array_mul_zero B i j :
  Dense.coeff (Dense.array_mul_zero B) i j =
  (fun x => mul x zero) <$> Dense.coeff B i j.
Proof.
  unfold Dense.coeff, Dense.array_mul_zero, Dense.in_bounds, Dense.index. simpl.
  destruct (_ && _); [|reflexivity]. apply list_lookup_fmap.
Qed.

(** *** The loop over the repetitions *)


Lemma on_blocks_upto m n d i j :
  on_blocks m n (upto d) i j <->
  exists k, 0 <= k < d /\ in_rect (k * m) (k * n) m n i j.
Proof.
  unfold on_blocks. rewrite Exists_exists.
  split; intros (k & Hk & Hin); exists k; (split; [|exact Hin]);
    now apply elem_of_upto.
Qed.

Lemma mod_in_block k m i : k * m <= i < k * m + m -> i mod m = i - k * m.
Proof.
  intros Hi. symmetry. apply Z.mod_unique_pos with (q := k); lia.
Qed.

Lemma div_in_block k m i : k * m <= i < k * m + m -> i / m = k.
Proof.
  intros Hi. symmetry. apply Z.div_unique_pos with (r := i - k * m); lia.
Qed.

Lemma blocks_assigned A (ks : list Z) : forall B,
  Dense.wf A -> Dense.wf B ->
  (forall k, k ∈ ks ->
     0 <= k /\ k * Dense.rows A + Dense.rows A <= Dense.rows B /\
     k * Dense.cols A + Dense.cols A <= Dense.cols B /\
     Int.in_range (k * Dense.rows A) /\ Int.in_range (k * Dense.cols A)) ->
  exists B',
    foldM (fun i B => Dense.block_assign B (Int.mul i (Dense.rows A))
                        (Int.mul i (Dense.cols A)) (Dense.rows A) (Dense.cols A) A)
          ks B = Ok B' /\
    assigned B B' (on_blocks (Dense.rows A) (Dense.cols A) ks)
      (fun i j => Dense.coeff A (i mod Dense.rows A) (j mod Dense.cols A)).
Proof.
  induction ks as [|k ks IH]; intros B HA HB Hks; simpl.
  - exists B. split; [reflexivity|].
    eapply assigned_ext; [| |apply (assigned_refl B); assumption].
    + intros i j. unfold on_blocks. rewrite Exists_nil. tauto.
    + reflexivity.
  - destruct (Hks k) as (Hk & Hrows & Hcols & Hkm & Hkn); [left|].
    pose proof HA as (HmA & HnA & _).
    unfold Int.mul at 1 2. rewrite !wrap_small by assumption.
    destruct (block_assign_assigned A B (k * Dense.rows A) (k * Dense.cols A))
      as (B1 & -> & Hone); try assumption; try lia.
    simpl. pose proof Hone as (Hwf1 & Hr1 & Hc1 & _).
    destruct (IH B1) as (B' & -> & Hrest); try assumption.
    { intros k' Hk'. rewrite Hr1, Hc1. apply Hks. now right. }
    exists B'. split; [reflexivity|].
    assert (assigned B B1
              (in_rect (k * Dense.rows A) (k * Dense.cols A)
                 (Dense.rows A) (Dense.cols A))
              (fun i j => Dense.coeff A (i mod Dense.rows A) (j mod Dense.cols A)))
      as Hone'.
    { eapply assigned_ext; [| |exact Hone].
      - reflexivity.
      - intros i j [Hi Hj]. simpl.
        now rewrite (mod_in_block k), (mod_in_block k). }
    pose proof (assigned_trans _ _ _ _ _ _ Hone' Hrest) as Hboth.
    eapply assigned_ext; [| |exact Hboth].
    + intros i j. unfold on_blocks. rewrite Exists_cons. reflexivity.
    + reflexivity.
Qed.

(** *** Equality of matrices from equality of coefficients *)

Lemma matrix_ext M1 M2 :
  Dense.wf M1 -> Dense.wf M2 ->
  Dense.rows M1 = Dense.rows M2 -> Dense.cols M1 = Dense.cols M2 ->
  (forall i j, 0 <= i < Dense.rows M1 -> 0 <= j < Dense.cols M1 ->
               Dense.coeff M1 i j = Dense.coeff M2 i j) ->
  M1 = M2.
Proof.
  destruct M1 as [r1 c1 l1], M2 as [r2 c2 l2]. unfold Dense.wf. simpl.
  intros (Hr1 & Hc1 & Hl1) (Hr2 & Hc2 & Hl2) <- <- Hco.
  f_equal. apply list_eq. intros idx.
  destruct (decide (idx < length l1)%nat) as [Hlt|Hge].
  - assert (0 < r1) as Hpos by nia.
    specialize (Hco (Z.of_nat idx mod r1) (Z.of_nat idx / r1)).
    pose proof (Z.mod_pos_bound (Z.of_nat idx) r1 Hpos) as Hmod.
    pose proof (Z.div_mod (Z.of_nat idx) r1 ltac:(lia)) as Hdm.
    assert (0 <= Z.of_nat idx / r1 < c1) as Hdiv.
    { split; [apply Z.div_pos; lia|]. apply Z.div_lt_upper_bound; nia. }
    rewrite !coeff_in_bounds in Hco by (simpl; lia).
    unfold Dense.index in Hco. simpl in Hco.
    replace (Z.to_nat (Z.of_nat idx mod r1 + Z.of_nat idx / r1 * r1)) with idx
      in Hco by lia.
    apply Hco; lia.
  - rewrite !lookup_ge_None_2 by lia. reflexivity.
Qed.

(** *** The dense overload on sizes that fit in [int] *)


Lemma in_range_nonneg z : 0 <= z <= Int.max_int -> Int.in_range z.
Proof. unfold Int.in_range, Int.min_int, Int.max_int. lia. Qed.

Lemma dense_repdiag_fits heap A d B0 :
  Dense.wf A -> Dense.wf B0 -> fits (Dense.rows A) (Dense.cols A) d ->
  exists B1 B,
    Dense.resize heap B0 (Dense.rows A * d) (Dense.cols A * d) = Ok B1 /\
    Dense.repdiag heap A d B0 = Ok B /\
    assigned (Dense.array_mul_zero B1) B
      (on_blocks (Dense.rows A) (Dense.cols A) (upto d))
      (fun i j => Dense.coeff A (i mod Dense.rows A) (j mod Dense.cols A)).
Proof.
  intros HA HB0 (Hd & Hmd & Hnd). pose proof HA as (Hm & Hn & _).
  unfold Int.max_int in *.
  unfold Dense.repdiag. cbv zeta. rewrite !mul_of_index.
  rewrite !wrap_small by (apply in_range_nonneg; unfold Int.max_int; nia).
  destruct (resize_ok heap B0 (Dense.rows A * d) (Dense.cols A * d))
    as (B1 & Hres & Hwf1 & Hr1 & Hc1); [assumption | nia | nia |].
  exists B1. rewrite Hres. simpl.
  destruct (decide (d = 0)) as [->|Hd0].
  - exists (Dense.array_mul_zero B1). simpl.
    split; [reflexivity|]. split; [reflexivity|].
    eapply assigned_ext;
      [| |apply (assigned_refl (Dense.array_mul_zero B1)); now apply wf_array_mul_zero].
    + intros i j. unfold on_blocks. simpl. rewrite Exists_nil. tauto.
    + reflexivity.
  - unfold Int.of_index.
    rewrite !wrap_small by (apply in_range_nonneg; unfold Int.max_int; nia).
    destruct (blocks_assigned A (upto d) (Dense.array_mul_zero B1))
      as (B & HB & Hassigned); [assumption | now apply wf_array_mul_zero | |].
    { intros k Hk. apply elem_of_upto in Hk. simpl. rewrite Hr1, Hc1.
      repeat split; try (unfold Int.min_int, Int.max_int); nia. }
    exists B. auto.
Qed.

(** The dense result on sizes that fit: its shape, its diagonal blocks
    and the coefficients outside of them, which are what [*= 0] made of
    the storage that [resize] left. *)
Lemma dense_repdiag_spec heap A d B0 :
  Dense.wf A -> Dense.wf B0 -> fits (Dense.rows A) (Dense.cols A) d ->
  exists B1 B,
    Dense.resize heap B0 (Dense.rows A * d) (Dense.cols A * d) = Ok B1 /\
    Dense.repdiag heap A d B0 = Ok B /\
    Dense.wf B /\
    Dense.rows B = Dense.rows A * d /\ Dense.cols B = Dense.cols A * d /\
    (forall k r c, 0 <= k < d -> 0 <= r < Dense.rows A -> 0 <= c < Dense.cols A ->
       Dense.coeff B (k * Dense.rows A + r) (k * Dense.cols A + c) =
       Dense.coeff A r c) /\
    (forall i j,
       ~ (exists k, 0 <= k < d /\
            in_rect (k * Dense.rows A) (k * Dense.cols A)
                    (Dense.rows A) (Dense.cols A) i j) ->
       Dense.coeff B i j = (fun x => mul x zero) <$> Dense.coeff B1 i j).
Proof.
  intros HA HB0 Hfits.
  destruct (dense_repdiag_fits heap A d B0 HA HB0 Hfits)
    as (B1 & B & Hres & Hrep & Hwf & Hr & Hc & Hco).
  destruct (resize_ok heap B0 (Dense.rows A * d) (Dense.cols A * d))
    as (B1' & Hres' & _ & Hr1 & Hc1);
    [assumption | destruct HA, Hfits; nia | destruct HA as (?&?&?), Hfits as (?&?&?); nia |].
  rewrite Hres in Hres'. injection Hres' as <-.
  exists B1, B. simpl in Hr, Hc.
  split; [assumption|]. split; [assumption|]. split; [assumption|].
  split; [lia|]. split; [lia|]. split.
  - intros k r c Hk Hr' Hc'. rewrite Hco.
    case_decide as Hd.
    + rewrite (mod_in_block k), (mod_in_block k) by lia. f_equal; lia.
    + exfalso. apply Hd. apply on_blocks_upto. exists k. unfold in_rect. lia.
  - intros i j Hno. rewrite Hco.
    case_decide as Hd; [|apply coeff_array_mul_zero].
    apply on_blocks_upto in Hd. contradiction.
Qed.

(** With [d = 1] the only block is the whole matrix. *)
Lemma dense_repdiag_one heap A B0 :
  Dense.wf A -> Dense.wf B0 ->
  Dense.rows A <= Int.max_int -> Dense.cols A <= Int.max_int ->
  Dense.repdiag heap A 1 B0 = Ok A.
Proof.
  intros HA HB0 Hm Hn.
  destruct (dense_repdiag_spec heap A 1 B0 HA HB0)
    as (B1 & B & _ & -> & Hwf & Hr & Hc & Hblock & _).
  { unfold fits, Int.max_int in *. lia. }
  f_equal. apply matrix_ext; [assumption | assumption | lia | lia |].
  intros i j Hi Hj.
  specialize (Hblock 0 i j). rewrite !Z.mul_0_l, !Z.add_0_l in Hblock.
  apply Hblock; lia.
Qed.

(** *** Element types in which [x * 0] is [0] *)

Section ExactZero.
Hypothesis mul_zero_r : forall x : T, mul x zero = zero.

(** After [resize] and [*= 0] the storage holds zeros, whatever it
    held before. *)
Lemma fmap_mul_zero {X : Type} (f : X -> T) (l : list X) :
  (fun x => mul (f x) zero) <$> l = replicate (length l) zero.
Proof.
  induction l as [|x l IH]; simpl; [reflexivity|].
  f_equal; [apply mul_zero_r | exact IH].
Qed.

Lemma zeroed_storage heap B0 r c B1 :
  Dense.wf B0 -> Dense.resize heap B0 r c = Ok B1 ->
  Dense.array_mul_zero B1 = Dense.mk r c (replicate (Z.to_nat (r * c)) zero).
Proof.
  intros (_ & _ & Hlen) Hres. unfold Dense.resize in Hres.
  destruct ((r <? 0) || (c <? 0)); [discriminate|].
  unfold Dense.array_mul_zero.
  destruct (r * c =? Dense.rows B0 * Dense.cols B0) eqn:E;
    injection Hres as <-; simpl; f_equal.
  - apply Z.eqb_eq in E.
    rewrite (fmap_mul_zero (fun x => x)). f_equal. lia.
  - rewrite <- list_fmap_compose.
    rewrite (fmap_mul_zero heap). now rewrite length_seq.
Qed.

(** The final state of [B] is the same for every state at entry and
    every content of the fresh memory. *)
Lemma dense_repdiag_independent heap heap' A d B0 B0' :
  Dense.wf B0 -> Dense.wf B0' ->
  Dense.repdiag heap A d B0 = Dense.repdiag heap' A d B0'.
Proof.
  intros HB0 HB0'. unfold Dense.repdiag. cbv zeta.
  set (r := Int.mul (Int.of_index (Dense.rows A)) d).
  set (c := Int.mul (Int.of_index (Dense.cols A)) d).
  destruct (decide (r < 0 \/ c < 0)) as [Hneg|Hpos].
  - now rewrite !resize_negative.
  - destruct (resize_ok heap B0 r c) as (B1 & E1 & _); [assumption | lia | lia |].
    destruct (resize_ok heap' B0' r c) as (B1' & E1' & _); [assumption | lia | lia |].
    rewrite E1, E1'. simpl.
    now rewrite (zeroed_storage heap B0 r c B1),
                (zeroed_storage heap' B0' r c B1').
Qed.

Lemma dense_off_block_zero heap A d B0 B i j :
  Dense.wf A -> Dense.wf B0 -> fits (Dense.rows A) (Dense.cols A) d ->
  Dense.repdiag heap A d B0 = Ok B ->
  0 <= i < Dense.rows B -> 0 <= j < Dense.cols B ->
  ~ (exists k, 0 <= k < d /\
       in_rect (k * Dense.rows A) (k * Dense.cols A)
               (Dense.rows A) (Dense.cols A) i j) ->
  Dense.coeff B i j = Some zero.
Proof.
  intros HA HB0 Hfits HB Hi Hj Hno.
  destruct (dense_repdiag_spec heap A d B0 HA HB0 Hfits)
    as (B1 & B' & Hres & HB' & Hwf & Hr & Hc & _ & Hoff).
  rewrite HB in HB'. injection HB' as <-.
  rewrite Hoff by assumption.
  destruct (resize_ok heap B0 (Dense.rows A * d) (Dense.cols A * d))
    as (B1' & Hres' & Hwf1 & Hr1 & Hc1);
    [assumption | lia | lia |].
  rewrite Hres in Hres'. injection Hres' as <-.
  destruct (coeff_is_Some B1 i j) as [x ->]; [assumption | lia | lia |].
  simpl. now rewrite mul_zero_r.
Qed.
End ExactZero.

End DenseFacts.

(** ** Sparse vectors *)

Section SparseVectorFacts.
Context {T : Type} `{Scalar T}.
Implicit Types v : Sparse.SparseVector T.

Lemma vector_add_vadd key x v : Sparse.vector_add key x v = Sparse.vadd key x v.
Proof.
  unfold Sparse.vector_add, Sparse.atWithInsertion.
  induction v as [|e v IH]; [reflexivity|].
  cbn [Sparse.searchLowerIndex Sparse.vadd].
  destruct (e.1 <? key) eqn:Elt.
  - rewrite <- IH. clear IH.
    change ((e :: v) !! S (Sparse.searchLowerIndex key v))
      with (v !! Sparse.searchLowerIndex key v).
    destruct (v !! Sparse.searchLowerIndex key v) as [e'|];
      [destruct (e'.1 =? key)|]; reflexivity.
  - change ((e :: v) !! O) with (Some e). cbv iota.
    destruct (e.1 =? key); reflexivity.
Qed.

Lemma vlookup_Some_elem key x v :
  Sparse.vlookup key v = Some x -> (key, x) ∈ v.
Proof.
  induction v as [|[k y] v IH]; simpl; [discriminate|].
  destruct (k =? key) eqn:E.
  - apply Z.eqb_eq in E. intros [= <-]. subst. left.
  - intros Hv. right. auto.
Qed.

Lemma vlookup_None key v :
  Sparse.vlookup key v = None <-> key ∉ v.*1.
Proof.
  induction v as [|[k y] v IH]; simpl.
  - split; [intros _ Hin; inversion Hin | reflexivity].
  - rewrite not_elem_of_cons. destruct (k =? key) eqn:E.
    + apply Z.eqb_eq in E. split; [discriminate | intros [Hne _]; congruence].
    + apply Z.eqb_neq in E. rewrite IH.
      split; [intros ?; split; [congruence | assumption] | intros [_ ?]; assumption].
Qed.

Lemma vlookup_elem key x v :
  NoDup (v.*1) -> (key, x) ∈ v -> Sparse.vlookup key v = Some x.
Proof.
  induction v as [|[k y] v IH]; simpl; intros Hnd Hin; [inversion Hin|].
  apply NoDup_cons in Hnd as [Hk Hnd].
  apply elem_of_cons in Hin as [[= -> ->]|Hin].
  - now rewrite Z.eqb_refl.
  - destruct (k =? key) eqn:E; [|auto].
    apply Z.eqb_eq in E. subst k. exfalso. apply Hk.
    apply list_elem_of_fmap. exists (key, x). auto.
Qed.

Lemma vsorted_NoDup v : Sparse.vsorted v -> NoDup (v.*1).
Proof.
  induction v as [|e v IH]; simpl; [constructor|].
  intros [Hall Hs]. apply NoDup_cons. split; [|auto].
  intros Hin. apply list_elem_of_fmap in Hin as (e' & Heq & Hin).
  rewrite Forall_forall in Hall. specialize (Hall e' Hin). lia.
Qed.

Lemma vlookup_below key v :
  Forall (fun e : Z * T => key < e.1) v -> Sparse.vlookup key v = None.
Proof.
  induction 1 as [|e v He _ IH]; simpl; [reflexivity|].
  destruct (e.1 =? key) eqn:E; [apply Z.eqb_eq in E; lia | exact IH].
Qed.

(** Two vectors in increasing order with the same entries are equal. *)
Lemma vsorted_ext v1 v2 :
  Sparse.vsorted v1 -> Sparse.vsorted v2 ->
  (forall key, Sparse.vlookup key v1 = Sparse.vlookup key v2) -> v1 = v2.
Proof.
  revert v2. induction v1 as [|[k1 x1] v1 IH]; intros [|[k2 x2] v2]; simpl.
  - reflexivity.
  - intros _ _ Heq. specialize (Heq k2). rewrite Z.eqb_refl in Heq. discriminate.
  - intros _ _ Heq. specialize (Heq k1). rewrite Z.eqb_refl in Heq. discriminate.
  - intros [Hall1 Hs1] [Hall2 Hs2] Heq.
    assert (k1 = k2) as <-.
    { destruct (Z.lt_trichotomy k1 k2) as [Hlt|[Heq'|Hgt]]; [|assumption|].
      - specialize (Heq k1). rewrite Z.eqb_refl in Heq.
        replace (k2 =? k1) with false in Heq by (symmetry; apply Z.eqb_neq; lia).
        rewrite vlookup_below in Heq; [discriminate|].
        eapply Forall_impl; [exact Hall2|]. simpl. intros; lia.
      - specialize (Heq k2). rewrite Z.eqb_refl in Heq.
        replace (k1 =? k2) with false in Heq by (symmetry; apply Z.eqb_neq; lia).
        rewrite vlookup_below in Heq; [discriminate|].
        eapply Forall_impl; [exact Hall1|]. simpl. intros; lia. }
    pose proof (Heq k1) as Hk. rewrite Z.eqb_refl in Hk. injection Hk as <-.
    f_equal. apply IH; [assumption | assumption |].
    intros key. specialize (Heq key).
    destruct (k1 =? key) eqn:E; [|exact Heq].
    apply Z.eqb_eq in E. subst key.
    rewrite !vlookup_below; [reflexivity | assumption | assumption].
Qed.

Lemma vadd_sorted key x v : Sparse.vsorted v -> Sparse.vsorted (Sparse.vadd key x v).
Proof.
  induction v as [|e v IH]; simpl; [auto|].
  intros [Hall Hs].
  destruct (e.1 <? key) eqn:Elt; [|destruct (e.1 =? key) eqn:Eeq]; simpl.
  - apply Z.ltb_lt in Elt. split; [|auto].
    clear IH Hs. induction v as [|e' v IH]; simpl.
    + repeat constructor. simpl. lia.
    + apply Forall_cons in Hall as [He' Hall].
      destruct (e'.1 <? key); [|destruct (e'.1 =? key)]; simpl;
        repeat (constructor; simpl; try lia); auto.
  - auto.
  - apply Z.ltb_ge in Elt. apply Z.eqb_neq in Eeq.
    split; [|auto]. constructor; [simpl; lia|].
    eapply Forall_impl; [exact Hall|]. simpl. intros; lia.
Qed.

Lemma vlookup_vadd key x v key' :
  Sparse.vsorted v ->
  Sparse.vlookup key' (Sparse.vadd key x v) =
  if decide (key' = key)
  then Some (add (default zero (Sparse.vlookup key v)) x)
  else Sparse.vlookup key' v.
Proof.
  induction v as [|e v IH]; simpl.
  - intros _. case_decide as Hd.
    + subst. now rewrite Z.eqb_refl.
    + replace (key =? key') with false by (symmetry; apply Z.eqb_neq; lia).
      reflexivity.
  - intros [Hall Hs].
    destruct (e.1 <? key) eqn:Elt; [|destruct (e.1 =? key) eqn:Eeq]; simpl.
    + apply Z.ltb_lt in Elt. rewrite IH by assumption.
      replace (e.1 =? key) with false by (symmetry; apply Z.eqb_neq; lia).
      case_decide as Hd; [|reflexivity]. subst.
      replace (e.1 =? key) with false by (symmetry; apply Z.eqb_neq; lia).
      reflexivity.
    + apply Z.eqb_eq in Eeq. case_decide as Hd.
      * subst. now rewrite Z.eqb_refl.
      * replace (e.1 =? key') with false by (symmetry; apply Z.eqb_neq; lia).
        reflexivity.
    + apply Z.ltb_ge in Elt. apply Z.eqb_neq in Eeq. case_decide as Hd.
      * subst. rewrite Z.eqb_refl. rewrite vlookup_below; [reflexivity|].
        eapply Forall_impl; [exact Hall|]. simpl. intros; lia.
      * replace (key =? key') with false by (symmetry; apply Z.eqb_neq; lia).
        reflexivity.
Qed.

Lemma length_vadd key x v :
  Sparse.vsorted v ->
  length (Sparse.vadd key x v) =
  match Sparse.vlookup key v with
  | Some _ => length v
  | None => S (length v)
  end.
Proof.
  induction v as [|e v IH]; simpl; [reflexivity|].
  intros [Hall Hs].
  destruct (e.1 <? key) eqn:Elt; [|destruct (e.1 =? key) eqn:Eeq]; simpl.
  - apply Z.ltb_lt in Elt.
    replace (e.1 =? key) with false by (symmetry; apply Z.eqb_neq; lia).
    rewrite IH by assumption. now destruct (Sparse.vlookup key v).
  - reflexivity.
  - apply Z.ltb_ge in Elt. apply Z.eqb_neq in Eeq.
    rewrite vlookup_below; [reflexivity|].
    eapply Forall_impl; [exact Hall|]. simpl. intros; lia.
Qed.

Lemma vadd_keys (P : Z -> Prop) key x v :
  P key -> Forall (fun e : Z * T => P e.1) v ->
  Forall (fun e : Z * T => P e.1) (Sparse.vadd key x v).
Proof.
  intros Hkey. induction 1 as [|e v He Hv IH]; simpl.
  - repeat constructor. exact Hkey.
  - destruct (e.1 <? key); [|destruct (e.1 =? key)];
      repeat (constructor; try assumption).
Qed.

End SparseVectorFacts.

(** ** The accumulator *)

Section DynamicFacts.
Context {T : Type} `{Scalar T}.
Implicit Types M : Sparse.DynamicSparseMatrix T.

Lemma length_concat_alter {X : Type} (f : list X -> list X) (l : list (list X)) i v :
  l !! i = Some v ->
  (length (concat (alter f i l)) + length v = length (concat l) + length (f v))%nat.
Proof.
  revert i. induction l as [|w l IH]; intros [|i]; simpl; try discriminate.
  - intros [= ->]. rewrite !length_app. lia.
  - intros Hi. rewrite !length_app. specialize (IH i Hi).
    change (alter f i l) with (list_alter f i l) in IH. lia.
Qed.

Lemma dyn_entry_in_bounds M i j v :
  0 <= i -> Sparse.dyn_data M !! Z.to_nat i = Some v ->
  Sparse.dyn_entry M i j = Sparse.vlookup j v.
Proof.
  intros Hi Hv. unfold Sparse.dyn_entry.
  replace (0 <=? i) with true by (symmetry; apply Z.leb_le; lia).
  now rewrite Hv.
Qed.

Lemma coeffRef_add_spec M r c x :
  Sparse.dyn_ok M -> 0 <= r < Sparse.dyn_rows M ->
  exists M',
    Sparse.coeffRef_add M r c x = Ok M' /\
    Sparse.dyn_ok M' /\
    Sparse.dyn_rows M' = Sparse.dyn_rows M /\
    Sparse.dyn_cols M' = Sparse.dyn_cols M /\
    (forall r' c',
       Sparse.dyn_entry M' r' c' =
       if decide (r' = r /\ c' = c)
       then Some (add (default zero (Sparse.dyn_entry M r c)) x)
       else Sparse.dyn_entry M r' c') /\
    Sparse.dyn_nonZeros M' =
      match Sparse.dyn_entry M r c with
      | Some _ => Sparse.dyn_nonZeros M
      | None => S (Sparse.dyn_nonZeros M)
      end /\
    (forall P : Z -> Prop, P c ->
       Forall (Forall (fun e : Z * T => P e.1)) (Sparse.dyn_data M) ->
       Forall (Forall (fun e : Z * T => P e.1)) (Sparse.dyn_data M')).
Proof.
  intros (Hrows & Hlen & Hsorted) Hr. unfold Sparse.coeffRef_add.
  replace ((0 <=? r) && (r <? Z.of_nat (length (Sparse.dyn_data M)))) with true
    by (symmetry; apply andb_true_iff; lia).
  eexists. split; [reflexivity|].
  destruct (lookup_lt_is_Some_2 (Sparse.dyn_data M) (Z.to_nat r)) as [v Hv]; [lia|].
  assert (Sparse.vsorted v) as Hvs.
  { rewrite Forall_forall in Hsorted. apply Hsorted.
    apply list_elem_of_lookup. eauto. }
  split; [|split; [reflexivity|split; [reflexivity|split; [|split]]]].
  - unfold Sparse.dyn_ok. simpl. rewrite length_alter.
    split; [assumption|]. split; [assumption|].
    apply Forall_lookup. intros i w Hw.
    rewrite list_lookup_alter in Hw. case_decide as Hd.
    + subst i. rewrite Hv in Hw. simpl in Hw. injection Hw as <-.
      rewrite vector_add_vadd. now apply vadd_sorted.
    + rewrite Forall_lookup in Hsorted. eauto.
  - intros r' c'. rewrite (dyn_entry_in_bounds M r c v) by (assumption || lia).
    unfold Sparse.dyn_entry. simpl.
    destruct (0 <=? r') eqn:Er'.
    + apply Z.leb_le in Er'. rewrite list_lookup_alter.
      destruct (decide (Z.to_nat r = Z.to_nat r')) as [Heq|Hne].
      * assert (r' = r) as -> by lia. rewrite Hv. simpl.
        rewrite vector_add_vadd, vlookup_vadd by assumption.
        repeat case_decide; try reflexivity; exfalso; tauto.
      * case_decide as Hd; [|reflexivity]. exfalso. apply Hne. f_equal. lia.
    + apply Z.leb_gt in Er'. case_decide as Hd; [|reflexivity]. lia.
  - rewrite (dyn_entry_in_bounds M r c v) by (assumption || lia).
    unfold Sparse.dyn_nonZeros. simpl.
    pose proof (length_concat_alter (Sparse.vector_add c x) _ _ _ Hv) as Hcount.
    rewrite vector_add_vadd, length_vadd in Hcount by assumption.
    destruct (Sparse.vlookup c v); lia.
  - intros P Hc Hall. simpl.
    apply Forall_lookup. intros i w Hw.
    rewrite list_lookup_alter in Hw. case_decide as Hd.
    + subst i. rewrite Hv in Hw. simpl in Hw. injection Hw as <-.
      rewrite vector_add_vadd. apply vadd_keys; [assumption|].
      rewrite Forall_lookup in Hall. eauto.
    + rewrite Forall_lookup in Hall. eauto.
Qed.

Lemma insert_all_spec (P : Z -> Prop) (ins : list (Z * Z * T)) : forall M,
  Sparse.dyn_ok M ->
  (forall t, t ∈ ins -> 0 <= t.1.1 < Sparse.dyn_rows M /\ P t.1.2) ->
  NoDup (ins.*1) ->
  (forall t, t ∈ ins -> Sparse.dyn_entry M t.1.1 t.1.2 = None) ->
  Forall (Forall (fun e : Z * T => P e.1)) (Sparse.dyn_data M) ->
  exists M',
    foldM Sparse.insert ins M = Ok M' /\
    Sparse.dyn_ok M' /\
    Sparse.dyn_rows M' = Sparse.dyn_rows M /\
    Sparse.dyn_cols M' = Sparse.dyn_cols M /\
    (forall r c y,
       Sparse.dyn_entry M' r c = Some y <->
       Sparse.dyn_entry M r c = Some y \/
       exists x, (r, c, x) ∈ ins /\ y = add zero x) /\
    Sparse.dyn_nonZeros M' = (Sparse.dyn_nonZeros M + length ins)%nat /\
    Forall (Forall (fun e : Z * T => P e.1)) (Sparse.dyn_data M').
Proof.
  induction ins as [|[[r c] x] ins IH]; intros M Hok Hrange Hnd Hfresh HP; simpl.
  - exists M. split; [reflexivity|]. split; [assumption|].
    split; [reflexivity|]. split; [reflexivity|].
    split; [|split; [lia|assumption]].
    intros r c y. split; [auto|]. intros [?|(x & Hin & _)]; [assumption|inversion Hin].
  - destruct (Hrange (r, c, x)) as [Hr Hc]; [left|]. simpl in Hr, Hc.
    destruct (coeffRef_add_spec M r c x Hok Hr)
      as (M1 & Hadd & Hok1 & Hr1 & Hc1 & Hent1 & Hnnz1 & HP1).
    unfold Sparse.insert at 1. simpl. rewrite Hadd. simpl.
    pose proof (Hfresh (r, c, x) ltac:(left)) as Hnone. simpl in Hnone.
    rewrite Hnone in Hent1, Hnnz1. simpl in Hent1.
    simpl in Hnd. apply NoDup_cons in Hnd as [Hnotin Hnd].
    destruct (IH M1) as (M' & Hfold & Hok' & Hr' & Hc' & Hent' & Hnnz' & HP');
      try assumption.
    { intros t Ht. rewrite Hr1. apply Hrange. now right. }
    { intros t Ht. rewrite Hent1. case_decide as Hd.
      - exfalso. apply Hnotin. apply list_elem_of_fmap. exists t.
        split; [|assumption]. destruct t as [[r' c'] x']. simpl in *.
        destruct Hd; congruence.
      - apply Hfresh. now right. }
    { now apply HP1. }
    exists M'. split; [assumption|]. split; [assumption|].
    split; [congruence|]. split; [congruence|]. split; [|split; [lia|assumption]].
    intros r' c' y. rewrite Hent', Hent1. split.
    + intros [Hone|(x' & Hin & ->)].
      * case_decide as Hd.
        -- destruct Hd as [-> ->]. injection Hone as <-.
           right. exists x. split; [left|reflexivity].
        -- auto.
      * right. exists x'. split; [now right|reflexivity].
    + intros [Hold|(x' & Hin & ->)].
      * left. case_decide as Hd; [|assumption].
        destruct Hd as [-> ->]. congruence.
      * apply elem_of_cons in Hin as [[= -> -> ->]|Hin].
        -- left. case_decide as Hd; [reflexivity|]. exfalso. tauto.
        -- right. eauto.
Qed.

End DynamicFacts.

(** ** The three loops as one list of insertions *)

Lemma foldM_ext {S A : Type} (f g : A -> S -> result S) (l : list A) (s : S) :
  (forall x s, f x s = g x s) -> foldM f l s = foldM g l s.
Proof.
  intros Hfg. revert s. induction l as [|x l IH]; intros s; simpl; [reflexivity|].
  rewrite Hfg. destruct (g x s); simpl; [apply IH|reflexivity].
Qed.

Lemma foldM_fmap {S A B : Type} (body : B -> S -> result S) (g : A -> B)
    (l : list A) (s : S) :
  foldM body (g <$> l) s = foldM (fun x => body (g x)) l s.
Proof.
  revert s. induction l as [|x l IH]; intros s; simpl; [reflexivity|].
  destruct (body (g x) s); simpl; [apply IH|reflexivity].
Qed.

Lemma foldM_bind {S A B : Type} (body : B -> S -> result S) (f : A -> list B)
    (l : list A) (s : S) :
  foldM body (l ≫= f) s = foldM (fun x s => foldM body (f x) s) l s.
Proof.
  revert s. induction l as [|x l IH]; intros s; [reflexivity|].
  rewrite bind_cons, foldM_app. simpl.
  destruct (foldM body (f x) s); simpl; [apply IH|reflexivity].
Qed.

Lemma fmap_bind_list {A B C : Type} (g : B -> C) (f : A -> list B) (l : list A) :
  g <$> (l ≫= f) = l ≫= (fun x => g <$> f x).
Proof.
  induction l as [|x l IH]; [reflexivity|].
  now rewrite !bind_cons, fmap_app, IH.
Qed.

Lemma length_bind_const {A B : Type} (f : A -> list B) (l : list A) (n : nat) :
  (forall x, x ∈ l -> length (f x) = n) -> length (l ≫= f) = (length l * n)%nat.
Proof.
  induction l as [|x l IH]; intros Hlen; [reflexivity|].
  rewrite bind_cons, length_app, IH, Hlen; [simpl; lia | left |].
  intros y Hy. apply Hlen. now right.
Qed.

Lemma NoDup_upto (n : Z) : NoDup (upto n).
Proof.
  unfold upto. apply NoDup_fmap_2_strong; [|apply NoDup_seq].
  intros x y _ _ Hxy. lia.
Qed.

(** The columns of a matrix, taken by index, are all of its entries. *)
Lemma bind_columns {X Y : Type} (g : Z -> list X -> list Y) (l : list (list X)) :
  upto (Z.of_nat (length l)) ≫= (fun k => g k (default [] (l !! Z.to_nat k))) =
  concat (imap (fun k v => g (Z.of_nat k) v) l).
Proof.
  induction l as [|v l IH] using rev_ind; [reflexivity|].
  rewrite length_app. simpl.
  replace (Z.of_nat (length l + 1)) with (Z.of_nat (length l) + 1) by lia.
  rewrite upto_snoc by lia. rewrite bind_app, bind_singleton.
  rewrite imap_app, concat_app. simpl. rewrite app_nil_r.
  f_equal.
  - rewrite <- IH. apply Forall_bind_ext. apply Forall_forall.
    intros k Hk. apply elem_of_upto in Hk.
    rewrite lookup_app_l by lia. reflexivity.
  - rewrite Nat.add_0_r, Nat2Z.id, lookup_app_r by lia.
    now rewrite Nat.sub_diag.
Qed.

(** ** The sparse overload on sizes that fit in [int] *)

Section SparseFacts.
Context {T : Type} `{Scalar T}.
Implicit Types A B : Sparse.SparseMatrix T.


Lemma column_in_range A k :
  Sparse.wf A -> Forall (fun e : Z * T => 0 <= e.1 < Sparse.rows A) (column A k).
Proof.
  intros (_ & _ & _ & Hall). unfold column.
  destruct (Sparse.outer A !! Z.to_nat k) as [v|] eqn:E; simpl; [|constructor].
  eapply Forall_lookup_1; eauto.
Qed.

Lemma column_NoDup A k : Sparse.no_duplicates A -> NoDup ((column A k).*1).
Proof.
  intros Hall. unfold column.
  destruct (Sparse.outer A !! Z.to_nat k) as [v|] eqn:E; simpl; [|constructor].
  eapply (Forall_lookup_1 _ _ _ _ Hall); eauto.
Qed.

Lemma entry_column A i j : 0 <= j -> Sparse.entry A i j = Sparse.vlookup i (column A j).
Proof.
  intros Hj. unfold Sparse.entry, column.
  replace (0 <=? j) with true by (symmetry; apply Z.leb_le; lia).
  now destruct (Sparse.outer A !! Z.to_nat j).
Qed.

Lemma column_outside A k : Sparse.wf A -> ~ (0 <= k < Sparse.cols A) -> column A k = [] \/ k < 0.
Proof.
  intros (_ & _ & Hlen & _) Hk. unfold column.
  destruct (decide (k < 0)); [now right|left].
  rewrite lookup_ge_None_2; [reflexivity | lia].
Qed.


Lemma insertions_exact A d :
  Sparse.wf A -> fits (Sparse.rows A) (Sparse.cols A) d ->
  Sparse.insertions A d = exact_insertions A d.
Proof.
  intros HA (Hd & Hmd & Hnd). pose proof HA as (Hm & Hn & _).
  unfold Sparse.insertions, exact_insertions, Sparse.outerSize, Int.of_index.
  cbv zeta. rewrite !wrap_small by now apply in_range_nonneg.
  apply Forall_bind_ext, Forall_forall. intros i Hi. apply elem_of_upto in Hi.
  apply Forall_bind_ext, Forall_forall. intros k Hk. apply elem_of_upto in Hk.
  unfold Sparse.InnerIterator. fold (column A k).
  rewrite <- list_fmap_compose. apply Forall_fmap_ext.
  eapply Forall_impl; [apply (column_in_range A k HA)|].
  intros e He. simpl. rewrite !add_mul_wrap.
  unfold Int.max_int in *.
  rewrite !wrap_small by (apply in_range_nonneg; unfold Int.max_int; nia).
  reflexivity.
Qed.

Lemma exact_insertions_elem A d t :
  t ∈ exact_insertions A d <->
  exists i k e, 0 <= i < d /\ 0 <= k < Sparse.cols A /\ e ∈ column A k /\
                t = (i * Sparse.rows A + e.1, i * Sparse.cols A + k, e.2).
Proof.
  unfold exact_insertions. rewrite list_elem_of_bind. split.
  - intros (i & Ht & Hi). apply list_elem_of_bind in Ht as (k & Ht & Hk).
    apply list_elem_of_fmap in Ht as (e & -> & He).
    apply elem_of_upto in Hi, Hk. eauto 10.
  - intros (i & k & e & Hi & Hk & He & ->). exists i.
    split; [|now apply elem_of_upto].
    apply list_elem_of_bind. exists k. split; [|now apply elem_of_upto].
    apply list_elem_of_fmap. eauto.
Qed.

Lemma exact_insertions_NoDup A d :
  Sparse.wf A -> Sparse.no_duplicates A -> NoDup ((exact_insertions A d).*1).
Proof.
  intros HA Hnd. unfold exact_insertions.
  rewrite fmap_bind_list. apply NoDup_bind; [| |apply NoDup_upto].
  - intros i1 i2 p _ _ H1 H2.
    rewrite fmap_bind_list in H1, H2.
    apply list_elem_of_bind in H1 as (k1 & H1 & _), H2 as (k2 & H2 & _).
    rewrite <- list_fmap_compose in H1, H2.
    apply list_elem_of_fmap in H1 as (e1 & -> & He1), H2 as (e2 & Heq & He2).
    simpl in Heq. injection Heq as Hr Hc.
    pose proof (column_in_range A k1 HA) as Hr1.
    pose proof (column_in_range A k2 HA) as Hr2.
    rewrite Forall_forall in Hr1, Hr2.
    specialize (Hr1 e1 He1). specialize (Hr2 e2 He2). simpl in Hr1, Hr2. nia.
  - intros i _. rewrite fmap_bind_list. apply NoDup_bind; [| |apply NoDup_upto].
    + intros k1 k2 p _ _ H1 H2.
      rewrite <- list_fmap_compose in H1, H2.
      apply list_elem_of_fmap in H1 as (e1 & -> & He1), H2 as (e2 & Heq & He2).
      simpl in Heq. injection Heq as Hr Hc. lia.
    + intros k _. rewrite <- list_fmap_compose.
      change (fst ∘ (fun e : Z * T => (i * Sparse.rows A + e.1, i * Sparse.cols A + k, e.2)))
        with ((fun r : Z => (i * Sparse.rows A + r, i * Sparse.cols A + k)) ∘ (fst : Z * T -> Z)).
      rewrite list_fmap_compose.
      apply NoDup_fmap_2_strong; [|now apply column_NoDup].
      intros r1 r2 _ _ [= Heq]. lia.
Qed.

Lemma length_concat_imap {X Y : Type} (g : nat -> list X -> list Y) (l : list (list X)) :
  (forall k v, length (g k v) = length v) ->
  length (concat (imap g l)) = length (concat l).
Proof.
  revert g. induction l as [|v l IH]; intros g Hg; [reflexivity|].
  rewrite imap_cons. simpl. rewrite !length_app, Hg. f_equal.
  apply IH. intros k w. apply Hg.
Qed.

Lemma length_exact_insertions A d :
  Sparse.wf A -> 0 <= d ->
  Z.of_nat (length (exact_insertions A d)) = d * Sparse.nonZeros A.
Proof.
  intros (_ & _ & Hlen & _) Hd. unfold exact_insertions.
  rewrite (length_bind_const _ _ (length (concat (Sparse.outer A)))).
  - rewrite length_upto. unfold Sparse.nonZeros. nia.
  - intros i _. rewrite <- Hlen. unfold column.
    rewrite (bind_columns
               (fun k v => (fun e : Z * T =>
                  (i * Sparse.rows A + e.1,
                   i * Z.of_nat (length (Sparse.outer A)) + k, e.2)) <$> v)).
    apply length_concat_imap. intros k v. apply length_fmap.
Qed.

End SparseFacts.

(** ** Conversion of the accumulator to compressed storage *)

Section ConversionFacts.
Context {T : Type} `{Scalar T}.

Lemma push_back_spec j (columns : list (Sparse.SparseVector T)) (e : Z * T) c :
  0 <= e.1 ->
  Sparse.push_back j columns e !! c =
  (fun col => col ++ if decide (Z.of_nat c = e.1) then [(j, e.2)] else [])
    <$> columns !! c.
Proof.
  intros He. unfold Sparse.push_back. rewrite list_lookup_alter.
  destruct (decide (Z.to_nat e.1 = c)) as [<-|Hne].
  - rewrite decide_True by lia. reflexivity.
  - rewrite decide_False by lia.
    destruct (columns !! c) as [col|]; simpl; [now rewrite app_nil_r|reflexivity].
Qed.

Lemma push_row_spec j (v : Sparse.SparseVector T) :
  forall columns : list (Sparse.SparseVector T),
  NoDup (v.*1) -> Forall (fun e : Z * T => 0 <= e.1) v ->
  forall c,
    foldl (Sparse.push_back j) columns v !! c =
    (fun col => col ++ match Sparse.vlookup (Z.of_nat c) v with
                       | Some x => [(j, x)]
                       | None => []
                       end) <$> columns !! c.
Proof.
  induction v as [|e v IH]; intros columns Hnd Hpos c; simpl.
  - destruct (columns !! c); simpl; [now rewrite app_nil_r | reflexivity].
  - simpl in Hnd. apply NoDup_cons in Hnd as [Hnotin Hnd].
    apply Forall_cons in Hpos as [He Hpos].
    rewrite IH by assumption. rewrite push_back_spec by assumption.
    destruct (columns !! c) as [col|]; simpl; [|reflexivity].
    destruct (e.1 =? Z.of_nat c) eqn:E.
    + apply Z.eqb_eq in E. rewrite decide_True by lia.
      apply vlookup_None in Hnotin. rewrite <- E, Hnotin.
      now rewrite app_nil_r.
    + apply Z.eqb_neq in E. rewrite decide_False by lia.
      now rewrite app_nil_r.
Qed.

Lemma length_push_row j (v : Sparse.SparseVector T) :
  forall columns : list (Sparse.SparseVector T),
  Forall (fun e : Z * T => 0 <= e.1 < Z.of_nat (length columns)) v ->
  length (foldl (Sparse.push_back j) columns v) = length columns /\
  length (concat (foldl (Sparse.push_back j) columns v)) =
  (length (concat columns) + length v)%nat.
Proof.
  induction v as [|e v IH]; intros columns Hall; simpl; [lia|].
  apply Forall_cons in Hall as [He Hall].
  destruct (lookup_lt_is_Some_2 columns (Z.to_nat e.1)) as [col Hcol]; [lia|].
  pose proof (length_concat_alter (fun col => col ++ [(j, e.2)]) _ _ _ Hcol) as Hcount.
  cbv beta in Hcount. rewrite length_app in Hcount. simpl in Hcount.
  destruct (IH (Sparse.push_back j columns e)) as [Hlen Hnnz].
  { unfold Sparse.push_back. now rewrite length_alter. }
  unfold Sparse.push_back in *. rewrite length_alter in Hlen. lia.
Qed.

Lemma fill_columns_spec (rws : list (Sparse.SparseVector T)) :
  forall j (columns : list (Sparse.SparseVector T)),
  Forall (fun v : Sparse.SparseVector T => NoDup (v.*1)) rws ->
  Forall (Forall (fun e : Z * T => 0 <= e.1 < Z.of_nat (length columns))) rws ->
  length (Sparse.fill_columns j rws columns) = length columns /\
  length (concat (Sparse.fill_columns j rws columns)) =
    (length (concat columns) + length (concat rws))%nat /\
  forall c, Sparse.fill_columns j rws columns !! c =
            (fun col => col ++ Sparse.column_of j rws (Z.of_nat c)) <$> columns !! c.
Proof.
  induction rws as [|v rws IH]; intros j columns Hnd Hrange; simpl.
  - split; [reflexivity|]. split; [lia|]. intros c.
    destruct (columns !! c); simpl; [now rewrite app_nil_r|reflexivity].
  - apply Forall_cons in Hnd as [Hv Hnd]. apply Forall_cons in Hrange as [Hrv Hrange].
    destruct (length_push_row j v columns Hrv) as [Hlen1 Hnnz1].
    destruct (IH (j + 1) (foldl (Sparse.push_back j) columns v)) as (Hlen & Hnnz & Hcol).
    { assumption. } { now rewrite Hlen1. }
    split; [lia|]. split; [rewrite length_app; lia|].
    intros c. rewrite Hcol, push_row_spec.
    + destruct (columns !! c) as [col|]; simpl; [|reflexivity].
      destruct (Sparse.vlookup (Z.of_nat c) v); simpl;
        now rewrite <- app_assoc.
    + assumption.
    + eapply Forall_impl; [exact Hrv|]. simpl. intros; lia.
Qed.

Lemma column_of_sorted j (rws : list (Sparse.SparseVector T)) c :
  Forall (fun e : Z * T => j <= e.1) (Sparse.column_of j rws c) /\
  Sparse.vsorted (Sparse.column_of j rws c).
Proof.
  revert j. induction rws as [|v rws IH]; intros j; simpl.
  - split; [constructor|exact I].
  - destruct (IH (j + 1)) as [Hge Hs].
    assert (Forall (fun e : Z * T => j < e.1) (Sparse.column_of (j + 1) rws c)) as Hgt.
    { eapply Forall_impl; [exact Hge|]. simpl. intros; lia. }
    destruct (Sparse.vlookup c v); simpl.
    + split; [|split; assumption].
      constructor; [simpl; lia|].
      eapply Forall_impl; [exact Hge|]. simpl. intros; lia.
    + split; [|assumption].
      eapply Forall_impl; [exact Hge|]. simpl. intros; lia.
Qed.

Lemma vlookup_column_of j (rws : list (Sparse.SparseVector T)) c r :
  Sparse.vlookup r (Sparse.column_of j rws c) =
  if decide (j <= r) then
    match rws !! Z.to_nat (r - j) with
    | Some v => Sparse.vlookup c v
    | None => None
    end
  else None.
Proof.
  revert j. induction rws as [|v rws IH]; intros j; simpl.
  - now case_decide.
  - assert (Sparse.vlookup r (Sparse.column_of (j + 1) rws c) =
            if decide (j + 1 <= r)
            then match rws !! Z.to_nat (r - (j + 1)) with
                 | Some v => Sparse.vlookup c v
                 | None => None
                 end
            else None) as Hrest by apply IH.
    destruct (decide (r = j)) as [->|Hne].
    + rewrite decide_True by lia. replace (Z.to_nat (j - j)) with O by lia. simpl.
      destruct (Sparse.vlookup c v) as [x|]; simpl.
      * now rewrite Z.eqb_refl.
      * rewrite Hrest. rewrite decide_False by lia. reflexivity.
    + assert (Sparse.vlookup r
                match Sparse.vlookup c v with
                | Some x => (j, x) :: Sparse.column_of (j + 1) rws c
                | None => Sparse.column_of (j + 1) rws c
                end = Sparse.vlookup r (Sparse.column_of (j + 1) rws c)) as ->.
      { destruct (Sparse.vlookup c v); simpl; [|reflexivity].
        replace (j =? r) with false by (symmetry; apply Z.eqb_neq; lia).
        reflexivity. }
      rewrite Hrest. repeat case_decide; try reflexivity; try lia.
      replace (Z.to_nat (r - j)) with (S (Z.to_nat (r - (j + 1)))) by lia.
      reflexivity.
Qed.

Lemma column_of_rows j (rws : list (Sparse.SparseVector T)) c :
  Forall (fun e : Z * T => j <= e.1 < j + Z.of_nat (length rws))
         (Sparse.column_of j rws c).
Proof.
  revert j. induction rws as [|v rws IH]; intros j; simpl; [constructor|].
  assert (Forall (fun e : Z * T => j <= e.1 < j + Z.of_nat (S (length rws)))
                 (Sparse.column_of (j + 1) rws c)) as Hrest.
  { eapply Forall_impl; [apply IH|]. simpl. intros; lia. }
  destruct (Sparse.vlookup c v); [constructor; [simpl; lia|]|]; exact Hrest.
Qed.

Lemma concat_replicate_nil {X : Type} (n : nat) :
  concat (replicate n ([] : list X)) = [].
Proof. induction n as [|n IH]; simpl; [reflexivity | exact IH]. Qed.

Lemma inner_in_range_spec (M : Sparse.DynamicSparseMatrix T) :
  Sparse.inner_in_range M = true <->
  Forall (Forall (fun e : Z * T => 0 <= e.1 < Sparse.dyn_cols M)) (Sparse.dyn_data M).
Proof.
  unfold Sparse.inner_in_range. rewrite forallb_forall, Forall_forall.
  split; intros Hall v Hv.
  - apply Forall_forall. intros e He.
    specialize (Hall v ltac:(now apply list_elem_of_In)).
    rewrite forallb_forall in Hall.
    specialize (Hall e ltac:(now apply list_elem_of_In)).
    apply andb_true_iff in Hall. lia.
  - apply forallb_forall. intros e He.
    specialize (Hall v ltac:(now apply list_elem_of_In)).
    rewrite Forall_forall in Hall.
    specialize (Hall e ltac:(now apply list_elem_of_In)).
    apply andb_true_iff. lia.
Qed.

Lemma of_dynamic_spec (M : Sparse.DynamicSparseMatrix T) :
  Sparse.dyn_ok M -> 0 <= Sparse.dyn_cols M ->
  Forall (Forall (fun e : Z * T => 0 <= e.1 < Sparse.dyn_cols M)) (Sparse.dyn_data M) ->
  exists B,
    Sparse.of_dynamic M = Ok B /\
    Sparse.rows B = Sparse.dyn_rows M /\ Sparse.cols B = Sparse.dyn_cols M /\
    Z.of_nat (length (Sparse.outer B)) = Sparse.dyn_cols M /\
    Sparse.canonical B /\
    Forall (Forall (fun e : Z * T => 0 <= e.1 < Sparse.rows B)) (Sparse.outer B) /\
    (forall i j, Sparse.entry B i j = Sparse.dyn_entry M i j) /\
    Sparse.nonZeros B = Z.of_nat (Sparse.dyn_nonZeros M).
Proof.
  intros (Hrows & Hlen & Hsorted) Hcols Hrange. unfold Sparse.of_dynamic.
  replace (Sparse.dyn_cols M <? 0) with false by (symmetry; apply Z.ltb_ge; lia).
  replace (Sparse.inner_in_range M) with true
    by (symmetry; now apply inner_in_range_spec).
  eexists. split; [reflexivity|]. simpl.
  destruct (fill_columns_spec (Sparse.dyn_data M) 0
              (replicate (Z.to_nat (Sparse.dyn_cols M)) []))
    as (Hlen' & Hnnz & Hcol).
  { eapply Forall_impl; [exact Hsorted|]. intros v. apply vsorted_NoDup. }
  { rewrite length_replicate.
    eapply Forall_impl; [exact Hrange|]. intros v Hv.
    eapply Forall_impl; [exact Hv|]. simpl. intros; lia. }
  rewrite length_replicate in Hlen'.
  assert (forall c col,
            Sparse.fill_columns 0 (Sparse.dyn_data M)
              (replicate (Z.to_nat (Sparse.dyn_cols M)) []) !! c = Some col ->
            col = Sparse.column_of 0 (Sparse.dyn_data M) (Z.of_nat c)) as Hcol'.
  { intros c col Hc. rewrite Hcol in Hc.
    destruct (replicate _ _ !! c) as [col0|] eqn:E; [|discriminate].
    apply lookup_replicate in E as [-> _]. simpl in Hc. congruence. }
  split; [reflexivity|]. split; [reflexivity|]. split; [lia|].
  split; [|split; [|split]].
  - apply Forall_lookup. intros c col Hc. apply Hcol' in Hc as ->.
    apply column_of_sorted.
  - apply Forall_lookup. intros c col Hc. apply Hcol' in Hc as ->.
    eapply Forall_impl; [apply column_of_rows|]. simpl. intros; lia.
  - intros i j. unfold Sparse.entry, Sparse.dyn_entry. simpl.
    destruct (0 <=? j) eqn:Ej.
    + apply Z.leb_le in Ej. rewrite Hcol.
      destruct (decide (j < Sparse.dyn_cols M)) as [Hj|Hj].
      * rewrite lookup_replicate_2 by lia. simpl.
        rewrite vlookup_column_of, Z2Nat.id, Z.sub_0_r by lia.
        destruct (0 <=? i) eqn:Ei.
        -- apply Z.leb_le in Ei. now rewrite decide_True by lia.
        -- apply Z.leb_gt in Ei. now rewrite decide_False by lia.
      * rewrite (proj1 (lookup_replicate_None _ _ _)) by lia. simpl.
        destruct (0 <=? i); [|reflexivity].
        destruct (Sparse.dyn_data M !! Z.to_nat i) as [v|] eqn:Ev; [|reflexivity].
        symmetry. apply vlookup_None. intros Hin.
        apply list_elem_of_fmap in Hin as (e & -> & He).
        pose proof (Forall_lookup_1 _ _ _ _ Hrange Ev) as Hv.
        rewrite Forall_forall in Hv. specialize (Hv e He). simpl in Hv. lia.
    + apply Z.leb_gt in Ej. destruct (0 <=? i); [|reflexivity].
      destruct (Sparse.dyn_data M !! Z.to_nat i) as [v|] eqn:Ev; [|reflexivity].
      symmetry. apply vlookup_None. intros Hin.
      apply list_elem_of_fmap in Hin as (e & -> & He).
      pose proof (Forall_lookup_1 _ _ _ _ Hrange Ev) as Hv.
      rewrite Forall_forall in Hv. specialize (Hv e He). simpl in Hv. lia.
  - unfold Sparse.nonZeros, Sparse.dyn_nonZeros. simpl. rewrite Hnnz.
    now rewrite concat_replicate_nil.
Qed.

End ConversionFacts.

(** ** The sparse overload *)

Section SparseRepdiag.
Context {T : Type} `{Scalar T}.
Implicit Types A B : Sparse.SparseMatrix T.

Lemma loops_insertions A d (M : Sparse.DynamicSparseMatrix T) :
  foldM (fun i dyn_B =>
    foldM (fun k dyn_B =>
      foldM (Sparse.accumulate i (Int.of_index (Sparse.rows A))
                                 (Int.of_index (Sparse.cols A)))
            (Sparse.InnerIterator A k) dyn_B)
      (upto (Sparse.outerSize A)) dyn_B)
    (upto d) M =
  foldM Sparse.insert (Sparse.insertions A d) M.
Proof.
  unfold Sparse.insertions. cbv zeta.
  rewrite foldM_bind. apply foldM_ext. intros i s.
  rewrite foldM_bind. apply foldM_ext. intros k s'.
  rewrite foldM_fmap. apply foldM_ext. intros it s''. reflexivity.
Qed.

(** The call as the composition of its three phases. *)
Lemma sparse_repdiag_phases A d B0 :
  Sparse.repdiag A d B0 =
  let* dyn_B := Sparse.dyn_new (Int.wrap (Sparse.rows A * d))
                               (Int.wrap (Sparse.cols A * d)) in
  let* dyn_B := foldM Sparse.insert (Sparse.insertions A d) dyn_B in
  Sparse.of_dynamic dyn_B.
Proof.
  unfold Sparse.repdiag. cbv zeta. rewrite !mul_of_index.
  destruct (Sparse.dyn_new _ _) as [M|e]; simpl; [|reflexivity].
  unfold Sparse.reserve. now rewrite loops_insertions.
Qed.

Lemma dyn_new_ok r c :
  0 <= r ->
  Sparse.dyn_new (T:=T) r c = Ok (Sparse.mk_dyn r c (replicate (Z.to_nat r) [])) /\
  Sparse.dyn_ok (Sparse.mk_dyn r c (replicate (Z.to_nat r) ([] : list (Z * T)))) /\
  (forall i j, Sparse.dyn_entry (Sparse.mk_dyn r c (replicate (Z.to_nat r) [])) i j
               = (None : option T)).
Proof.
  intros Hr. unfold Sparse.dyn_new.
  replace (r <? 0) with false by (symmetry; apply Z.ltb_ge; lia).
  split; [reflexivity|]. split.
  - unfold Sparse.dyn_ok. simpl. rewrite length_replicate.
    split; [assumption|]. split; [reflexivity|].
    apply Forall_forall. intros v Hv. apply elem_of_replicate_inv in Hv as ->.
    exact I.
  - intros i j. unfold Sparse.dyn_entry. simpl.
    destruct (0 <=? i); [|reflexivity].
    destruct (replicate (Z.to_nat r) [] !! Z.to_nat i) as [v|] eqn:E; [|reflexivity].
    apply lookup_replicate in E as [-> _]. reflexivity.
Qed.

Lemma sparse_repdiag_spec A d B0 :
  Sparse.wf A -> Sparse.no_duplicates A ->
  fits (Sparse.rows A) (Sparse.cols A) d ->
  exists B,
    Sparse.repdiag A d B0 = Ok B /\
    Sparse.rows B = Sparse.rows A * d /\ Sparse.cols B = Sparse.cols A * d /\
    Sparse.wf B /\ Sparse.canonical B /\
    (forall i j y,
       Sparse.entry B i j = Some y <->
       exists k r c x,
         0 <= k < d /\ 0 <= r < Sparse.rows A /\ 0 <= c < Sparse.cols A /\
         i = k * Sparse.rows A + r /\ j = k * Sparse.cols A + c /\
         Sparse.entry A r c = Some x /\ y = add zero x) /\
    Sparse.nonZeros B = d * Sparse.nonZeros A.
Proof.
  intros HA Hnd Hfits. pose proof Hfits as (Hd & Hmd & Hnd').
  pose proof HA as (Hm & Hn & Hlen & Hrange).
  rewrite sparse_repdiag_phases.
  rewrite !wrap_small by (apply in_range_nonneg; unfold Int.max_int in *; nia).
  destruct (dyn_new_ok (Sparse.rows A * d) (Sparse.cols A * d))
    as (-> & Hok0 & Hempty); [nia|]. simpl.
  rewrite insertions_exact by assumption.
  destruct (insert_all_spec (fun c => 0 <= c < Sparse.cols A * d)
              (exact_insertions A d) _ Hok0)
    as (M & -> & HokM & HrM & HcM & HentM & HnnzM & HPM).
  { intros t Ht. apply exact_insertions_elem in Ht
      as (i & k & e & Hi & Hk & He & ->). simpl.
    pose proof (column_in_range A k HA) as Hrk.
    rewrite Forall_forall in Hrk. specialize (Hrk e He). simpl in Hrk. nia. }
  { now apply exact_insertions_NoDup. }
  { intros t _. apply Hempty. }
  { simpl. apply Forall_forall. intros v Hv.
    apply elem_of_replicate_inv in Hv as ->. constructor. }
  simpl in HrM, HcM. simpl.
  destruct (of_dynamic_spec M HokM) as (B & -> & Hr & Hc & HlenB & Hcan & HrB & Hent & Hnnz).
  { rewrite HcM. nia. } { now rewrite HcM. }
  exists B. split; [reflexivity|]. split; [congruence|]. split; [congruence|].
  split; [|split; [assumption|split]].
  - unfold Sparse.wf. rewrite Hr, Hc, HrM, HcM, HlenB, HcM.
    repeat split; try nia. now rewrite Hr, HrM in HrB.
  - intros i j y. rewrite Hent, HentM, Hempty. split.
    + intros [Hnone|(x & Hin & ->)]; [discriminate|].
      apply exact_insertions_elem in Hin as (k & c & e & Hk & Hc' & He & Heq).
      injection Heq as -> -> ->.
      pose proof (column_in_range A c HA) as Hrk.
      rewrite Forall_forall in Hrk. specialize (Hrk e He). simpl in Hrk.
      exists k, e.1, c, e.2. repeat split; try lia.
      rewrite entry_column by lia. apply vlookup_elem; [now apply column_NoDup|].
      now destruct e.
    + intros (k & r & c & x & Hk & Hr' & Hc' & -> & -> & Hx & ->).
      right. exists x. split; [|reflexivity].
      apply exact_insertions_elem. exists k, c, (r, x).
      repeat split; try lia.
      rewrite entry_column in Hx by lia. now apply vlookup_Some_elem.
  - rewrite Hnnz, HnnzM. unfold Sparse.dyn_nonZeros at 1. simpl.
    rewrite concat_replicate_nil. simpl.
    apply length_exact_insertions; [assumption|lia].
Qed.

End SparseRepdiag.

(** ** Consequences for the stored entries *)

Section SparseEntries.
Context {T : Type} `{Scalar T}.
Implicit Types A B : Sparse.SparseMatrix T.

Lemma entry_out_of_range A i j :
  Sparse.wf A -> ~ (0 <= i < Sparse.rows A /\ 0 <= j < Sparse.cols A) ->
  Sparse.entry A i j = None.
Proof.
  intros HA Hout.
  destruct (decide (0 <= j)) as [Hj|Hj].
  - rewrite entry_column by assumption. apply vlookup_None. intros Hin.
    apply list_elem_of_fmap in Hin as (e & -> & He).
    pose proof (column_in_range A j HA) as Hr. rewrite Forall_forall in Hr.
    specialize (Hr e He). simpl in Hr.
    destruct (column_outside A j HA) as [Hnil|Hneg]; [lia | | lia].
    rewrite Hnil in He. inversion He.
  - unfold Sparse.entry.
    now replace (0 <=? j) with false by (symmetry; apply Z.leb_gt; lia).
Qed.

Lemma coeff_entry A i j :
  0 <= i < Sparse.rows A -> 0 <= j < Sparse.cols A ->
  Sparse.coeff A i j = Some (default zero (Sparse.entry A i j)).
Proof.
  intros Hi Hj. unfold Sparse.coeff.
  now replace ((0 <=? i) && (i <? Sparse.rows A) && (0 <=? j) && (j <? Sparse.cols A))
    with true by (symmetry; rewrite !andb_true_iff; lia).
Qed.

(** Two canonical matrices of the same shape with the same stored
    entries are equal. *)
Lemma sparse_ext A B :
  Sparse.wf A -> Sparse.wf B -> Sparse.canonical A -> Sparse.canonical B ->
  Sparse.rows A = Sparse.rows B -> Sparse.cols A = Sparse.cols B ->
  (forall i j, Sparse.entry A i j = Sparse.entry B i j) -> A = B.
Proof.
  destruct A as [ra ca oa], B as [rb cb ob]. unfold Sparse.wf, Sparse.canonical.
  simpl. intros (_ & _ & Hla & _) (_ & _ & Hlb & _) Hsa Hsb <- <- Hent.
  f_equal. apply list_eq. intros k.
  destruct (oa !! k) as [va|] eqn:Ea; destruct (ob !! k) as [vb|] eqn:Eb.
  - f_equal. apply vsorted_ext.
    + exact (Forall_lookup_1 _ _ _ _ Hsa Ea).
    + exact (Forall_lookup_1 _ _ _ _ Hsb Eb).
    + intros key. specialize (Hent key (Z.of_nat k)).
      unfold Sparse.entry in Hent. simpl in Hent.
      replace (0 <=? Z.of_nat k) with true in Hent by (symmetry; apply Z.leb_le; lia).
      now rewrite Nat2Z.id, Ea, Eb in Hent.
  - apply lookup_lt_Some in Ea. apply lookup_ge_None in Eb. lia.
  - apply lookup_lt_Some in Eb. apply lookup_ge_None in Ea. lia.
  - reflexivity.
Qed.

Section ExactAdd.
Hypothesis add_zero_l : forall x : T, add zero x = x.

(** Every diagonal block holds the stored entries of [A], and nothing
    is stored outside of the blocks. *)
Lemma sparse_repdiag_entries A d B0 :
  Sparse.wf A -> Sparse.no_duplicates A ->
  fits (Sparse.rows A) (Sparse.cols A) d ->
  exists B,
    Sparse.repdiag A d B0 = Ok B /\
    Sparse.rows B = Sparse.rows A * d /\ Sparse.cols B = Sparse.cols A * d /\
    Sparse.wf B /\ Sparse.canonical B /\
    (forall k r c, 0 <= k < d -> 0 <= r < Sparse.rows A -> 0 <= c < Sparse.cols A ->
       Sparse.entry B (k * Sparse.rows A + r) (k * Sparse.cols A + c) =
       Sparse.entry A r c) /\
    (forall i j,
       ~ (exists k, 0 <= k < d /\
            in_rect (k * Sparse.rows A) (k * Sparse.cols A)
                    (Sparse.rows A) (Sparse.cols A) i j) ->
       Sparse.entry B i j = None).
Proof.
  intros HA Hnd Hfits.
  destruct (sparse_repdiag_spec A d B0 HA Hnd Hfits)
    as (B & HB & Hr & Hc & Hwf & Hcan & Hent & _).
  exists B. repeat (split; [assumption|]). split.
  - intros k r c Hk Hr' Hc'.
    destruct (Sparse.entry A r c) as [x|] eqn:Ex.
    + apply Hent. exists k, r, c, x. rewrite add_zero_l. repeat split; lia || assumption.
    + destruct (Sparse.entry B _ _) as [y|] eqn:Ey; [|reflexivity].
      apply Hent in Ey as (k' & r' & c' & x & Hk' & Hr'' & Hc'' & Hi & Hj & Hx & _).
      assert (k' = k) by nia. subst k'.
      assert (r' = r) by lia. assert (c' = c) by lia. congruence.
  - intros i j Hno.
    destruct (Sparse.entry B i j) as [y|] eqn:Ey; [|reflexivity].
    apply Hent in Ey as (k & r & c & x & Hk & Hr' & Hc' & -> & -> & _).
    exfalso. apply Hno. exists k. unfold in_rect. lia.
Qed.

Lemma sparse_repdiag_one A B0 :
  Sparse.wf A -> Sparse.canonical A -> Sparse.repdiag A 1 B0 = Ok A.
Proof.
  intros HA Hcan. pose proof HA as (Hm & Hn & _).
  destruct (sparse_repdiag_entries A 1 B0 HA)
    as (B & -> & Hr & Hc & Hwf & HcanB & Hin & Hout).
  { eapply Forall_impl; [exact Hcan|]. intros v. apply vsorted_NoDup. }
  { unfold fits, Int.max_int in *. lia. }
  f_equal. apply sparse_ext; try assumption; try lia.
  intros i j.
  destruct (decide (0 <= i < Sparse.rows A /\ 0 <= j < Sparse.cols A)) as [[Hi Hj]|Hno].
  - specialize (Hin 0 i j). rewrite !Z.mul_0_l, !Z.add_0_l in Hin. apply Hin; lia.
  - rewrite (entry_out_of_range A i j HA Hno). apply Hout.
    intros (k & Hk & Hrect). unfold in_rect in Hrect. apply Hno. lia.
Qed.

End ExactAdd.
End SparseEntries.

(** ** The shape of every returned matrix *)

Lemma foldM_preserves {S A : Type} (P : S -> Prop) (body : A -> S -> result S)
    (l : list A) : forall s s',
  (forall x s s', x ∈ l -> body x s = Ok s' -> P s -> P s') ->
  P s -> foldM body l s = Ok s' -> P s'.
Proof.
  induction l as [|x l IH]; intros s s' Hbody Hs Hfold; simpl in Hfold.
  - now injection Hfold as <-.
  - apply bind_ok in Hfold as (s1 & Hx & Hrest).
    apply (IH s1 s'); [|eapply Hbody; [left|eassumption|assumption]|assumption].
    intros y t t' Hy. apply Hbody. now right.
Qed.

(** In a loop that succeeds every iteration has succeeded, from a state
    that satisfies each invariant of the body. *)
Lemma foldM_ok_each {S A : Type} (P : S -> Prop) (body : A -> S -> result S)
    (l : list A) : forall s s',
  (forall x s s', x ∈ l -> body x s = Ok s' -> P s -> P s') ->
  P s -> foldM body l s = Ok s' ->
  forall x, x ∈ l -> exists s1 s2, P s1 /\ body x s1 = Ok s2.
Proof.
  induction l as [|y l IH]; intros s s' Hbody Hs Hfold x Hx; simpl in Hfold.
  - inversion Hx.
  - apply bind_ok in Hfold as (s1 & Hy & Hrest).
    apply elem_of_cons in Hx as [->|Hx]; [eauto|].
    apply (IH s1 s'); [|eapply Hbody; [left|eassumption|assumption]|assumption..].
    intros z t t' Hz. apply Hbody. now right.
Qed.

Section Shapes.
Context {T : Type} `{Scalar T}.

Lemma dims_copy_coeff (A B : Dense.Matrix T) sr sc c r :
  Dense.rows (Dense.copy_coeff A sr sc c r B) = Dense.rows B /\
  Dense.cols (Dense.copy_coeff A sr sc c r B) = Dense.cols B.
Proof. unfold Dense.copy_coeff. now destruct (_ !! _). Qed.

Lemma dims_copy_block (A B : Dense.Matrix T) sr sc :
  Dense.rows (Dense.copy_block A sr sc B) = Dense.rows B /\
  Dense.cols (Dense.copy_block A sr sc B) = Dense.cols B.
Proof.
  unfold Dense.copy_block. generalize (upto (Dense.cols A)). intros cs.
  revert B. induction cs as [|c cs IH]; intros B; simpl; [auto|].
  destruct (IH (Dense.copy_col A sr sc B c)) as [-> ->].
  unfold Dense.copy_col. generalize (upto (Dense.rows A)). intros rs.
  revert B. induction rs as [|r rs IHr]; intros B; simpl; [auto|].
  destruct (IHr (Dense.copy_coeff A sr sc c r B)) as [-> ->].
  apply dims_copy_coeff.
Qed.

Lemma block_assign_inv (A B B' : Dense.Matrix T) sr sc br bc :
  Dense.block_assign B sr sc br bc A = Ok B' ->
  Dense.block_ok B sr sc br bc = true /\ br = Dense.rows A /\ bc = Dense.cols A /\
  Dense.rows B' = Dense.rows B /\ Dense.cols B' = Dense.cols B.
Proof.
  unfold Dense.block_assign.
  destruct (Dense.block_ok B sr sc br bc); [|discriminate].
  destruct ((br =? Dense.rows A) && (bc =? Dense.cols A)) eqn:E; [|discriminate].
  apply andb_true_iff in E as [E1 E2]. apply Z.eqb_eq in E1, E2.
  intros [= <-]. pose proof (dims_copy_block A B sr sc). tauto.
Qed.

Lemma resize_inv heap (B B' : Dense.Matrix T) r c :
  Dense.resize heap B r c = Ok B' ->
  0 <= r /\ 0 <= c /\ Dense.rows B' = r /\ Dense.cols B' = c.
Proof.
  unfold Dense.resize.
  destruct ((r <? 0) || (c <? 0)) eqn:E; [discriminate|].
  apply orb_false_iff in E as [E1 E2]. apply Z.ltb_ge in E1, E2.
  destruct (r * c =? _); intros [= <-]; simpl; lia.
Qed.

(** Every matrix that the dense overload returns has the requested sizes. *)
Lemma dense_result_dims heap (A B0 B : Dense.Matrix T) d :
  Dense.repdiag heap A d B0 = Ok B ->
  (Dense.rows B, Dense.cols B) = Dense.requested_dims A d.
Proof.
  unfold Dense.repdiag, Dense.requested_dims. cbv zeta. intros Hrep.
  apply bind_ok in Hrep as (B1 & Hres & Hloop).
  apply resize_inv in Hres as (_ & _ & Hr & Hc).
  apply (foldM_preserves
           (fun B => Dense.rows B = Dense.rows B1 /\ Dense.cols B = Dense.cols B1))
    in Hloop.
  - destruct Hloop as [-> ->]. now rewrite Hr, Hc.
  - intros i M M' _ Hstep [HrM HcM].
    apply block_assign_inv in Hstep as (_ & _ & _ & -> & ->). auto.
  - auto.
Qed.

Lemma coeffRef_add_inv (M M' : Sparse.DynamicSparseMatrix T) r c x :
  Sparse.coeffRef_add M r c x = Ok M' ->
  0 <= r < Z.of_nat (length (Sparse.dyn_data M)) /\
  Sparse.dyn_rows M' = Sparse.dyn_rows M /\ Sparse.dyn_cols M' = Sparse.dyn_cols M.
Proof.
  unfold Sparse.coeffRef_add.
  destruct ((0 <=? r) && (r <? Z.of_nat (length (Sparse.dyn_data M)))) eqn:E;
    [|discriminate].
  apply andb_true_iff in E. intros [= <-]. simpl. lia.
Qed.

(** Every matrix that the sparse overload returns has the requested sizes. *)
Lemma sparse_result_dims (A B0 B : Sparse.SparseMatrix T) d :
  Sparse.repdiag A d B0 = Ok B ->
  (Sparse.rows B, Sparse.cols B) = Sparse.requested_dims A d.
Proof.
  rewrite sparse_repdiag_phases. unfold Sparse.requested_dims. cbv zeta.
  rewrite !mul_of_index. intros Hrep.
  apply bind_ok in Hrep as (M0 & Hnew & Hrep).
  apply bind_ok in Hrep as (M & Hloop & Hconv).
  unfold Sparse.dyn_new in Hnew. destruct (_ <? 0); [discriminate|].
  injection Hnew as <-.
  apply (foldM_preserves
           (fun M => Sparse.dyn_rows M = Int.wrap (Sparse.rows A * d) /\
                     Sparse.dyn_cols M = Int.wrap (Sparse.cols A * d)))
    in Hloop.
  - destruct Hloop as [HrM HcM]. unfold Sparse.of_dynamic in Hconv.
    destruct (_ <? 0); [discriminate|].
    destruct (Sparse.inner_in_range M); [|discriminate].
    injection Hconv as <-. simpl. now rewrite HrM, HcM.
  - intros t M1 M2 _ Hstep [Hr1 Hc1]. unfold Sparse.insert in Hstep.
    apply coeffRef_add_inv in Hstep as (_ & -> & ->). auto.
  - auto.
Qed.

(** On sizes that fit, the sparse overload returns, whether or not [A]
    stores a coordinate twice. *)
Lemma sparse_repdiag_returns (A B0 : Sparse.SparseMatrix T) d :
  Sparse.wf A -> fits (Sparse.rows A) (Sparse.cols A) d ->
  exists B, Sparse.repdiag A d B0 = Ok B /\
            Sparse.rows B = Sparse.rows A * d /\ Sparse.cols B = Sparse.cols A * d.
Proof.
  intros HA Hfits. pose proof Hfits as (Hd & Hmd & Hnd).
  pose proof HA as (Hm & Hn & _).
  assert (Int.wrap (Sparse.rows A * d) = Sparse.rows A * d) as Hwr
    by (apply wrap_small, in_range_nonneg; nia).
  assert (Int.wrap (Sparse.cols A * d) = Sparse.cols A * d) as Hwc
    by (apply wrap_small, in_range_nonneg; nia).
  assert (exists B, Sparse.repdiag A d B0 = Ok B) as [B HB].
  { rewrite sparse_repdiag_phases, Hwr, Hwc.
    destruct (dyn_new_ok (T:=T) (Sparse.rows A * d) (Sparse.cols A * d))
      as (-> & Hok0 & _); [nia|]. simpl.
    rewrite insertions_exact by assumption.
    destruct (foldM_invariant
                (fun M => Sparse.dyn_ok M /\
                          Sparse.dyn_rows M = Sparse.rows A * d /\
                          Sparse.dyn_cols M = Sparse.cols A * d /\
                          Forall (Forall (fun e : Z * T => 0 <= e.1 < Sparse.cols A * d))
                                 (Sparse.dyn_data M))
                Sparse.insert (exact_insertions A d)
                (Sparse.mk_dyn (Sparse.rows A * d) (Sparse.cols A * d)
                               (replicate (Z.to_nat (Sparse.rows A * d)) [])))
      as (M & -> & HokM & HrM & HcM & HPM).
    - split; [assumption|]. split; [reflexivity|]. split; [reflexivity|].
      simpl. apply Forall_forall. intros v Hv.
      apply elem_of_replicate_inv in Hv as ->. constructor.
    - intros t M Ht (HokM & HrM & HcM & HPM).
      apply exact_insertions_elem in Ht as (i & k & e & Hi & Hk & He & ->).
      pose proof (column_in_range A k HA) as Hrk.
      rewrite Forall_forall in Hrk. specialize (Hrk e He). simpl in Hrk.
      destruct (coeffRef_add_spec M (i * Sparse.rows A + e.1)
                  (i * Sparse.cols A + k) e.2 HokM)
        as (M' & Hadd & Hok' & Hr' & Hc' & _ & _ & HP'); [rewrite HrM; nia|].
      exists M'. split; [exact Hadd|].
      split; [assumption|]. split; [congruence|]. split; [congruence|].
      apply (HP' (fun c => 0 <= c < Sparse.cols A * d)); [nia|assumption].
    - simpl. destruct (of_dynamic_spec M HokM) as (B & -> & _);
        [rewrite HcM; nia | now rewrite HcM | eauto]. }
  exists B. split; [assumption|].
  apply sparse_result_dims in HB. unfold Sparse.requested_dims in HB.
  cbv zeta in HB. rewrite !mul_of_index, Hwr, Hwc in HB. now injection HB.
Qed.

End Shapes.


(** * The claims *)

Ltac solve_side :=
  unfold Dense.wf, Sparse.wf, Sparse.no_duplicates, Sparse.canonical, fits,
         Int.max_int; simpl;
  repeat first [ split | lia | apply Forall_cons_2 | apply Forall_nil_2
               | apply not_elem_of_nil | apply NoDup_cons_2 | apply NoDup_nil_2
               | exact I | simpl; lia ].

(** The two scenarios of the specification. *)
Example dense_scenario :
  repdiag (Dense_RepDiag stale) A22 2 =
  Ok (dense_ints 4 4 [1; 3; 0; 0;  2; 4; 0; 0;  0; 0; 1; 3;  0; 0; 2; 4]).
Proof. vm_compute. reflexivity. Qed.

Example sparse_scenario :
  repdiag Sparse_RepDiag S33 3 =
  Ok (sparse_ints 9 9 [[(0, 5)]; [(2, 7)]; []; [(3, 5)]; [(5, 7)]; [];
                       [(6, 5)]; [(8, 7)]; []]).
Proof. vm_compute. reflexivity. Qed.

Section Claims.
Context {T : Type} `{Scalar T}.

(** C3 (as amended): when [d >= 0] and the products [m*d] and [n*d] fit in
    an [int], the call returns a matrix with exactly [m*d] rows and [n*d]
    columns, for both overloads; and [repdiag(A, 0)] is 0 by 0 for every
    [A]. *)
Theorem C3_result_dimensions
    (heap : nat -> T) (A B0 : Dense.Matrix T) (S SB0 : Sparse.SparseMatrix T) (d : Z) :
  Dense.wf A -> Dense.wf B0 -> Sparse.wf S ->
  fits (Dense.rows A) (Dense.cols A) d ->
  fits (Sparse.rows S) (Sparse.cols S) d ->
  (exists B, Dense.repdiag heap A d B0 = Ok B /\
     Dense.rows B = Dense.rows A * d /\ Dense.cols B = Dense.cols A * d) /\
  (exists B, Sparse.repdiag S d SB0 = Ok B /\
     Sparse.rows B = Sparse.rows S * d /\ Sparse.cols B = Sparse.cols S * d) /\
  (exists B, Dense.repdiag heap A 0 B0 = Ok B /\ Dense.rows B = 0 /\ Dense.cols B = 0) /\
  (exists B, Sparse.repdiag S 0 SB0 = Ok B /\ Sparse.rows B = 0 /\ Sparse.cols B = 0).
Proof.
  intros HA HB0 HS HfA HfS.
  assert (forall m n, fits m n 0) as Hf0 by (intros; unfold fits, Int.max_int; lia).
  split; [|split; [|split]].
  - destruct (dense_repdiag_spec heap A d B0 HA HB0 HfA)
      as (_ & B & _ & HB & _ & Hr & Hc & _). eauto.
  - apply sparse_repdiag_returns; assumption.
  - destruct (dense_repdiag_spec heap A 0 B0 HA HB0 (Hf0 _ _))
      as (_ & B & _ & HB & _ & Hr & Hc & _).
    exists B. split; [assumption|]. lia.
  - destruct (sparse_repdiag_returns S SB0 0 HS (Hf0 _ _)) as (B & HB & Hr & Hc).
    exists B. split; [assumption|]. lia.
Qed.

End Claims.

Lemma C3_witness :
  (exists B, Dense.repdiag stale A22 2 Dense.empty = Ok B /\
     Dense.rows B = Dense.rows A22 * 2 /\ Dense.cols B = Dense.cols A22 * 2) /\
  (exists B, Sparse.repdiag S33 2 Sparse.empty = Ok B /\
     Sparse.rows B = Sparse.rows S33 * 2 /\ Sparse.cols B = Sparse.cols S33 * 2) /\
  (exists B, Dense.repdiag stale A22 0 Dense.empty = Ok B /\ Dense.rows B = 0 /\ Dense.cols B = 0) /\
  (exists B, Sparse.repdiag S33 0 Sparse.empty = Ok B /\ Sparse.rows B = 0 /\ Sparse.cols B = 0).
Proof.
  apply (C3_result_dimensions (T:=Int.int)); solve_side.
Defined.

Section MoreClaims.
Context {T : Type} `{Scalar T}.

Lemma inner_in_range_fresh r c n :
  Sparse.inner_in_range (T:=T) (Sparse.mk_dyn r c (replicate n [])) = true.
Proof.
  unfold Sparse.inner_in_range. simpl.
  induction n as [|n IH]; simpl; [reflexivity | exact IH].
Qed.

Lemma insertions_nonpos (S : Sparse.SparseMatrix T) d :
  d <= 0 -> Sparse.insertions S d = [].
Proof.
  intros Hd. unfold Sparse.insertions. cbv zeta.
  rewrite (upto_nonpos d) by assumption. reflexivity.
Qed.

(** C5 (as amended): a negative [d] is not rejected. The replication loop
    runs no iteration: the dense overload only resizes [B] to the [int]
    products [m*d] by [n*d] and multiplies it by 0, the sparse overload
    only builds a matrix of these sizes without entries. The call returns
    exactly when both products are non-negative (an empty matrix for a
    0 by 0 [A], for instance) and fails in the matrix library otherwise. *)
Theorem C5_negative_d_is_not_rejected
    (heap : nat -> T) (A B0 : Dense.Matrix T) (S SB0 : Sparse.SparseMatrix T) (d : Z) :
  d < 0 ->
  Dense.repdiag heap A d B0 =
    (let* B := Dense.resize heap B0 (Dense.requested_dims A d).1
                                    (Dense.requested_dims A d).2 in
     Ok (Dense.array_mul_zero B)) /\
  is_ok (Dense.repdiag heap A d B0) =
    (0 <=? (Dense.requested_dims A d).1) && (0 <=? (Dense.requested_dims A d).2) /\
  Sparse.repdiag S d SB0 =
    (let* M := Sparse.dyn_new (Sparse.requested_dims S d).1
                              (Sparse.requested_dims S d).2 in
     Sparse.of_dynamic M) /\
  is_ok (Sparse.repdiag S d SB0) =
    (0 <=? (Sparse.requested_dims S d).1) && (0 <=? (Sparse.requested_dims S d).2).
Proof.
  intros Hd.
  assert (Dense.repdiag heap A d B0 =
          (let* B := Dense.resize heap B0 (Dense.requested_dims A d).1
                                          (Dense.requested_dims A d).2 in
           Ok (Dense.array_mul_zero B))) as HD.
  { unfold Dense.repdiag, Dense.requested_dims. cbv zeta. simpl.
    now rewrite (upto_nonpos d) by lia. }
  assert (Sparse.repdiag S d SB0 =
          (let* M := Sparse.dyn_new (Sparse.requested_dims S d).1
                                    (Sparse.requested_dims S d).2 in
           Sparse.of_dynamic M)) as HS.
  { rewrite sparse_repdiag_phases. unfold Sparse.requested_dims. cbv zeta. simpl.
    rewrite !mul_of_index, insertions_nonpos by lia.
    now destruct (Sparse.dyn_new _ _). }
  split; [exact HD|]. split; [|split; [exact HS|]].
  - rewrite HD. unfold Dense.resize.
    set (r := (Dense.requested_dims A d).1). set (c := (Dense.requested_dims A d).2).
    destruct (Z.ltb_spec r 0) as [Hr|Hr]; simpl.
    + symmetry. apply andb_false_iff. left. apply Z.leb_gt. lia.
    + destruct (Z.ltb_spec c 0) as [Hc|Hc]; simpl.
      * symmetry. apply andb_false_iff. right. apply Z.leb_gt. lia.
      * destruct (r * c =? _); simpl; symmetry; apply andb_true_iff;
          split; apply Z.leb_le; lia.
  - rewrite HS. unfold Sparse.dyn_new.
    set (r := (Sparse.requested_dims S d).1). set (c := (Sparse.requested_dims S d).2).
    destruct (Z.ltb_spec r 0) as [Hr|Hr]; simpl.
    + symmetry. apply andb_false_iff. left. apply Z.leb_gt. lia.
    + unfold Sparse.of_dynamic. simpl. rewrite inner_in_range_fresh.
      destruct (Z.ltb_spec c 0) as [Hc|Hc]; simpl.
      * symmetry. apply andb_false_iff. right. apply Z.leb_gt. lia.
      * symmetry. apply andb_true_iff. split; apply Z.leb_le; lia.
Qed.

(** C9: the by-value wrapper returns what the overload for the type of
    [A] leaves in a default-constructed [B]; the type of the result is the
    type of [A], dense for dense and sparse for sparse. The sparse
    overload never reads [B], so the same holds there for every [B]. *)
Theorem C9_wrapper_returns_overload_result
    (heap : nat -> T) (A : Dense.Matrix T) (S : Sparse.SparseMatrix T) (d : Z) :
  (repdiag (Dense_RepDiag heap) A d : result (Dense.Matrix T)) =
    Dense.repdiag heap A d Dense.empty /\
  (repdiag Sparse_RepDiag S d : result (Sparse.SparseMatrix T)) =
    Sparse.repdiag S d Sparse.empty /\
  (forall SB0, repdiag Sparse_RepDiag S d = Sparse.repdiag S d SB0).
Proof. repeat split. Qed.

End MoreClaims.

Lemma C5_witness :
  Dense.repdiag stale A22 (-1) Dense.empty =
    (let* B := Dense.resize stale Dense.empty (Dense.requested_dims A22 (-1)).1
                                              (Dense.requested_dims A22 (-1)).2 in
     Ok (Dense.array_mul_zero B)) /\
  is_ok (Dense.repdiag stale A22 (-1) Dense.empty) =
    (0 <=? (Dense.requested_dims A22 (-1)).1) && (0 <=? (Dense.requested_dims A22 (-1)).2) /\
  Sparse.repdiag S33 (-1) Sparse.empty =
    (let* M := Sparse.dyn_new (Sparse.requested_dims S33 (-1)).1
                              (Sparse.requested_dims S33 (-1)).2 in
     Sparse.of_dynamic M) /\
  is_ok (Sparse.repdiag S33 (-1) Sparse.empty) =
    (0 <=? (Sparse.requested_dims S33 (-1)).1) && (0 <=? (Sparse.requested_dims S33 (-1)).2).
Proof.
  apply (C5_negative_d_is_not_rejected (T:=Int.int)). lia.
Defined.


(** C2, at the failing input: with doubles, [[1,2],[3,4]], [d = 2] and an
    output parameter that holds NaN, the coefficient (2, 0), which is
    outside both diagonal blocks, is NaN after the call: [*= 0] does not
    clear it. The same happens in the by-value wrapper when the fresh
    memory holds NaN. *)
Theorem C2_nan_survives_zeroing :
  forall heap : nat -> double,
    (exists B, Dense.repdiag heap D22 2 B_nan = Ok B /\
               Dense.coeff B 2 0 = Some d_nan) /\
    (exists B, repdiag (Dense_RepDiag (fun _ => d_nan)) D22 2 = Ok B /\
               Dense.coeff B 2 0 = Some d_nan) /\
    d_nan <> zero.
Proof.
  intros heap. split; [|split].
  - eexists. split; [vm_compute; reflexivity|]. vm_compute. reflexivity.
  - eexists. split; [vm_compute; reflexivity|]. vm_compute. reflexivity.
  - discriminate.
Qed.

(** C7, at the failing input: with doubles, [[1,2],[3,4]] and [d = 2], an
    output parameter of the right size filled with NaN and one filled with
    zeros end in different states. *)
Theorem C7_final_B_depends_on_entry_state :
  forall heap : nat -> double,
    exists B1 B2,
      Dense.repdiag heap D22 2 B_nan = Ok B1 /\
      Dense.repdiag heap D22 2 B_zero = Ok B2 /\
      B1 <> B2.
Proof.
  intros heap. eexists. eexists.
  split; [vm_compute; reflexivity|]. split; [vm_compute; reflexivity|].
  discriminate.
Qed.

(** Counterexample to C3 as stated: for a 2^30 by 1 sparse matrix without
    entries and [d = 4] the result has 0 rows, not 2^32; for a 2^30 by 0
    dense matrix and [d = 4] the storage is resized to 0 by 0 and the
    first block does not fit. *)
Lemma C3_counterexample :
  ~ (exists B, Sparse.repdiag tall_sparse 4 Sparse.empty = Ok B /\
       Sparse.rows B = Sparse.rows tall_sparse * 4 /\
       Sparse.cols B = Sparse.cols tall_sparse * 4) /\
  ~ (exists B, Dense.repdiag stale tall_dense 4 Dense.empty = Ok B /\
       Dense.rows B = Dense.rows tall_dense * 4 /\
       Dense.cols B = Dense.cols tall_dense * 4).
Proof.
  split.
  - intros (B & HB & Hr & _). vm_compute in HB. injection HB as <-.
    vm_compute in Hr. discriminate.
  - intros (B & HB & _). vm_compute in HB. discriminate.
Qed.

(** Counterexample to C5 as stated: with [d = -1] and a 0 by 0 matrix both
    overloads return an empty matrix; no error is raised. *)
Lemma C5_counterexample :
  Dense.repdiag stale Dense.empty (-1) Dense.empty = Ok Dense.empty /\
  Sparse.repdiag (T:=Int.int) Sparse.empty (-1) Sparse.empty = Ok Sparse.empty.
Proof. split; vm_compute; reflexivity. Qed.

(** ** When the dense overload returns *)

Lemma foldM_err {S A : Type} (P : error -> Prop) (body : A -> S -> result S)
    (l : list A) : forall s e,
  (forall x s e, body x s = Err e -> P e) -> foldM body l s = Err e -> P e.
Proof.
  induction l as [|x l IH]; intros s e Hbody Hfold; simpl in Hfold; [discriminate|].
  destruct (body x s) as [s1|e1] eqn:E; simpl in Hfold.
  - eapply IH; eassumption.
  - injection Hfold as <-. eapply Hbody; eassumption.
Qed.

(** Blocks that all lie inside [r] rows, at offsets computed in [int],
    leave no room for an overflow of [m * d]. *)
Lemma blocks_inside_fit (m d r : Z) :
  0 <= m -> 1 <= d -> r <= Int.max_int ->
  (forall i, 0 <= i < d -> 0 <= Int.wrap (i * m) /\ Int.wrap (i * m) + m <= r) ->
  m * d <= r.
Proof.
  intros Hm Hd Hr Hblocks.
  assert (forall n : nat, Z.of_nat n < d -> (Z.of_nat n + 1) * m <= r) as Hind.
  { induction n as [|n IH]; intros Hn.
    - destruct (Hblocks 0) as [_ H0]; [lia|].
      rewrite Z.mul_0_l, wrap_small in H0 by (apply in_range_nonneg; unfold Int.max_int; lia).
      simpl. lia.
    - specialize (IH ltac:(lia)).
      destruct (Hblocks (Z.of_nat (S n))) as [_ Hstep]; [lia|].
      rewrite wrap_small in Hstep by (apply in_range_nonneg; nia).
      nia. }
  specialize (Hind (Z.to_nat (d - 1)) ltac:(lia)).
  replace (Z.of_nat (Z.to_nat (d - 1)) + 1) with d in Hind by lia. lia.
Qed.

Section DenseReturns.
Context {T : Type} `{Scalar T}.
Implicit Types A B : Dense.Matrix T.

Lemma dense_err heap A d B0 e :
  Dense.repdiag heap A d B0 = Err e -> e = AssertionFailed.
Proof.
  unfold Dense.repdiag. cbv zeta.
  destruct (Dense.resize heap B0 _ _) as [B1|e1] eqn:E1; simpl.
  - apply (foldM_err (fun e => e = AssertionFailed)).
    intros i B e'. unfold Dense.block_assign.
    destruct (Dense.block_ok _ _ _ _ _); [|congruence].
    destruct (_ && _); congruence.
  - intros [= <-]. unfold Dense.resize in E1.
    destruct (_ || _); [congruence|]. destruct (_ =? _); discriminate.
Qed.

(** If the call returns for some [d >= 1], the sizes fit in an [int]. *)
Lemma dense_success_fits heap A d B0 B :
  1 <= d <= Int.max_int ->
  Dense.repdiag heap A d B0 = Ok B ->
  0 <= Dense.rows A /\ 0 <= Dense.cols A /\
  fits (Dense.rows A) (Dense.cols A) d.
Proof.
  intros Hd Hrep. pose proof Hrep as Hdims. apply dense_result_dims in Hdims.
  unfold Dense.requested_dims in Hdims. cbv zeta in Hdims.
  unfold Dense.repdiag in Hrep. cbv zeta in Hrep.
  apply bind_ok in Hrep as (B1 & Hres & Hloop).
  apply resize_inv in Hres as (Hr0 & Hc0 & Hr1 & Hc1).
  set (m := Int.of_index (Dense.rows A)) in *.
  set (n := Int.of_index (Dense.cols A)) in *.
  assert (forall i, 0 <= i < d ->
            (0 <= Int.mul i m /\ 0 <= m /\ Int.mul i m + m <= Int.mul m d /\
             0 <= Int.mul i n /\ 0 <= n /\ Int.mul i n + n <= Int.mul n d) /\
            m = Dense.rows A /\ n = Dense.cols A) as Heach.
  { intros i Hi.
    assert (exists M1 M2,
              (Dense.rows M1 = Int.mul m d /\ Dense.cols M1 = Int.mul n d) /\
              Dense.block_assign M1 (Int.mul i m) (Int.mul i n) m n A = Ok M2)
      as (M1 & M2 & [HrM HcM] & Hstep).
    { apply (foldM_ok_each
               (fun B => Dense.rows B = Int.mul m d /\ Dense.cols B = Int.mul n d)
               (fun i B => Dense.block_assign B (Int.mul i m) (Int.mul i n) m n A)
               (upto d) (Dense.array_mul_zero B1) B).
      - intros x M M' _ Hstep [HrM HcM].
        apply block_assign_inv in Hstep as (_ & _ & _ & -> & ->). auto.
      - simpl. auto.
      - exact Hloop.
      - now apply elem_of_upto. }
    apply block_assign_inv in Hstep as (Hok & Hm & Hn & _).
    apply block_ok_spec in Hok. rewrite HrM, HcM in Hok. auto. }
  destruct (Heach 0 ltac:(lia)) as (Hok0 & Hm & Hn).
  rewrite <- Hm, <- Hn.
  pose proof (wrap_range (m * d)) as Hwr. pose proof (wrap_range (n * d)) as Hwc.
  unfold Int.in_range in Hwr, Hwc.
  split; [lia|]. split; [lia|]. unfold fits. split; [lia|].
  split.
  - etransitivity; [|apply Hwr].
    apply blocks_inside_fit; [lia | lia | apply Hwr |].
    intros i Hi. destruct (Heach i Hi) as (Hok & _).
    unfold Int.mul in Hok. lia.
  - etransitivity; [|apply Hwc].
    apply blocks_inside_fit; [lia | lia | apply Hwc |].
    intros i Hi. destruct (Heach i Hi) as (Hok & _).
    unfold Int.mul in Hok. lia.
Qed.

End DenseReturns.

(** ** Replicating a replicated matrix, coordinate by coordinate *)

(** [f1], [f2] and [f3] read the coefficients of [repdiag(A, d1)],
    [repdiag(repdiag(A, d1), d2)] and [repdiag(A, d1*d2)]; [z] is what is
    read outside of the blocks. Block [k] of the third is block
    [k mod d1] inside block [k / d1] of the second. *)
Lemma compose_pointwise {X : Type} (z : X) (m n d1 d2 : Z)
    (fA f1 f2 f3 : Z -> Z -> X) (i j : Z) :
  0 <= m -> 0 <= n -> 1 <= d1 -> 1 <= d2 ->
  (forall k r c, 0 <= k < d1 -> 0 <= r < m -> 0 <= c < n ->
     f1 (k * m + r) (k * n + c) = fA r c) ->
  (forall i j, 0 <= i < m * d1 -> 0 <= j < n * d1 ->
     ~ (exists k, 0 <= k < d1 /\ in_rect (k * m) (k * n) m n i j) -> f1 i j = z) ->
  (forall K r c, 0 <= K < d2 -> 0 <= r < m * d1 -> 0 <= c < n * d1 ->
     f2 (K * (m * d1) + r) (K * (n * d1) + c) = f1 r c) ->
  (~ (exists K, 0 <= K < d2 /\
        in_rect (K * (m * d1)) (K * (n * d1)) (m * d1) (n * d1) i j) -> f2 i j = z) ->
  (forall k r c, 0 <= k < d1 * d2 -> 0 <= r < m -> 0 <= c < n ->
     f3 (k * m + r) (k * n + c) = fA r c) ->
  (~ (exists k, 0 <= k < d1 * d2 /\ in_rect (k * m) (k * n) m n i j) -> f3 i j = z) ->
  f2 i j = f3 i j.
Proof.
  intros Hm Hn Hd1 Hd2 Hin1 Hout1 Hin2 Hout2 Hin3 Hout3.
  destruct (decide (on_blocks m n (upto (d1 * d2)) i j)) as [Hon3|Hoff3].
  - apply on_blocks_upto in Hon3 as (k & Hk & [Hki Hkj]).
    pose proof (Z.div_mod k d1 ltac:(lia)) as Hdm.
    pose proof (Z.mod_pos_bound k d1 ltac:(lia)) as Hmod.
    assert (0 <= k / d1 < d2) as HK.
    { split; [apply Z.div_pos; lia|]. apply Z.div_lt_upper_bound; nia. }
    set (K := k / d1) in *. set (k' := k mod d1) in *.
    clearbody K k'. subst k.
    set (r := i - (d1 * K + k') * m). set (c := j - (d1 * K + k') * n).
    assert (0 <= r < m /\ 0 <= c < n) as [Hr Hc] by (unfold r, c; lia).
    assert (i = (d1 * K + k') * m + r) as Hi3 by (unfold r; lia).
    assert (j = (d1 * K + k') * n + c) as Hj3 by (unfold c; lia).
    assert (i = K * (m * d1) + (k' * m + r)) as Hi2 by (rewrite Hi3 at 1; ring).
    assert (j = K * (n * d1) + (k' * n + c)) as Hj2 by (rewrite Hj3 at 1; ring).
    clearbody r c.
    rewrite Hi3, Hj3 at 2. rewrite Hin3 by lia.
    rewrite Hi2, Hj2. rewrite Hin2 by nia.
    apply Hin1; lia.
  - assert (~ (exists k, 0 <= k < d1 * d2 /\ in_rect (k * m) (k * n) m n i j)) as Hno3
      by (intros Hex; apply Hoff3; now apply on_blocks_upto).
    rewrite (Hout3 Hno3).
    destruct (decide (on_blocks (m * d1) (n * d1) (upto d2) i j)) as [Hon2|Hoff2].
    + apply on_blocks_upto in Hon2 as (K & HK & [HKi HKj]).
      set (r' := i - K * (m * d1)). set (c' := j - K * (n * d1)).
      replace i with (K * (m * d1) + r') by (unfold r'; lia).
      replace j with (K * (n * d1) + c') by (unfold c'; lia).
      rewrite Hin2 by (unfold r', c'; lia).
      apply Hout1; [unfold r'; lia | unfold c'; lia |].
      intros (k' & Hk' & [Hk'i Hk'j]). apply Hno3.
      exists (K * d1 + k'). unfold in_rect. subst r' c'. nia.
    + apply Hout2. intros Hex. apply Hoff2. now apply on_blocks_upto.
Qed.

(** ** Replicating a replicated dense matrix *)

Section DenseCompose.
Context {T : Type} `{Scalar T}.
Hypothesis mul_zero_r : forall x : T, mul x zero = zero.
Implicit Types A B : Dense.Matrix T.

Lemma dense_compose_fits heap1 heap2 heap3 A d1 d2 B01 B02 B03 :
  Dense.wf A -> Dense.wf B01 -> Dense.wf B02 -> Dense.wf B03 ->
  1 <= d1 -> 1 <= d2 ->
  fits (Dense.rows A) (Dense.cols A) (d1 * d2) ->
  exists B1 B2,
    Dense.repdiag heap1 A d1 B01 = Ok B1 /\
    Dense.repdiag heap2 B1 d2 B02 = Ok B2 /\
    Dense.repdiag heap3 A (d1 * d2) B03 = Ok B2.
Proof.
  intros HA HB01 HB02 HB03 Hd1 Hd2 Hfits.
  pose proof HA as (Hm & Hn & _). pose proof Hfits as (Hd & Hmd & Hnd).
  assert (fits (Dense.rows A) (Dense.cols A) d1) as Hfits1
    by (unfold fits, Int.max_int in *; nia).
  destruct (dense_repdiag_spec heap1 A d1 B01 HA HB01 Hfits1)
    as (_ & B1 & _ & HB1 & Hwf1 & Hr1 & Hc1 & Hin1 & _).
  assert (fits (Dense.rows B1) (Dense.cols B1) d2) as Hfits2
    by (rewrite Hr1, Hc1; unfold fits, Int.max_int in *; nia).
  destruct (dense_repdiag_spec heap2 B1 d2 B02 Hwf1 HB02 Hfits2)
    as (_ & B2 & _ & HB2 & Hwf2 & Hr2 & Hc2 & Hin2 & _).
  destruct (dense_repdiag_spec heap3 A (d1 * d2) B03 HA HB03 Hfits)
    as (_ & B3 & _ & HB3 & Hwf3 & Hr3 & Hc3 & Hin3 & _).
  exists B1, B2. split; [assumption|]. split; [assumption|].
  rewrite HB3. f_equal. symmetry.
  apply matrix_ext; [assumption | assumption | nia | nia |].
  intros i j Hi Hj. rewrite Hr1, Hc1 in Hin2.
  apply (compose_pointwise (Some zero) (Dense.rows A) (Dense.cols A) d1 d2
           (Dense.coeff A) (Dense.coeff B1)); auto.
  - intros i' j' Hi' Hj'.
    apply (dense_off_block_zero mul_zero_r heap1 A d1 B01); try assumption; lia.
  - intros Hno.
    apply (dense_off_block_zero mul_zero_r heap2 B1 d2 B02); try assumption; try lia.
    now rewrite Hr1, Hc1.
  - intros Hno.
    apply (dense_off_block_zero mul_zero_r heap3 A (d1 * d2) B03);
      try assumption; nia.
Qed.

(** The composition law, failures included: either both sides return the
    same matrix or both fail. *)
Lemma dense_compose heap1 heap2 heap3 A d1 d2 B01 B02 B03 :
  Dense.wf A -> Dense.wf B01 -> Dense.wf B02 -> Dense.wf B03 ->
  1 <= d1 -> 1 <= d2 -> d1 * d2 <= Int.max_int ->
  (let* B1 := Dense.repdiag heap1 A d1 B01 in Dense.repdiag heap2 B1 d2 B02) =
  Dense.repdiag heap3 A (d1 * d2) B03.
Proof.
  intros HA HB01 HB02 HB03 Hd1 Hd2 Hd.
  assert (fits (Dense.rows A) (Dense.cols A) (d1 * d2) ->
          (let* B1 := Dense.repdiag heap1 A d1 B01 in Dense.repdiag heap2 B1 d2 B02) =
          Dense.repdiag heap3 A (d1 * d2) B03) as Hgood.
  { intros Hfits.
    destruct (dense_compose_fits heap1 heap2 heap3 A d1 d2 B01 B02 B03)
      as (B1 & B2 & -> & HB2 & ->); assumption. }
  destruct (Dense.repdiag heap3 A (d1 * d2) B03) as [B3|e3] eqn:E3.
  - apply dense_success_fits in E3 as (_ & _ & Hfits); [|nia]. now apply Hgood.
  - apply dense_err in E3 as ->.
    destruct (Dense.repdiag heap1 A d1 B01) as [B1|e1] eqn:E1; simpl.
    + destruct (Dense.repdiag heap2 B1 d2 B02) as [B2|e2] eqn:E2.
      * exfalso.
        pose proof E1 as Hdims1. apply dense_result_dims in Hdims1.
        destruct (dense_success_fits heap1 A d1 B01 B1 ltac:(nia) E1)
          as (Hm & Hn & Hfits1).
        unfold Dense.requested_dims in Hdims1. cbv zeta in Hdims1.
        rewrite !mul_of_index in Hdims1.
        destruct Hfits1 as (_ & Hmd1 & Hnd1).
        rewrite !wrap_small in Hdims1 by (apply in_range_nonneg; nia).
        injection Hdims1 as Hr1 Hc1.
        destruct (dense_success_fits heap2 B1 d2 B02 B2 ltac:(nia) E2)
          as (_ & _ & (_ & Hmd2 & Hnd2)).
        rewrite Hr1 in Hmd2. rewrite Hc1 in Hnd2.
        assert (fits (Dense.rows A) (Dense.cols A) (d1 * d2)) as Hfits
          by (unfold fits; nia).
        specialize (Hgood Hfits). simpl in Hgood. congruence.
      * now apply dense_err in E2 as ->.
    + now apply dense_err in E1 as ->.
Qed.

End DenseCompose.

(** ** When the sparse overload returns *)

Lemma wrap_high (z : Z) :
  Int.max_int < z < Int.modulus -> Int.wrap z = z - Int.modulus.
Proof.
  unfold Int.wrap, Int.max_int, Int.modulus. intros Hz.
  replace (z + 2147483648) with (z + 2147483648 - 4294967296 + 1 * 4294967296) by lia.
  rewrite Z_mod_plus_full, Z.mod_small; lia.
Qed.

(** Insertions whose rows, computed in [int], all lie inside [R] rows
    leave no room for an overflow of [m * d]. *)
Lemma entries_inside_fit (m d r0 : Z) :
  0 <= r0 < m -> m <= Int.max_int -> 1 <= d ->
  (forall i, 0 <= i < d -> 0 <= Int.wrap (i * m + r0) < Int.wrap (m * d)) ->
  m * d <= Int.max_int.
Proof.
  intros Hr0 Hm Hd Hall.
  pose proof (wrap_range (m * d)) as HR. unfold Int.in_range in HR.
  set (R := Int.wrap (m * d)) in *.
  assert (forall n : nat, Z.of_nat n < d -> Z.of_nat n * m + r0 < R) as Hind.
  { induction n as [|n IH]; intros Hn.
    - specialize (Hall 0 ltac:(lia)). rewrite Z.mul_0_l, Z.add_0_l in Hall.
      rewrite wrap_small in Hall by (apply in_range_nonneg; lia). simpl. lia.
    - specialize (IH ltac:(lia)). specialize (Hall (Z.of_nat (S n)) ltac:(lia)).
      destruct (decide (Z.of_nat (S n) * m + r0 <= Int.max_int)) as [Hle|Hgt].
      + rewrite wrap_small in Hall by (apply in_range_nonneg; nia). lia.
      + rewrite wrap_high in Hall; unfold Int.max_int, Int.modulus in *; nia. }
  specialize (Hind (Z.to_nat (d - 1)) ltac:(lia)).
  replace (Z.of_nat (Z.to_nat (d - 1))) with (d - 1) in Hind by lia.
  destruct (wrap_congr (m * d)) as [q Hq]. fold R in Hq.
  unfold Int.modulus, Int.max_int in *.
  assert (q = 0) by nia. subst q. lia.
Qed.

Lemma wrap_mul_assoc (x d1 d2 : Z) :
  Int.wrap (Int.wrap (x * d1) * d2) = Int.wrap (x * (d1 * d2)).
Proof.
  destruct (wrap_congr (x * d1)) as [q ->].
  replace ((x * d1 + Int.modulus * q) * d2)
    with (x * (d1 * d2) + Int.modulus * (q * d2)) by ring.
  apply wrap_add_modulus.
Qed.

Section SparseReturns.
Context {T : Type} `{Scalar T}.
Implicit Types A B : Sparse.SparseMatrix T.

Lemma dyn_entry_stored (M : Sparse.DynamicSparseMatrix T) r c :
  is_Some (Sparse.dyn_entry M r c) ->
  exists v, Sparse.dyn_data M !! Z.to_nat r = Some v /\ c ∈ v.*1.
Proof.
  unfold Sparse.dyn_entry. intros [y Hy].
  destruct (0 <=? r); [|discriminate].
  destruct (Sparse.dyn_data M !! Z.to_nat r) as [v|]; [|discriminate].
  exists v. split; [reflexivity|].
  apply vlookup_Some_elem in Hy. apply list_elem_of_fmap. exists (c, y). auto.
Qed.

(** After a run of insertions that succeeds, every inserted coordinate
    was a row of the accumulator and is stored. *)
Lemma insert_all_stored (ins : list (Z * Z * T)) :
  forall M M' : Sparse.DynamicSparseMatrix T,
  Sparse.dyn_ok M -> foldM Sparse.insert ins M = Ok M' ->
  Sparse.dyn_ok M' /\
  Sparse.dyn_rows M' = Sparse.dyn_rows M /\ Sparse.dyn_cols M' = Sparse.dyn_cols M /\
  (forall r c, is_Some (Sparse.dyn_entry M r c) -> is_Some (Sparse.dyn_entry M' r c)) /\
  (forall t, t ∈ ins ->
     0 <= t.1.1 < Sparse.dyn_rows M /\ is_Some (Sparse.dyn_entry M' t.1.1 t.1.2)).
Proof.
  induction ins as [|[[r c] x] ins IH]; intros M M' Hok Hfold; simpl in Hfold.
  - injection Hfold as <-.
    split; [assumption|]. split; [reflexivity|]. split; [reflexivity|].
    split; [auto|]. intros t Ht. inversion Ht.
  - apply bind_ok in Hfold as (M1 & Hstep & Hrest). unfold Sparse.insert in Hstep.
    simpl in Hstep. pose proof Hstep as Hinv. apply coeffRef_add_inv in Hinv as (Hr & _).
    pose proof Hok as (Hrows & Hlen & _).
    destruct (coeffRef_add_spec M r c x Hok ltac:(lia))
      as (M1' & Hadd & Hok1 & Hr1 & Hc1 & Hent1 & _).
    rewrite Hstep in Hadd. injection Hadd as <-.
    destruct (IH M1 M' Hok1 Hrest) as (Hok' & Hr' & Hc' & Hkeep & Hins).
    split; [assumption|]. split; [congruence|]. split; [congruence|]. split.
    + intros r' c' Hsome. apply Hkeep. rewrite Hent1.
      case_decide; [eauto|assumption].
    + intros t Ht. apply elem_of_cons in Ht as [->|Ht]; simpl.
      * split; [lia|]. apply Hkeep. rewrite Hent1.
        rewrite decide_True by auto. eauto.
      * rewrite <- Hr1. now apply Hins.
Qed.

(** If the call returns for some [d >= 1] and [A] stores at least one
    entry, the sizes fit in an [int]. *)
Lemma sparse_success_fits A d B0 B k0 e0 :
  Sparse.wf A -> 1 <= d <= Int.max_int ->
  0 <= k0 < Sparse.cols A -> e0 ∈ column A k0 ->
  Sparse.repdiag A d B0 = Ok B ->
  fits (Sparse.rows A) (Sparse.cols A) d.
Proof.
  intros HA Hd Hk0 He0 Hrep. pose proof HA as (Hm & Hn & _).
  pose proof (column_in_range A k0 HA) as Hr0.
  rewrite Forall_forall in Hr0. specialize (Hr0 e0 He0). simpl in Hr0.
  rewrite sparse_repdiag_phases in Hrep.
  apply bind_ok in Hrep as (M0 & Hnew & Hrep).
  apply bind_ok in Hrep as (M & Hloop & Hconv).
  set (R := Int.wrap (Sparse.rows A * d)) in *.
  set (C := Int.wrap (Sparse.cols A * d)) in *.
  assert (0 <= R) as HR.
  { unfold Sparse.dyn_new in Hnew. destruct (Z.ltb_spec R 0); [discriminate|lia]. }
  destruct (dyn_new_ok (T:=T) R C HR) as (Hnew' & Hok0 & _).
  rewrite Hnew in Hnew'. injection Hnew' as ->.
  destruct (insert_all_stored _ _ _ Hok0 Hloop) as (HokM & HrM & HcM & _ & Hins).
  simpl in HrM, HcM.
  assert (Forall (Forall (fun e : Z * T => 0 <= e.1 < C)) (Sparse.dyn_data M)) as Hkeys.
  { unfold Sparse.of_dynamic in Hconv.
    destruct (Sparse.dyn_cols M <? 0); [discriminate|].
    destruct (Sparse.inner_in_range M) eqn:E; [|discriminate].
    apply inner_in_range_spec in E. now rewrite HcM in E. }
  assert (forall i, 0 <= i < d ->
            0 <= Int.wrap (i * Sparse.rows A + e0.1) < R /\
            0 <= Int.wrap (i * Sparse.cols A + k0) < C) as Heach.
  { intros i Hi.
    destruct (Hins (Int.add (Int.mul i (Int.of_index (Sparse.rows A))) e0.1,
                    Int.add (Int.mul i (Int.of_index (Sparse.cols A))) k0, e0.2))
      as [Hrow Hstored].
    { unfold Sparse.insertions. cbv zeta.
      apply list_elem_of_bind. exists i. split; [|now apply elem_of_upto].
      apply list_elem_of_bind. exists k0.
      split; [|now apply elem_of_upto].
      apply list_elem_of_fmap. exists (e0.1, k0, e0.2). split; [reflexivity|].
      unfold Sparse.InnerIterator. apply list_elem_of_fmap. exists e0. auto. }
    simpl in Hrow, Hstored.
    unfold Int.of_index in Hrow, Hstored.
    rewrite (wrap_small (Sparse.rows A)) in Hrow, Hstored by now apply in_range_nonneg.
    rewrite (wrap_small (Sparse.cols A)) in Hstored by now apply in_range_nonneg.
    rewrite add_mul_wrap in Hrow. rewrite !add_mul_wrap in Hstored.
    split; [exact Hrow|].
    apply dyn_entry_stored in Hstored as (v & Hv & Hin).
    apply list_elem_of_fmap in Hin as (e & He & Hin).
    pose proof (Forall_lookup_1 _ _ _ _ Hkeys Hv) as Hv'.
    rewrite Forall_forall in Hv'. specialize (Hv' e Hin). simpl in Hv'.
    now rewrite He. }
  unfold fits. split; [lia|]. split.
  - apply (entries_inside_fit _ _ e0.1); [lia | lia | lia |].
    intros i Hi. now apply Heach.
  - apply (entries_inside_fit _ _ k0); [lia | lia | lia |].
    intros i Hi. now apply Heach.
Qed.

End SparseReturns.

(** ** Replicating a replicated sparse matrix *)

Section SparseCompose.
Context {T : Type} `{Scalar T}.
Hypothesis add_zero_l : forall x : T, add zero x = x.
Implicit Types A B : Sparse.SparseMatrix T.

Lemma canonical_no_duplicates A : Sparse.canonical A -> Sparse.no_duplicates A.
Proof.
  intros Hcan. eapply Forall_impl; [exact Hcan|]. intros v. apply vsorted_NoDup.
Qed.

Lemma sparse_compose_fits A d1 d2 B01 B02 B03 :
  Sparse.wf A -> Sparse.no_duplicates A -> 1 <= d1 -> 1 <= d2 ->
  fits (Sparse.rows A) (Sparse.cols A) (d1 * d2) ->
  exists B1 B2,
    Sparse.repdiag A d1 B01 = Ok B1 /\
    Sparse.repdiag B1 d2 B02 = Ok B2 /\
    Sparse.repdiag A (d1 * d2) B03 = Ok B2.
Proof.
  intros HA Hnd Hd1 Hd2 Hfits.
  pose proof HA as (Hm & Hn & _). pose proof Hfits as (Hd & Hmd & Hnd').
  assert (fits (Sparse.rows A) (Sparse.cols A) d1) as Hfits1
    by (unfold fits, Int.max_int in *; nia).
  destruct (sparse_repdiag_entries add_zero_l A d1 B01 HA Hnd Hfits1)
    as (B1 & HB1 & Hr1 & Hc1 & Hwf1 & Hcan1 & Hin1 & Hout1).
  assert (fits (Sparse.rows B1) (Sparse.cols B1) d2) as Hfits2
    by (rewrite Hr1, Hc1; unfold fits, Int.max_int in *; nia).
  destruct (sparse_repdiag_entries add_zero_l B1 d2 B02 Hwf1
              (canonical_no_duplicates B1 Hcan1) Hfits2)
    as (B2 & HB2 & Hr2 & Hc2 & Hwf2 & Hcan2 & Hin2 & Hout2).
  destruct (sparse_repdiag_entries add_zero_l A (d1 * d2) B03 HA Hnd Hfits)
    as (B3 & HB3 & Hr3 & Hc3 & Hwf3 & Hcan3 & Hin3 & Hout3).
  exists B1, B2. split; [assumption|]. split; [assumption|].
  rewrite HB3. f_equal. symmetry.
  apply sparse_ext; try assumption; [nia | nia |].
  intros i j. rewrite Hr1, Hc1 in Hin2, Hout2.
  apply (compose_pointwise None (Sparse.rows A) (Sparse.cols A) d1 d2
           (Sparse.entry A) (Sparse.entry B1)); auto; lia.
Qed.

Lemma bind_nil {X Y : Type} (l : list X) : l ≫= (fun _ => ([] : list Y)) = [].
Proof. induction l as [|x l IH]; [reflexivity | exact IH]. Qed.

Lemma concat_nil_columns (l : list (list (Z * T))) k :
  concat l = [] -> default [] (l !! k) = [].
Proof.
  revert k. induction l as [|v l IH]; intros k Hnil; [reflexivity|].
  simpl in Hnil. apply app_eq_nil in Hnil as [-> Hnil].
  destruct k as [|k]; [reflexivity|]. simpl. now apply IH.
Qed.

Lemma insertions_no_entries A d :
  concat (Sparse.outer A) = [] -> Sparse.insertions A d = [].
Proof.
  intros Hnil. unfold Sparse.insertions. cbv zeta.
  rewrite <- (bind_nil (upto d)) at 1. apply list_bind_ext; [|reflexivity].
  intros i. rewrite <- (bind_nil (upto (Sparse.outerSize A))) at 1.
  apply list_bind_ext; [|reflexivity].
  intros k. unfold Sparse.InnerIterator. now rewrite concat_nil_columns.
Qed.

Lemma fill_columns_empty j n (columns : list (list (Z * T))) :
  Sparse.fill_columns j (replicate n []) columns = columns.
Proof.
  revert j. induction n as [|n IH]; intros j; simpl; [reflexivity | apply IH].
Qed.

(** A matrix without entries is replicated to a matrix without entries,
    of the requested sizes. *)
Lemma sparse_repdiag_no_entries A d B0 B :
  concat (Sparse.outer A) = [] -> Sparse.repdiag A d B0 = Ok B ->
  B = Sparse.mk (Int.wrap (Sparse.rows A * d)) (Int.wrap (Sparse.cols A * d))
        (replicate (Z.to_nat (Int.wrap (Sparse.cols A * d))) []).
Proof.
  intros Hnil. rewrite sparse_repdiag_phases, insertions_no_entries by assumption.
  unfold Sparse.dyn_new. destruct (_ <? 0); [discriminate|]. simpl.
  unfold Sparse.of_dynamic. simpl. destruct (_ <? 0); [discriminate|].
  rewrite inner_in_range_fresh, fill_columns_empty. now intros [= <-].
Qed.

(** Whenever the three calls return, the two results are equal. *)
Lemma sparse_compose A d1 d2 B01 B02 B03 B1 B2 B3 :
  Sparse.wf A -> Sparse.no_duplicates A ->
  1 <= d1 -> 1 <= d2 -> d1 * d2 <= Int.max_int ->
  Sparse.repdiag A d1 B01 = Ok B1 ->
  Sparse.repdiag B1 d2 B02 = Ok B2 ->
  Sparse.repdiag A (d1 * d2) B03 = Ok B3 ->
  B2 = B3.
Proof.
  intros HA Hnd Hd1 Hd2 Hd HB1 HB2 HB3.
  destruct (concat (Sparse.outer A)) as [|e0 rest] eqn:Hentries.
  - apply sparse_repdiag_no_entries in HB1, HB3; try assumption.
    apply sparse_repdiag_no_entries in HB2.
    + subst B1 B2 B3. simpl. now rewrite !wrap_mul_assoc.
    + subst B1. simpl. apply concat_replicate_nil.
  - assert (exists k v, Sparse.outer A !! k = Some v /\ e0 ∈ v) as (k & v & Hk & He0).
    { assert (e0 ∈ concat (Sparse.outer A)) as Hin by (rewrite Hentries; left).
      apply list_elem_of_In, in_concat in Hin as (v & Hv & Hin).
      apply list_elem_of_In, list_elem_of_lookup in Hv as (k & Hk).
      exists k, v. split; [assumption|]. now apply list_elem_of_In. }
    pose proof HA as (_ & _ & Hlen & _).
    assert (fits (Sparse.rows A) (Sparse.cols A) (d1 * d2)) as Hfits.
    { apply (sparse_success_fits A (d1 * d2) B03 B3 (Z.of_nat k) e0);
        try assumption; [nia | |].
      - apply lookup_lt_Some in Hk. lia.
      - unfold column. now rewrite Nat2Z.id, Hk. }
    destruct (sparse_compose_fits A d1 d2 B01 B02 B03 HA Hnd Hd1 Hd2 Hfits)
      as (B1' & B2' & HB1' & HB2' & HB3').
    congruence.
Qed.

End SparseCompose.

Section Composition.
Context {T : Type} `{Scalar T}.

Lemma wf_dense_empty : Dense.wf (T:=T) Dense.empty.
Proof. unfold Dense.wf. simpl. lia. Qed.

(** X21 (wrapper over both overloads): where zero is exact, replication
    composes multiplicatively. For an element type in which [x * 0 = 0]
    and [0 + x = x], every matrix [A] and all [d1, d2 >= 1] whose product
    is an [int], [repdiag(repdiag(A, d1), d2)] and [repdiag(A, d1*d2)]
    are the same: in the dense case both calls return the same matrix or
    both fail; in the sparse case (no coordinate stored twice) the
    results are equal whenever the calls return; and all the calls return
    when [m*d1*d2] and [n*d1*d2] fit in an [int]. *)
Theorem replication_composes_when_zero_is_exact
    (mul_zero_r : forall x : T, mul x zero = zero)
    (add_zero_l : forall x : T, add zero x = x)
    (heap : nat -> T) (A : Dense.Matrix T) (S : Sparse.SparseMatrix T) (d1 d2 : Z) :
  Dense.wf A -> Sparse.wf S -> Sparse.no_duplicates S ->
  1 <= d1 -> 1 <= d2 -> d1 * d2 <= Int.max_int ->
  (let* B1 := repdiag (Dense_RepDiag heap) A d1 in repdiag (Dense_RepDiag heap) B1 d2) =
    repdiag (Dense_RepDiag heap) A (d1 * d2) /\
  (forall B1 B2 B3,
     repdiag Sparse_RepDiag S d1 = Ok B1 ->
     repdiag Sparse_RepDiag B1 d2 = Ok B2 ->
     repdiag Sparse_RepDiag S (d1 * d2) = Ok B3 ->
     B2 = B3) /\
  (fits (Dense.rows A) (Dense.cols A) (d1 * d2) ->
   exists B1 B2,
     repdiag (Dense_RepDiag heap) A d1 = Ok B1 /\
     repdiag (Dense_RepDiag heap) B1 d2 = Ok B2 /\
     repdiag (Dense_RepDiag heap) A (d1 * d2) = Ok B2) /\
  (fits (Sparse.rows S) (Sparse.cols S) (d1 * d2) ->
   exists B1 B2,
     repdiag Sparse_RepDiag S d1 = Ok B1 /\
     repdiag Sparse_RepDiag B1 d2 = Ok B2 /\
     repdiag Sparse_RepDiag S (d1 * d2) = Ok B2).
Proof.
  intros HA HS Hnd Hd1 Hd2 Hd. unfold repdiag. simpl.
  split; [|split; [|split]].
  - apply dense_compose; auto using wf_dense_empty.
  - intros B1 B2 B3. now apply sparse_compose.
  - intros Hfits. apply dense_compose_fits; auto using wf_dense_empty.
  - intros Hfits. now apply sparse_compose_fits.
Qed.

End Composition.

Lemma replication_composes_when_zero_is_exact_witness :
  (let* B1 := repdiag (Dense_RepDiag stale) A22 2 in repdiag (Dense_RepDiag stale) B1 2) =
    repdiag (Dense_RepDiag stale) A22 (2 * 2) /\
  (forall B1 B2 B3,
     repdiag Sparse_RepDiag S33 2 = Ok B1 ->
     repdiag Sparse_RepDiag B1 2 = Ok B2 ->
     repdiag Sparse_RepDiag S33 (2 * 2) = Ok B3 ->
     B2 = B3) /\
  (fits (Dense.rows A22) (Dense.cols A22) (2 * 2) ->
   exists B1 B2,
     repdiag (Dense_RepDiag stale) A22 2 = Ok B1 /\
     repdiag (Dense_RepDiag stale) B1 2 = Ok B2 /\
     repdiag (Dense_RepDiag stale) A22 (2 * 2) = Ok B2) /\
  (fits (Sparse.rows S33) (Sparse.cols S33) (2 * 2) ->
   exists B1 B2,
     repdiag Sparse_RepDiag S33 2 = Ok B1 /\
     repdiag Sparse_RepDiag B1 2 = Ok B2 /\
     repdiag Sparse_RepDiag S33 (2 * 2) = Ok B2).
Proof.
  apply (replication_composes_when_zero_is_exact (T:=Int.int));
    [exact int_mul_zero_r | exact int_add_zero_l | solve_side ..].
Defined.


(** * Further properties of the code

    Properties of the three functions beyond the claims: the exact
    domain on which a call returns, the invariants of the results, the
    behaviour on inputs that store a coordinate twice, on doubles, and
    on a call whose two arguments are one object. *)

Section DenseFurther.
Context {T : Type} `{Scalar T}.

Lemma wf_copy_block (A B : Dense.Matrix T) sr sc :
  Dense.wf B -> Dense.wf (Dense.copy_block A sr sc B).
Proof.
  unfold Dense.copy_block. generalize (upto (Dense.cols A)) as cs.
  intros cs. revert B. induction cs as [|c cs IH]; intros B HB; [exact HB|].
  simpl. apply IH. unfold Dense.copy_col.
  generalize (upto (Dense.rows A)) as rs. intros rs. revert B HB.
  induction rs as [|r rs IHr]; intros B HB; [exact HB|].
  simpl. apply IHr. unfold Dense.copy_coeff.
  destruct (Dense.data A !! Dense.index A r c); [|exact HB].
  now apply wf_set_coeff.
Qed.

Lemma dense_result_wf heap (A B0 B : Dense.Matrix T) d :
  Dense.wf B0 -> Dense.repdiag heap A d B0 = Ok B -> Dense.wf B.
Proof.
  intros HB0 Hrep. unfold Dense.repdiag in Hrep. cbv zeta in Hrep.
  apply bind_ok in Hrep as (B1 & Hres & Hloop).
  pose proof (resize_inv _ _ _ _ _ Hres) as (Hr & Hc & _ & _).
  destruct (resize_ok heap B0 _ _ HB0 Hr Hc) as (B1' & Hres' & HB1 & _).
  rewrite Hres in Hres'. injection Hres' as <-.
  apply (foldM_preserves Dense.wf) in Hloop; [exact Hloop| |].
  - intros i M M' _ Hstep HM. unfold Dense.block_assign in Hstep.
    destruct (Dense.block_ok _ _ _ _ _); [|discriminate].
    destruct (_ && _); [|discriminate].
    injection Hstep as <-. now apply wf_copy_block.
  - now apply wf_array_mul_zero.
Qed.

(** X1 (dense overload, [B.resize], [B.array() *= 0] and the block loop):
    the exit state of [B] keeps the storage invariant of a dense matrix,
    one coefficient per position of its [rows] by [cols] shape, whenever
    the call returns, whatever the sizes and the element type. *)
Theorem dense_result_is_well_formed
    (heap : nat -> T) (A B0 B : Dense.Matrix T) (d : Z) :
  Dense.wf B0 -> Dense.repdiag heap A d B0 = Ok B ->
  Dense.wf B /\
  (forall i j, 0 <= i < Dense.rows B -> 0 <= j < Dense.cols B ->
     is_Some (Dense.coeff B i j)).
Proof.
  intros HB0 Hrep. pose proof (dense_result_wf _ _ _ _ _ HB0 Hrep) as HB.
  split; [exact HB|]. intros i j Hi Hj. now apply coeff_is_Some.
Qed.

(** X2 (dense overload): no result of a wrapped size. For [0 <= d],
    whenever the call returns, the products [m*d] and [n*d] fit in an
    [int] and the result has exactly [m*d] rows and [n*d] columns: an
    overflow of the sizes ends the call without a result. *)
Theorem dense_result_has_exact_size
    (heap : nat -> T) (A B0 B : Dense.Matrix T) (d : Z) :
  0 <= d <= Int.max_int ->
  Dense.repdiag heap A d B0 = Ok B ->
  fits (Dense.rows A) (Dense.cols A) d /\
  Dense.rows B = Dense.rows A * d /\ Dense.cols B = Dense.cols A * d.
Proof.
  intros Hd Hrep.
  assert (fits (Dense.rows A) (Dense.cols A) d) as Hfits.
  { destruct (decide (d = 0)) as [->|Hd0].
    - unfold fits, Int.max_int. lia.
    - apply (dense_success_fits heap A d B0 B); [lia|exact Hrep]. }
  split; [exact Hfits|].
  assert (0 <= Dense.rows A * d /\ 0 <= Dense.cols A * d) as [Hr0 Hc0].
  { destruct (decide (d = 0)) as [->|Hd0]; [lia|].
    destruct (dense_success_fits heap A d B0 B) as (Hm & Hn & _);
      [lia|exact Hrep|nia]. }
  apply dense_result_dims in Hrep. unfold Dense.requested_dims in Hrep.
  cbv zeta in Hrep. rewrite !mul_of_index in Hrep.
  destruct Hfits as (_ & Hmd & Hnd).
  rewrite !wrap_small in Hrep by (apply in_range_nonneg; lia).
  now injection Hrep.
Qed.

(** X3 (dense overload, [B.resize] and [B.array() *= 0]): for every
    element type, a coefficient of the result outside the [d] diagonal
    blocks is [x * 0], where [x] is what the resized [B] held there: the
    old storage of [B] when the number of coefficients did not change,
    uninitialised memory otherwise. *)
Theorem dense_outside_blocks_is_old_times_zero
    (heap : nat -> T) (A B0 : Dense.Matrix T) (d : Z) :
  Dense.wf A -> Dense.wf B0 -> fits (Dense.rows A) (Dense.cols A) d ->
  exists B1 B,
    Dense.resize heap B0 (Dense.rows A * d) (Dense.cols A * d) = Ok B1 /\
    Dense.data B1 =
      (if Dense.rows A * d * (Dense.cols A * d) =? Dense.rows B0 * Dense.cols B0
       then Dense.data B0
       else heap <$> seq 0 (Z.to_nat (Dense.rows A * d * (Dense.cols A * d)))) /\
    Dense.repdiag heap A d B0 = Ok B /\
    forall i j,
      ~ (exists k, 0 <= k < d /\
           in_rect (k * Dense.rows A) (k * Dense.cols A)
                   (Dense.rows A) (Dense.cols A) i j) ->
      Dense.coeff B i j = (fun x => mul x zero) <$> Dense.coeff B1 i j.
Proof.
  intros HA HB0 Hfits.
  destruct (dense_repdiag_spec heap A d B0 HA HB0 Hfits)
    as (B1 & B & Hres & Hrep & _ & _ & _ & _ & Hoff).
  exists B1, B. split; [exact Hres|]. split; [|split; [exact Hrep|exact Hoff]].
  unfold Dense.resize in Hres. destruct (_ || _); [discriminate|].
  destruct (_ =? _); now injection Hres as <-.
Qed.

(** X4 (dense overload and wrapper): when [x * 0 = 0] for every element
    [x], the outcome of the call is the same for every entry state of the
    output parameter and every content of freshly allocated memory; in
    particular the by-value wrapper does not depend on the memory its
    local [B] is given. *)
Theorem dense_result_ignores_old_contents
    (mul_zero_r : forall x : T, mul x zero = zero)
    (heap heap' : nat -> T) (A B0 B0' : Dense.Matrix T) (d : Z) :
  Dense.wf B0 -> Dense.wf B0' ->
  Dense.repdiag heap A d B0 = Dense.repdiag heap' A d B0' /\
  repdiag (Dense_RepDiag heap) A d = repdiag (Dense_RepDiag heap') A d.
Proof.
  intros HB0 HB0'. split.
  - now apply dense_repdiag_independent.
  - unfold repdiag. simpl. apply dense_repdiag_independent;
      [exact mul_zero_r| |]; unfold Dense.wf; simpl; lia.
Qed.

End DenseFurther.

(** ** One object as input and output parameter *)

Section DenseAliased.
Context {T : Type} `{Scalar T}.

Lemma copy_coeff_self_id (B : Dense.Matrix T) c r :
  Dense.copy_coeff B 0 0 c r B = B.
Proof.
  unfold Dense.copy_coeff.
  destruct (Dense.data B !! Dense.index B r c) as [x|] eqn:Hx; [|reflexivity].
  unfold Dense.set_coeff. rewrite !Z.add_0_l, list_insert_id by exact Hx.
  now destruct B.
Qed.

Lemma copy_block_self_id (B : Dense.Matrix T) : Dense.copy_block_self 0 0 B = B.
Proof.
  unfold Dense.copy_block_self. generalize (upto (Dense.cols B)) as cs.
  induction cs as [|c cs IH]; [reflexivity|]. simpl.
  assert (forall rs, foldl (fun B r => Dense.copy_coeff B 0 0 c r B) B rs = B) as ->;
    [|exact IH].
  induction rs as [|r rs IHr]; [reflexivity|]. simpl.
  now rewrite copy_coeff_self_id.
Qed.

(** A block of [B] that has the size of [B] is [B] itself. *)
Lemma block_assign_self_inv (B B' : Dense.Matrix T) sr sc br bc :
  Dense.block_assign_self B sr sc br bc = Ok B' ->
  B' = B /\ sr = 0 /\ sc = 0 /\ br = Dense.rows B /\ bc = Dense.cols B.
Proof.
  unfold Dense.block_assign_self.
  destruct (Dense.block_ok B sr sc br bc) eqn:Hok; [|discriminate].
  destruct ((br =? Dense.rows B) && (bc =? Dense.cols B)) eqn:Hsize; [|discriminate].
  apply block_ok_spec in Hok. apply andb_true_iff in Hsize as [Hr Hc].
  apply Z.eqb_eq in Hr, Hc.
  assert (sr = 0) as -> by lia. assert (sc = 0) as -> by lia.
  intros [= <-]. now rewrite copy_block_self_id.
Qed.

Lemma block_assign_self_err (B : Dense.Matrix T) sr sc br bc e :
  Dense.block_assign_self B sr sc br bc = Err e -> e = AssertionFailed.
Proof.
  unfold Dense.block_assign_self.
  destruct (Dense.block_ok _ _ _ _ _); [|congruence].
  destruct (_ && _); congruence.
Qed.

Lemma upto_two (d : Z) : 2 <= d -> exists l, upto d = 0 :: 1 :: l.
Proof.
  intros Hd. unfold upto.
  destruct (Z.to_nat d) as [|[|k]] eqn:E; try lia. simpl. eauto.
Qed.

(** X5 (dense overload called as [repdiag(A, d, A)]): the input is
    lost. With [d = 0] the object is left 0 by 0; with [d = 1] its
    coefficients are all multiplied by 0 before they are read, so the
    call returns the zeroed matrix where [repdiag(A, 1, B)] returns [A];
    with [d >= 2] and a matrix that has a row or a column the call fails
    on the size of the block assignment. *)
Theorem aliased_call_loses_the_input
    (heap : nat -> T) (A : Dense.Matrix T) (d : Z) :
  Dense.wf A -> Dense.rows A <= Int.max_int -> Dense.cols A <= Int.max_int ->
  Dense.repdiag_aliased heap A 0 = Ok Dense.empty /\
  Dense.repdiag_aliased heap A 1 = Ok (Dense.array_mul_zero A) /\
  (2 <= d <= Int.max_int -> Dense.rows A <> 0 \/ Dense.cols A <> 0 ->
   Dense.repdiag_aliased heap A d = Err AssertionFailed).
Proof.
  intros HA Hm Hn. pose proof HA as (Hm0 & Hn0 & Hlen).
  assert (Int.of_index (Dense.rows A) = Dense.rows A) as Him
    by (apply wrap_small, in_range_nonneg; lia).
  assert (Int.of_index (Dense.cols A) = Dense.cols A) as Hin
    by (apply wrap_small, in_range_nonneg; lia).
  unfold Dense.repdiag_aliased. cbv zeta. rewrite Him, Hin.
  split; [|split].
  - unfold Int.mul. rewrite !Z.mul_0_r. change (Int.wrap 0) with 0.
    assert (Dense.resize heap A 0 0 = Ok Dense.empty) as ->; [|reflexivity].
    unfold Dense.resize. change ((0 <? 0) || (0 <? 0)) with false. cbv iota.
    change (0 * 0) with 0.
    destruct (0 =? Dense.rows A * Dense.cols A) eqn:E; [|reflexivity].
    apply Z.eqb_eq in E. destruct A as [r c [|x l]]; simpl in *; [reflexivity|lia].
  - unfold Int.mul. rewrite !Z.mul_1_r.
    rewrite !wrap_small by (apply in_range_nonneg; lia).
    assert (Dense.resize heap A (Dense.rows A) (Dense.cols A) = Ok A) as ->.
    { unfold Dense.resize.
      rewrite (proj2 (Z.ltb_ge _ _) Hm0), (proj2 (Z.ltb_ge _ _) Hn0), Z.eqb_refl.
      simpl. now destruct A. }
    simpl. change (Z.of_nat 0) with 0. rewrite !Z.mul_0_l.
    change (Int.wrap 0) with 0. unfold Dense.block_assign_self.
    assert (Dense.block_ok (Dense.array_mul_zero A) 0 0 (Dense.rows A) (Dense.cols A)
            = true) as -> by (apply block_ok_spec; simpl; lia).
    simpl. rewrite !Z.eqb_refl. simpl. now rewrite copy_block_self_id.
  - intros Hd Hne.
    destruct (Dense.resize heap A (Int.mul (Dense.rows A) d)
                (Int.mul (Dense.cols A) d)) as [B1|e] eqn:Hres.
    2:{ simpl. unfold Dense.resize in Hres.
        destruct (_ || _); [now injection Hres as <-|].
        destruct (_ =? _); discriminate. }
    simpl. destruct (upto_two d) as (l & ->); [lia|]. simpl.
    destruct (Dense.block_assign_self _ (Int.mul 0 _) _ _ _) as [B2|e] eqn:H0.
    2:{ apply block_assign_self_err in H0. now subst. }
    apply block_assign_self_inv in H0 as (-> & _ & _ & Hr & Hc).
    simpl.
    destruct (Dense.block_assign_self _ (Int.mul 1 _) _ _ _) as [B3|e] eqn:H1.
    2:{ apply block_assign_self_err in H1. now subst. }
    apply block_assign_self_inv in H1 as (_ & Hsr & Hsc & _ & _).
    unfold Int.mul in Hsr, Hsc. rewrite Z.mul_1_l in Hsr, Hsc.
    rewrite wrap_small in Hsr by (apply in_range_nonneg; lia).
    rewrite wrap_small in Hsc by (apply in_range_nonneg; lia).
    lia.
Qed.

End DenseAliased.

(** ** The sparse overload on any well-formed input *)

Lemma bind_single {X Y : Type} (g : X -> list Y) (l : list X) (x0 : X) :
  NoDup l -> x0 ∈ l -> (forall x, x ∈ l -> x <> x0 -> g x = []) ->
  l ≫= g = g x0.
Proof.
  induction l as [|x l IH]; intros Hnd Hin Hother.
  - now apply elem_of_nil in Hin.
  - apply NoDup_cons in Hnd as [Hx Hnd]. rewrite bind_cons.
    apply elem_of_cons in Hin as [->|Hin].
    + assert (l ≫= g = []) as ->; [|apply app_nil_r].
      clear IH. induction l as [|y l IHl]; [reflexivity|].
      rewrite bind_cons, Hother, IHl; [reflexivity| | | | |].
      * intros Hy. apply Hx. now right.
      * now apply NoDup_cons in Hnd.
      * intros z Hz Hne. apply Hother; [|exact Hne].
        apply elem_of_cons in Hz as [->|Hz]; [now left|]. right. now right.
      * right. now left.
      * intros ->. apply Hx. now left.
    + rewrite Hother, IH; [reflexivity|assumption|assumption| | |].
      * intros z Hz Hne. apply Hother; [now right|exact Hne].
      * now left.
      * intros ->. contradiction.
Qed.

Lemma bind_all_nil {X Y : Type} (g : X -> list Y) (l : list X) :
  (forall x, x ∈ l -> g x = []) -> l ≫= g = [].
Proof.
  induction l as [|x l IH]; intros Hall; [reflexivity|].
  rewrite bind_cons, Hall, IH; [reflexivity| |now left].
  intros y Hy. apply Hall. now right.
Qed.

Section SparseGeneral.
Context {T : Type} `{Scalar T}.

Lemma inserted_at_bind {X : Type} (f : X -> list (Z * Z * T)) (l : list X) r c :
  inserted_at (l ≫= f) r c = l ≫= (fun x => inserted_at (f x) r c).
Proof.
  unfold inserted_at. induction l as [|x l IH]; [reflexivity|].
  now rewrite !bind_cons, filter_app, fmap_app, IH.
Qed.

(** The insertions that one column of one repetition makes at (i, j). *)
Lemma inserted_at_column (sr sc : Z) (v : list (Z * T)) i j :
  inserted_at ((fun e : Z * T => (sr + e.1, sc, e.2)) <$> v) i j =
  if decide (j = sc) then Sparse.stored_under (i - sr) v else [].
Proof.
  unfold inserted_at, Sparse.stored_under.
  induction v as [|e v IH]; [now destruct (decide _)|].
  rewrite fmap_cons, !filter_cons. simpl.
  destruct (decide (j = sc)) as [->|Hj].
  - destruct (decide ((sr + e.1, sc) = (i, sc))) as [Heq|Hne];
      destruct (decide (e.1 = i - sr)) as [He|He];
      rewrite ?fmap_cons, IH; try reflexivity.
    + injection Heq as Heq. lia.
    + exfalso. apply Hne. f_equal. lia.
  - destruct (decide ((sr + e.1, sc) = (i, j))) as [Heq|Hne]; [|exact IH].
    injection Heq as _ Heq. congruence.
Qed.

Lemma stored_under_outside (P : Z -> Prop) key (v : list (Z * T)) :
  Forall (fun e : Z * T => P e.1) v -> ~ P key -> Sparse.stored_under key v = [].
Proof.
  unfold Sparse.stored_under. induction 1 as [|e v He Hv IH]; intros Hkey;
    [reflexivity|].
  rewrite filter_cons. destruct (decide (e.1 = key)) as [<-|_]; [contradiction|].
  now apply IH.
Qed.

(** Insertions never fail inside the accumulator, and each coordinate
    ends with the sum of what was inserted there. *)
Lemma insert_all_general (P : Z -> Prop) (ins : list (Z * Z * T)) : forall M,
  Sparse.dyn_ok M ->
  (forall t, t ∈ ins -> 0 <= t.1.1 < Sparse.dyn_rows M /\ P t.1.2) ->
  Forall (Forall (fun e : Z * T => P e.1)) (Sparse.dyn_data M) ->
  exists M',
    foldM Sparse.insert ins M = Ok M' /\
    Sparse.dyn_ok M' /\
    Sparse.dyn_rows M' = Sparse.dyn_rows M /\
    Sparse.dyn_cols M' = Sparse.dyn_cols M /\
    (forall r c,
       Sparse.dyn_entry M' r c =
       Sparse.accumulated (Sparse.dyn_entry M r c) (inserted_at ins r c)) /\
    (Sparse.dyn_nonZeros M' <= Sparse.dyn_nonZeros M + length ins)%nat /\
    Forall (Forall (fun e : Z * T => P e.1)) (Sparse.dyn_data M').
Proof.
  induction ins as [|[[r0 c0] x0] ins IH]; intros M HM Hrange HP.
  - exists M. simpl. repeat split; try assumption; try apply HM. lia.
  - destruct (Hrange (r0, c0, x0)) as [Hr0 Hc0]; [now left|]. simpl in Hr0, Hc0.
    destruct (coeffRef_add_spec M r0 c0 x0 HM Hr0)
      as (M1 & Hadd & HM1 & Hr1 & Hc1 & Hent1 & Hcount1 & HP1).
    destruct (IH M1 HM1) as (M' & Hfold & HM' & Hr' & Hc' & Hent' & Hcount' & HP').
    { intros t Ht. rewrite Hr1. apply Hrange. now right. }
    { now apply HP1. }
    exists M'. split.
    { simpl. unfold Sparse.insert at 1. simpl. rewrite Hadd. exact Hfold. }
    split; [exact HM'|]. split; [congruence|]. split; [congruence|].
    split; [|split; [|exact HP']].
    + intros r c. rewrite Hent', Hent1. unfold inserted_at.
      rewrite filter_cons. simpl.
      destruct (decide (r = r0 /\ c = c0)) as [[-> ->]|Hne].
      * destruct (decide ((r0, c0) = (r0, c0))); [reflexivity|congruence].
      * destruct (decide ((r0, c0) = (r, c))) as [Heq|_]; [|reflexivity].
        injection Heq as <- <-. exfalso. now apply Hne.
    + simpl. destruct (Sparse.dyn_entry M r0 c0); lia.
Qed.

End SparseGeneral.

Section SparseAnyInput.
Context {T : Type} `{Scalar T}.

Lemma inserted_on_block (A : Sparse.SparseMatrix T) d k r c :
  Sparse.wf A -> 0 <= k < d ->
  0 <= r < Sparse.rows A -> 0 <= c < Sparse.cols A ->
  inserted_at (exact_insertions A d)
              (k * Sparse.rows A + r) (k * Sparse.cols A + c) =
  Sparse.stored_under r (column A c).
Proof.
  intros HA Hk Hr Hc. unfold exact_insertions.
  rewrite inserted_at_bind.
  rewrite (bind_single _ _ k); [|apply NoDup_upto|now apply elem_of_upto|].
  - rewrite inserted_at_bind.
    rewrite (bind_single _ _ c); [|apply NoDup_upto|now apply elem_of_upto|].
    + rewrite inserted_at_column, decide_True by reflexivity.
      f_equal. lia.
    + intros c' Hc' Hne. apply elem_of_upto in Hc'.
      rewrite inserted_at_column, decide_False; [reflexivity|lia].
  - intros k' Hk' Hne. apply elem_of_upto in Hk'.
    rewrite inserted_at_bind. apply bind_all_nil. intros c' Hc'.
    apply elem_of_upto in Hc'.
    rewrite inserted_at_column, decide_False; [reflexivity|]. nia.
Qed.

Lemma inserted_off_block (A : Sparse.SparseMatrix T) d i j :
  Sparse.wf A ->
  ~ (exists k, 0 <= k < d /\
       in_rect (k * Sparse.rows A) (k * Sparse.cols A)
               (Sparse.rows A) (Sparse.cols A) i j) ->
  inserted_at (exact_insertions A d) i j = [].
Proof.
  intros HA Hoff. unfold exact_insertions.
  rewrite inserted_at_bind. apply bind_all_nil. intros k Hk.
  apply elem_of_upto in Hk.
  rewrite inserted_at_bind. apply bind_all_nil. intros c Hc.
  apply elem_of_upto in Hc.
  rewrite inserted_at_column. destruct (decide _) as [->|_]; [|reflexivity].
  apply (stored_under_outside (fun z => 0 <= z < Sparse.rows A));
    [now apply column_in_range|].
  intros Hi. apply Hoff. exists k. unfold in_rect. lia.
Qed.

(** The sparse overload on any well-formed input whose sizes fit,
    whether or not it stores a coordinate twice. *)
Lemma sparse_repdiag_general (A B0 : Sparse.SparseMatrix T) d :
  Sparse.wf A -> fits (Sparse.rows A) (Sparse.cols A) d ->
  exists B,
    Sparse.repdiag A d B0 = Ok B /\
    Sparse.rows B = Sparse.rows A * d /\ Sparse.cols B = Sparse.cols A * d /\
    Sparse.wf B /\ Sparse.canonical B /\
    (forall i j,
       Sparse.entry B i j =
       Sparse.accumulated None (inserted_at (exact_insertions A d) i j)) /\
    Sparse.nonZeros B <= d * Sparse.nonZeros A.
Proof.
  intros HA Hfits. pose proof Hfits as (Hd & Hmd & Hnd').
  pose proof HA as (Hm & Hn & Hlen & Hrange).
  rewrite sparse_repdiag_phases.
  rewrite !wrap_small by (apply in_range_nonneg; unfold Int.max_int in *; nia).
  destruct (dyn_new_ok (T:=T) (Sparse.rows A * d) (Sparse.cols A * d))
    as (-> & Hok0 & Hempty); [nia|]. simpl.
  rewrite insertions_exact by assumption.
  destruct (insert_all_general (fun c => 0 <= c < Sparse.cols A * d)
              (exact_insertions A d) _ Hok0)
    as (M & -> & HokM & HrM & HcM & HentM & HnnzM & HPM).
  { intros t Ht. apply exact_insertions_elem in Ht
      as (i & k & e & Hi & Hk & He & ->). simpl.
    pose proof (column_in_range A k HA) as Hrk.
    rewrite Forall_forall in Hrk. specialize (Hrk e He). simpl in Hrk. nia. }
  { simpl. apply Forall_forall. intros v Hv.
    apply elem_of_replicate_inv in Hv as ->. constructor. }
  simpl in HrM, HcM. simpl.
  destruct (of_dynamic_spec M HokM)
    as (B & -> & Hr & Hc & HlenB & Hcan & HrB & Hent & Hnnz).
  { rewrite HcM. nia. } { now rewrite HcM. }
  exists B. split; [reflexivity|]. split; [congruence|]. split; [congruence|].
  split; [|split; [assumption|split]].
  - unfold Sparse.wf. rewrite Hr, Hc, HrM, HcM, HlenB, HcM.
    repeat split; try nia. now rewrite Hr, HrM in HrB.
  - intros i j. now rewrite Hent, HentM, Hempty.
  - rewrite Hnnz. unfold Sparse.dyn_nonZeros in HnnzM at 2. simpl in HnnzM.
    rewrite concat_replicate_nil in HnnzM. simpl in HnnzM.
    rewrite <- (length_exact_insertions A d) by (assumption || lia). lia.
Qed.

End SparseAnyInput.

Section SparseFurther.
Context {T : Type} `{Scalar T}.

Lemma of_dynamic_inv (M : Sparse.DynamicSparseMatrix T) B :
  Sparse.of_dynamic M = Ok B ->
  0 <= Sparse.dyn_cols M /\
  Forall (Forall (fun e : Z * T => 0 <= e.1 < Sparse.dyn_cols M)) (Sparse.dyn_data M).
Proof.
  unfold Sparse.of_dynamic.
  destruct (Sparse.dyn_cols M <? 0) eqn:Hc; [discriminate|].
  destruct (Sparse.inner_in_range M) eqn:Hin; [|discriminate].
  intros _. split; [now apply Z.ltb_ge|]. now apply inner_in_range_spec.
Qed.

Lemma sparse_result_wf (A B0 B : Sparse.SparseMatrix T) (d : Z) :
  Sparse.repdiag A d B0 = Ok B -> Sparse.wf B /\ Sparse.canonical B.
Proof.
  rewrite sparse_repdiag_phases. intros Hrep.
  apply bind_ok in Hrep as (M0 & Hnew & Hrep).
  apply bind_ok in Hrep as (M & Hloop & Hconv).
  unfold Sparse.dyn_new in Hnew.
  destruct (Int.wrap (Sparse.rows A * d) <? 0) eqn:Hr0; [discriminate|].
  apply Z.ltb_ge in Hr0. injection Hnew as <-.
  destruct (dyn_new_ok (T:=T) (Int.wrap (Sparse.rows A * d))
              (Int.wrap (Sparse.cols A * d)) Hr0) as (_ & Hok0 & _).
  destruct (insert_all_stored _ _ _ Hok0 Hloop) as (HokM & HrM & HcM & _).
  simpl in HrM, HcM.
  destruct (of_dynamic_inv _ _ Hconv) as (Hc0 & Hrange).
  destruct (of_dynamic_spec M HokM Hc0 Hrange)
    as (B' & Hconv' & Hr & Hc & HlenB & Hcan & HrB & _).
  rewrite Hconv in Hconv'. injection Hconv' as <-.
  pose proof (wrap_range (Sparse.rows A * d)) as [_ Hrmax].
  pose proof (wrap_range (Sparse.cols A * d)) as [_ Hcmax].
  split; [|assumption].
  unfold Sparse.wf. rewrite Hr, Hc, HlenB, HrM, HcM.
  repeat split; try lia. now rewrite Hr, HrM in HrB.
Qed.

(** X6 (sparse overload, the accumulator and its conversion): whenever
    the call returns, for any input and any [d], the result is a valid
    compressed matrix: its sizes are non-negative [int]s, there is one
    column vector per column, every stored row index is a row, the rows
    of each column are in strictly increasing order and no coordinate is
    stored twice. *)
Theorem sparse_result_is_compressed
    (A B0 B : Sparse.SparseMatrix T) (d : Z) :
  Sparse.repdiag A d B0 = Ok B ->
  Sparse.wf B /\ Sparse.canonical B /\ Sparse.no_duplicates B.
Proof.
  intros Hrep. destruct (sparse_result_wf A B0 B d Hrep) as [HB Hcan].
  split; [exact HB|]. split; [exact Hcan|].
  unfold Sparse.no_duplicates. eapply Forall_impl; [exact Hcan|].
  intros v. apply vsorted_NoDup.
Qed.

(** A call that returns on an input with a stored entry had sizes that
    fit. *)
Lemma sparse_returns_with_entry_fits (A B0 B : Sparse.SparseMatrix T) (d : Z) :
  Sparse.wf A -> 0 <= d <= Int.max_int ->
  Sparse.repdiag A d B0 = Ok B ->
  concat (Sparse.outer A) <> [] ->
  fits (Sparse.rows A) (Sparse.cols A) d.
Proof.
  intros HA Hd Hrep Hnz.
  destruct (decide (d = 0)) as [->|Hd0]; [unfold fits, Int.max_int; lia|].
  destruct (concat (Sparse.outer A)) as [|e0 l] eqn:Hcat; [contradiction|].
  assert (In e0 (concat (Sparse.outer A))) as Hin by (rewrite Hcat; now left).
  apply in_concat in Hin as (v & Hv & He0).
  apply list_elem_of_In in Hv, He0.
  apply list_elem_of_lookup in Hv as (k & Hk).
  pose proof HA as (_ & _ & Hlen & _).
  apply lookup_lt_Some in Hk as Hlt.
  apply (sparse_success_fits A d B0 B (Z.of_nat k) e0); try assumption;
    [lia|lia|].
  unfold column. now rewrite Nat2Z.id, Hk.
Qed.

(** X7 (sparse overload): a result of a wrapped size stores nothing.
    For [0 <= d], whenever the call returns on an input that stores at
    least one entry, the products [m*d] and [n*d] fit in an [int] and the
    result has exactly [m*d] rows and [n*d] columns; whenever it returns
    on an input without stored entries, the result is the matrix without
    entries whose sizes are the [int] products. *)
Theorem sparse_result_has_exact_size_or_no_entry
    (A B0 B : Sparse.SparseMatrix T) (d : Z) :
  Sparse.wf A -> 0 <= d <= Int.max_int ->
  Sparse.repdiag A d B0 = Ok B ->
  (Sparse.nonZeros A <> 0 ->
   fits (Sparse.rows A) (Sparse.cols A) d /\
   Sparse.rows B = Sparse.rows A * d /\ Sparse.cols B = Sparse.cols A * d) /\
  (Sparse.nonZeros A = 0 ->
   B = Sparse.mk (Int.wrap (Sparse.rows A * d)) (Int.wrap (Sparse.cols A * d))
         (replicate (Z.to_nat (Int.wrap (Sparse.cols A * d))) [])).
Proof.
  intros HA Hd Hrep. split.
  - intros Hnz.
    assert (fits (Sparse.rows A) (Sparse.cols A) d) as Hfits.
    { apply (sparse_returns_with_entry_fits A B0 B d); try assumption.
      intros Hcat. apply Hnz. unfold Sparse.nonZeros. now rewrite Hcat. }
    split; [exact Hfits|].
    pose proof HA as (Hm & Hn & _). destruct Hfits as (_ & Hmd & Hnd).
    apply sparse_result_dims in Hrep. unfold Sparse.requested_dims in Hrep.
    cbv zeta in Hrep. rewrite !mul_of_index in Hrep.
    rewrite !wrap_small in Hrep by (apply in_range_nonneg; nia).
    now injection Hrep.
  - intros Hnz. unfold Sparse.nonZeros in Hnz.
    assert (concat (Sparse.outer A) = []) as Hcat
      by (destruct (concat (Sparse.outer A)); [reflexivity|simpl in Hnz; lia]).
    exact (sparse_repdiag_no_entries A d B0 B Hcat Hrep).
Qed.

End SparseFurther.

(** ** A coordinate stored more than once *)

Section SparseDuplicates.
Context {T : Type} `{Scalar T}.

Lemma stored_under_NoDup key (v : list (Z * T)) :
  NoDup (v.*1) ->
  Sparse.stored_under key v = option_list (Sparse.vlookup key v).
Proof.
  unfold Sparse.stored_under. induction v as [|e v IH]; intros Hnd; [reflexivity|].
  rewrite fmap_cons in Hnd. apply NoDup_cons in Hnd as [He Hnd].
  rewrite filter_cons. simpl.
  destruct (decide (e.1 = key)) as [<-|Hne].
  - rewrite Z.eqb_refl, fmap_cons. simpl. f_equal.
    apply (stored_under_outside (fun z => z <> e.1)); [|auto].
    apply Forall_forall. intros e' He' Heq. apply He. rewrite <- Heq.
    apply list_elem_of_fmap. now exists e'.
  - destruct (Z.eqb_spec e.1 key); [contradiction|]. now apply IH.
Qed.

(** X8 (sparse overload, [coeffRef(...) += it.value()]): on an input
    that stores a coordinate several times, each block of the result
    stores that coordinate once, with the stored values added to 0 in
    their storage order; the result therefore has at most [d] times the
    stored entries of the input. *)
Theorem sparse_duplicates_are_summed
    (S SB0 : Sparse.SparseMatrix T) (d : Z) :
  Sparse.wf S -> fits (Sparse.rows S) (Sparse.cols S) d ->
  exists B,
    Sparse.repdiag S d SB0 = Ok B /\
    Sparse.no_duplicates B /\
    (forall k r c, 0 <= k < d -> 0 <= r < Sparse.rows S -> 0 <= c < Sparse.cols S ->
       Sparse.entry B (k * Sparse.rows S + r) (k * Sparse.cols S + c) =
       Sparse.accumulated None (Sparse.stored_under r (column S c))) /\
    Sparse.nonZeros B <= d * Sparse.nonZeros S.
Proof.
  intros HS Hfits.
  destruct (sparse_repdiag_general S SB0 d HS Hfits)
    as (B & Hrep & _ & _ & _ & Hcan & Hent & Hnnz).
  exists B. split; [exact Hrep|]. split; [|split; [|exact Hnnz]].
  - unfold Sparse.no_duplicates. eapply Forall_impl; [exact Hcan|].
    intros v. apply vsorted_NoDup.
  - intros k r c Hk Hr Hc. now rewrite Hent, inserted_on_block.
Qed.

(** X9 (sparse overload): the result stores no entry outside the [d]
    diagonal blocks, for every element type and every well-formed input,
    also one that stores a coordinate twice. *)
Theorem sparse_stores_nothing_outside_blocks
    (S SB0 : Sparse.SparseMatrix T) (d : Z) :
  Sparse.wf S -> fits (Sparse.rows S) (Sparse.cols S) d ->
  exists B,
    Sparse.repdiag S d SB0 = Ok B /\
    forall i j,
      ~ (exists k, 0 <= k < d /\
           in_rect (k * Sparse.rows S) (k * Sparse.cols S)
                   (Sparse.rows S) (Sparse.cols S) i j) ->
      Sparse.entry B i j = None.
Proof.
  intros HS Hfits.
  destruct (sparse_repdiag_general S SB0 d HS Hfits)
    as (B & Hrep & _ & _ & _ & _ & Hent & _).
  exists B. split; [exact Hrep|].
  intros i j Hoff. now rewrite Hent, inserted_off_block.
Qed.

(** The stored value of a block of the result, when no coordinate of the
    input is stored twice: [0 + x] for a stored [x]. *)
Lemma sparse_block_entries (S SB0 : Sparse.SparseMatrix T) (d : Z) :
  Sparse.wf S -> Sparse.no_duplicates S ->
  fits (Sparse.rows S) (Sparse.cols S) d ->
  exists B,
    Sparse.repdiag S d SB0 = Ok B /\
    forall k r c, 0 <= k < d -> 0 <= r < Sparse.rows S -> 0 <= c < Sparse.cols S ->
      Sparse.entry B (k * Sparse.rows S + r) (k * Sparse.cols S + c) =
      add zero <$> Sparse.entry S r c.
Proof.
  intros HS Hnd Hfits.
  destruct (sparse_repdiag_general S SB0 d HS Hfits)
    as (B & Hrep & _ & _ & _ & _ & Hent & _).
  exists B. split; [exact Hrep|]. intros k r c Hk Hr Hc.
  rewrite Hent, inserted_on_block by assumption.
  rewrite stored_under_NoDup by now apply column_NoDup.
  rewrite entry_column by lia.
  now destruct (Sparse.vlookup r (column S c)).
Qed.

End SparseDuplicates.

(** ** Doubles *)

Lemma double_zero_plus (x : double) : add zero x = unsigned_zero x.
Proof. now destruct x as [[|]|[|]| |]. Qed.

(** X10 (sparse overload on doubles): every stored value of the input
    comes back in each block as [0.0 + x], which is [x] itself (infinities
    and NaN included) except that a stored negative zero is stored as
    positive zero. *)
Theorem sparse_double_values
    (S SB0 : Sparse.SparseMatrix double) (d : Z) :
  Sparse.wf S -> Sparse.no_duplicates S ->
  fits (Sparse.rows S) (Sparse.cols S) d ->
  exists B,
    Sparse.repdiag S d SB0 = Ok B /\
    forall k r c, 0 <= k < d -> 0 <= r < Sparse.rows S -> 0 <= c < Sparse.cols S ->
      Sparse.entry B (k * Sparse.rows S + r) (k * Sparse.cols S + c) =
      unsigned_zero <$> Sparse.entry S r c.
Proof.
  intros HS Hnd Hfits.
  destruct (sparse_block_entries S SB0 d HS Hnd Hfits) as (B & Hrep & Hent).
  exists B. split; [exact Hrep|]. intros k r c Hk Hr Hc.
  rewrite Hent by assumption.
  destruct (Sparse.entry S r c) as [x|]; [|reflexivity].
  simpl. f_equal. apply double_zero_plus.
Qed.

(** ** The result as a whole *)

Lemma block_of_coordinate (m d i : Z) :
  0 <= i < m * d -> 0 <= d ->
  0 <= i / m < d /\ 0 <= i mod m < m /\ i = i / m * m + i mod m.
Proof.
  intros Hi Hd. assert (0 < m) as Hm by nia.
  pose proof (Z.div_mod i m ltac:(lia)) as Hdm.
  pose proof (Z.mod_pos_bound i m Hm) as Hmod.
  assert (0 <= i / m) by (apply Z.div_pos; lia).
  assert (i / m < d) by (apply Z.div_lt_upper_bound; lia).
  lia.
Qed.

Lemma off_block_quotients (m n d i j : Z) :
  i / m <> j / n ->
  ~ (exists k, 0 <= k < d /\ in_rect (k * m) (k * n) m n i j).
Proof.
  intros Hne (k & _ & Hi & Hj). apply Hne.
  rewrite (div_in_block k m i Hi), (div_in_block k n j Hj). reflexivity.
Qed.

Section WholeResult.
Context {T : Type} `{Scalar T}.

Lemma dense_kronecker
    (mul_zero_r : forall x : T, mul x zero = zero)
    (heap : nat -> T) (A B0 : Dense.Matrix T) (d : Z) :
  Dense.wf A -> Dense.wf B0 -> fits (Dense.rows A) (Dense.cols A) d ->
  exists B,
    Dense.repdiag heap A d B0 = Ok B /\
    Dense.rows B = Dense.rows A * d /\ Dense.cols B = Dense.cols A * d /\
    forall i j, 0 <= i < Dense.rows A * d -> 0 <= j < Dense.cols A * d ->
      Dense.coeff B i j =
      if i / Dense.rows A =? j / Dense.cols A
      then Dense.coeff A (i mod Dense.rows A) (j mod Dense.cols A)
      else Some zero.
Proof.
  intros HA HB0 Hfits. pose proof Hfits as (Hd & _).
  destruct (dense_repdiag_spec heap A d B0 HA HB0 Hfits)
    as (B1 & B & _ & Hrep & _ & Hrows & Hcols & Hblock & _).
  exists B. split; [exact Hrep|]. split; [exact Hrows|]. split; [exact Hcols|].
  intros i j Hi Hj.
  destruct (block_of_coordinate _ _ _ Hi) as (Hk & Hr & Hieq); [lia|].
  destruct (block_of_coordinate _ _ _ Hj) as (Hk' & Hc & Hjeq); [lia|].
  destruct (Z.eqb_spec (i / Dense.rows A) (j / Dense.cols A)) as [Heq|Hne].
  - rewrite <- Heq in Hjeq.
    rewrite <- (Hblock (i / Dense.rows A)) by assumption.
    now rewrite <- Hieq, <- Hjeq.
  - apply (dense_off_block_zero mul_zero_r heap A d B0); auto; try lia.
    now apply off_block_quotients.
Qed.

Lemma sparse_kronecker
    (add_zero_l : forall x : T, add zero x = x)
    (S SB0 : Sparse.SparseMatrix T) (d : Z) :
  Sparse.wf S -> Sparse.no_duplicates S ->
  fits (Sparse.rows S) (Sparse.cols S) d ->
  exists B,
    Sparse.repdiag S d SB0 = Ok B /\
    Sparse.rows B = Sparse.rows S * d /\ Sparse.cols B = Sparse.cols S * d /\
    forall i j, 0 <= i < Sparse.rows S * d -> 0 <= j < Sparse.cols S * d ->
      Sparse.coeff B i j =
      if i / Sparse.rows S =? j / Sparse.cols S
      then Sparse.coeff S (i mod Sparse.rows S) (j mod Sparse.cols S)
      else Some zero.
Proof.
  intros HS Hnd Hfits. pose proof Hfits as (Hd & _).
  destruct (sparse_repdiag_entries add_zero_l S d SB0 HS Hnd Hfits)
    as (B & Hrep & Hrows & Hcols & _ & _ & Hblock & Hoff).
  exists B. split; [exact Hrep|]. split; [exact Hrows|]. split; [exact Hcols|].
  intros i j Hi Hj.
  destruct (block_of_coordinate _ _ _ Hi) as (Hk & Hr & Hieq); [lia|].
  destruct (block_of_coordinate _ _ _ Hj) as (Hk' & Hc & Hjeq); [lia|].
  rewrite coeff_entry by lia.
  destruct (Z.eqb_spec (i / Sparse.rows S) (j / Sparse.cols S)) as [Heq|Hne].
  - rewrite <- Heq in Hjeq. rewrite coeff_entry by lia.
    rewrite <- (Hblock (i / Sparse.rows S)) by assumption.
    now rewrite <- Hieq, <- Hjeq.
  - rewrite Hoff; [reflexivity|]. now apply off_block_quotients.
Qed.

(** X11 (dense overload): the result is the Kronecker product of the
    [d] by [d] identity and [A]. When the sizes fit and [x * 0 = 0] for
    every element, the coefficient at (i, j) is [A(i mod m, j mod n)] if
    [i div m = j div n], and 0 otherwise. *)
Theorem dense_result_in_closed_form
    (mul_zero_r : forall x : T, mul x zero = zero)
    (heap : nat -> T) (A B0 : Dense.Matrix T) (d : Z) :
  Dense.wf A -> Dense.wf B0 -> fits (Dense.rows A) (Dense.cols A) d ->
  exists B,
    Dense.repdiag heap A d B0 = Ok B /\
    forall i j,
      Dense.coeff B i j =
      if decide (0 <= i < Dense.rows A * d /\ 0 <= j < Dense.cols A * d) then
        if i / Dense.rows A =? j / Dense.cols A
        then Dense.coeff A (i mod Dense.rows A) (j mod Dense.cols A)
        else Some zero
      else None.
Proof.
  intros HA HB0 Hfits.
  destruct (dense_kronecker mul_zero_r heap A B0 d HA HB0 Hfits)
    as (B & Hrep & Hrows & Hcols & Hcoeff).
  exists B. split; [exact Hrep|]. intros i j.
  destruct (decide _) as [[Hi Hj]|Hout]; [now apply Hcoeff|].
  apply coeff_out_of_bounds. now rewrite Hrows, Hcols.
Qed.

(** X12 (sparse overload): the same closed form for the coefficients
    of the sparse result, on an input that stores no coordinate twice
    and an element type with [0 + x = x]. *)
Theorem sparse_result_in_closed_form
    (add_zero_l : forall x : T, add zero x = x)
    (S SB0 : Sparse.SparseMatrix T) (d : Z) :
  Sparse.wf S -> Sparse.no_duplicates S ->
  fits (Sparse.rows S) (Sparse.cols S) d ->
  exists B,
    Sparse.repdiag S d SB0 = Ok B /\
    forall i j,
      Sparse.coeff B i j =
      if decide (0 <= i < Sparse.rows S * d /\ 0 <= j < Sparse.cols S * d) then
        if i / Sparse.rows S =? j / Sparse.cols S
        then Sparse.coeff S (i mod Sparse.rows S) (j mod Sparse.cols S)
        else Some zero
      else None.
Proof.
  intros HS Hnd Hfits.
  destruct (sparse_kronecker add_zero_l S SB0 d HS Hnd Hfits)
    as (B & Hrep & Hrows & Hcols & Hcoeff).
  exists B. split; [exact Hrep|]. intros i j.
  destruct (decide _) as [[Hi Hj]|Hout]; [now apply Hcoeff|].
  unfold Sparse.coeff. rewrite Hrows, Hcols.
  destruct (_ && _) eqn:E; [|reflexivity]. exfalso. apply Hout. lia.
Qed.

(** X13 (both overloads): the dense and the sparse overload compute the
    same matrix. If a sparse [S] and a dense [A] have the same shape and
    the same coefficients, so have the two results. *)
Theorem overloads_agree
    (mul_zero_r : forall x : T, mul x zero = zero)
    (add_zero_l : forall x : T, add zero x = x)
    (heap : nat -> T) (A B0 : Dense.Matrix T) (S SB0 : Sparse.SparseMatrix T)
    (d : Z) :
  Dense.wf A -> Dense.wf B0 -> Sparse.wf S -> Sparse.no_duplicates S ->
  Sparse.rows S = Dense.rows A -> Sparse.cols S = Dense.cols A ->
  (forall r c, Sparse.coeff S r c = Dense.coeff A r c) ->
  fits (Dense.rows A) (Dense.cols A) d ->
  exists BD BS,
    Dense.repdiag heap A d B0 = Ok BD /\
    Sparse.repdiag S d SB0 = Ok BS /\
    Sparse.rows BS = Dense.rows BD /\ Sparse.cols BS = Dense.cols BD /\
    forall i j, Sparse.coeff BS i j = Dense.coeff BD i j.
Proof.
  intros HA HB0 HS Hnd Hrows Hcols Hsame Hfits.
  destruct (dense_kronecker mul_zero_r heap A B0 d HA HB0 Hfits)
    as (BD & HrepD & HrD & HcD & HcoeffD).
  rewrite <- Hrows, <- Hcols in Hfits.
  destruct (sparse_kronecker add_zero_l S SB0 d HS Hnd Hfits)
    as (BS & HrepS & HrS & HcS & HcoeffS).
  exists BD, BS. split; [exact HrepD|]. split; [exact HrepS|].
  split; [congruence|]. split; [congruence|]. intros i j.
  destruct (decide (0 <= i < Dense.rows A * d /\ 0 <= j < Dense.cols A * d))
    as [[Hi Hj]|Hout].
  - rewrite HcoeffD by assumption. rewrite HcoeffS by (rewrite ?Hrows, ?Hcols; lia).
    rewrite Hrows, Hcols. destruct (_ =? _); [apply Hsame|reflexivity].
  - rewrite (coeff_out_of_bounds BD) by now rewrite HrD, HcD.
    unfold Sparse.coeff. rewrite HrS, HcS, Hrows, Hcols.
    destruct (_ && _) eqn:E; [|reflexivity]. exfalso. apply Hout. lia.
Qed.

(** X14 (sparse overload): the result depends on which values the input
    stores at which coordinates, not on the order in which a column stores
    them: two inputs of the same shape with the same stored entries give
    the same result, with every column in increasing order of the rows. *)
Theorem sparse_result_ignores_storage_order
    (S S' SB0 SB0' : Sparse.SparseMatrix T) (d : Z) :
  Sparse.wf S -> Sparse.no_duplicates S ->
  Sparse.wf S' -> Sparse.no_duplicates S' ->
  Sparse.rows S = Sparse.rows S' -> Sparse.cols S = Sparse.cols S' ->
  (forall r c, Sparse.entry S r c = Sparse.entry S' r c) ->
  fits (Sparse.rows S) (Sparse.cols S) d ->
  exists B,
    Sparse.repdiag S d SB0 = Ok B /\ Sparse.repdiag S' d SB0' = Ok B /\
    Sparse.canonical B.
Proof.
  intros HS Hnd HS' Hnd' Hrows Hcols Hsame Hfits.
  destruct (sparse_repdiag_spec S d SB0 HS Hnd Hfits)
    as (B & Hrep & Hr & Hc & HB & Hcan & Hent & _).
  rewrite Hrows, Hcols in Hfits.
  destruct (sparse_repdiag_spec S' d SB0' HS' Hnd' Hfits)
    as (B' & Hrep' & Hr' & Hc' & HB' & Hcan' & Hent' & _).
  exists B. split; [exact Hrep|]. split; [|exact Hcan].
  rewrite Hrep'. f_equal. apply sparse_ext; try assumption; try congruence.
  intros i j. apply option_eq. intros y.
  rewrite Hent', Hent, Hrows, Hcols.
  split; intros (k & r & c & x & Hk & Hr0 & Hc0 & Hi & Hj & Hx & Hy);
    exists k, r, c, x; repeat split; try assumption; try lia;
    first [now rewrite <- Hsame | now rewrite Hsame].
Qed.

End WholeResult.

Section Symmetry.
Context {T : Type} `{Scalar T}.

Lemma sparse_coeff_outside (B : Sparse.SparseMatrix T) i j :
  ~ (0 <= i < Sparse.rows B /\ 0 <= j < Sparse.cols B) -> Sparse.coeff B i j = None.
Proof.
  intros Hout. unfold Sparse.coeff.
  destruct (_ && _) eqn:E; [|reflexivity]. exfalso. apply Hout. lia.
Qed.

(** X15 (both overloads): a symmetric matrix is repeated into a
    symmetric matrix. *)
Theorem symmetry_is_preserved
    (mul_zero_r : forall x : T, mul x zero = zero)
    (add_zero_l : forall x : T, add zero x = x)
    (heap : nat -> T) (A B0 : Dense.Matrix T) (S SB0 : Sparse.SparseMatrix T)
    (d : Z) :
  Dense.wf A -> Dense.wf B0 -> Sparse.wf S -> Sparse.no_duplicates S ->
  fits (Dense.rows A) (Dense.cols A) d ->
  fits (Sparse.rows S) (Sparse.cols S) d ->
  (Dense.rows A = Dense.cols A ->
   (forall r c, Dense.coeff A r c = Dense.coeff A c r) ->
   exists B, Dense.repdiag heap A d B0 = Ok B /\
             forall i j, Dense.coeff B i j = Dense.coeff B j i) /\
  (Sparse.rows S = Sparse.cols S ->
   (forall r c, Sparse.coeff S r c = Sparse.coeff S c r) ->
   exists B, Sparse.repdiag S d SB0 = Ok B /\
             forall i j, Sparse.coeff B i j = Sparse.coeff B j i).
Proof.
  intros HA HB0 HS Hnd HfitsA HfitsS. split.
  - intros Hsq Hsym.
    destruct (dense_kronecker mul_zero_r heap A B0 d HA HB0 HfitsA)
      as (B & Hrep & Hrows & Hcols & Hcoeff).
    exists B. split; [exact Hrep|]. intros i j.
    destruct (decide (0 <= i < Dense.rows A * d /\ 0 <= j < Dense.rows A * d))
      as [[Hi Hj]|Hout].
    + rewrite !Hcoeff by (rewrite <- ?Hsq; assumption).
      rewrite <- Hsq, (Z.eqb_sym (j / _)). destruct (_ =? _); [apply Hsym|reflexivity].
    + rewrite !coeff_out_of_bounds; [reflexivity| |]; rewrite Hrows, Hcols; lia.
  - intros Hsq Hsym.
    destruct (sparse_kronecker add_zero_l S SB0 d HS Hnd HfitsS)
      as (B & Hrep & Hrows & Hcols & Hcoeff).
    exists B. split; [exact Hrep|]. intros i j.
    destruct (decide (0 <= i < Sparse.rows S * d /\ 0 <= j < Sparse.rows S * d))
      as [[Hi Hj]|Hout].
    + rewrite !Hcoeff by (rewrite <- ?Hsq; assumption).
      rewrite <- Hsq, (Z.eqb_sym (j / _)). destruct (_ =? _); [apply Hsym|reflexivity].
    + rewrite !sparse_coeff_outside; [reflexivity| |]; rewrite Hrows, Hcols; lia.
Qed.

End Symmetry.

(** ** The sparsity pattern, and the empty input *)

Section SparsePattern.
Context {T : Type} `{Scalar T}.

Lemma accumulated_is_Some (xs : list T) : forall start,
  is_Some (Sparse.accumulated start xs) <-> is_Some start \/ xs <> [].
Proof.
  unfold Sparse.accumulated. induction xs as [|x xs IH]; intros start; simpl.
  - split; [now left|]. now intros [?|?].
  - rewrite IH. split; [now right|]. intros _. left. eauto.
Qed.

Lemma stored_under_is_stored key (v : list (Z * T)) :
  Sparse.stored_under key v <> [] <-> is_Some (Sparse.vlookup key v).
Proof.
  unfold Sparse.stored_under. induction v as [|e v IH]; simpl.
  - split; [congruence|]. intros [x Hx]. discriminate.
  - rewrite filter_cons. destruct (decide (e.1 = key)) as [<-|Hne].
    + rewrite Z.eqb_refl. split; [eauto|discriminate].
    + destruct (Z.eqb_spec e.1 key); [contradiction|]. exact IH.
Qed.

Lemma sparse_general_pattern (S SB0 : Sparse.SparseMatrix T) (d : Z) :
  Sparse.wf S -> fits (Sparse.rows S) (Sparse.cols S) d ->
  exists B,
    Sparse.repdiag S d SB0 = Ok B /\
    Sparse.cols B = Sparse.cols S * d /\ Sparse.wf B /\ Sparse.canonical B /\
    forall i j,
      is_Some (Sparse.entry B i j) <->
      exists k r c,
        0 <= k < d /\ 0 <= r < Sparse.rows S /\ 0 <= c < Sparse.cols S /\
        i = k * Sparse.rows S + r /\ j = k * Sparse.cols S + c /\
        is_Some (Sparse.entry S r c).
Proof.
  intros HS Hfits.
  destruct (sparse_repdiag_general S SB0 d HS Hfits)
    as (B & Hrep & _ & Hcols & HB & Hcan & Hent & _).
  exists B. split; [exact Hrep|]. split; [exact Hcols|].
  split; [exact HB|]. split; [exact Hcan|].
  intros i j. rewrite Hent. split.
  - intros Hsome.
    destruct (decide (on_blocks (Sparse.rows S) (Sparse.cols S) (upto d) i j))
      as [Hon|Hoff].
    + apply on_blocks_upto in Hon as (k & Hk & Hi & Hj).
      exists k, (i - k * Sparse.rows S), (j - k * Sparse.cols S).
      repeat split; try lia.
      replace i with (k * Sparse.rows S + (i - k * Sparse.rows S)) in Hsome by lia.
      replace j with (k * Sparse.cols S + (j - k * Sparse.cols S)) in Hsome by lia.
      rewrite inserted_on_block in Hsome by (assumption || lia).
      apply accumulated_is_Some in Hsome as [[x Hx]|Hne]; [discriminate|].
      rewrite entry_column by lia. now apply stored_under_is_stored.
    + rewrite inserted_off_block in Hsome; [|exact HS|].
      * destruct Hsome as [x Hx]. discriminate.
      * intros Hex. apply Hoff. now apply on_blocks_upto.
  - intros (k & r & c & Hk & Hr & Hc & -> & -> & Hstored).
    rewrite inserted_on_block by assumption.
    apply accumulated_is_Some. right.
    rewrite entry_column in Hstored by lia. now apply stored_under_is_stored.
Qed.

(** X16 (sparse overload): the sparsity pattern of the input is
    replicated as it is, for every element type. A coordinate is stored in
    the result exactly when it lies in a diagonal block and the input
    stores the corresponding coordinate; a stored zero stays a stored
    entry, and nothing is pruned. *)
Theorem sparse_pattern_is_replicated
    (S SB0 : Sparse.SparseMatrix T) (d : Z) :
  Sparse.wf S -> fits (Sparse.rows S) (Sparse.cols S) d ->
  exists B,
    Sparse.repdiag S d SB0 = Ok B /\
    forall i j,
      is_Some (Sparse.entry B i j) <->
      exists k r c,
        0 <= k < d /\ 0 <= r < Sparse.rows S /\ 0 <= c < Sparse.cols S /\
        i = k * Sparse.rows S + r /\ j = k * Sparse.cols S + c /\
        is_Some (Sparse.entry S r c).
Proof.
  intros HS Hfits.
  destruct (sparse_general_pattern S SB0 d HS Hfits) as (B & Hrep & _ & _ & _ & Hpat).
  exists B. split; [exact Hrep|exact Hpat].
Qed.

(** X17 (both overloads): on an empty input, a 0 by 0 matrix, the call
    returns the empty matrix for every [int] [d], the negative ones
    included; the loop over the repetitions has nothing to copy. *)
Theorem empty_input_gives_empty_result
    (heap : nat -> T) (B0 : Dense.Matrix T) (SB0 : Sparse.SparseMatrix T) (d : Z) :
  Dense.wf B0 ->
  Dense.repdiag heap Dense.empty d B0 = Ok Dense.empty /\
  Sparse.repdiag (T:=T) Sparse.empty d SB0 = Ok Sparse.empty.
Proof.
  intros HB0. split.
  - unfold Dense.repdiag. cbv zeta. simpl Dense.rows. simpl Dense.cols.
    change (Int.of_index 0) with 0. unfold Int.mul. rewrite !Z.mul_0_l.
    change (Int.wrap 0) with 0.
    assert (Dense.resize heap B0 0 0 = Ok Dense.empty) as ->.
    { unfold Dense.resize. change ((0 <? 0) || (0 <? 0)) with false. cbv iota.
      change (0 * 0) with 0. destruct HB0 as (_ & _ & Hlen).
      destruct (0 =? Dense.rows B0 * Dense.cols B0) eqn:E; [|reflexivity].
      apply Z.eqb_eq in E. destruct B0 as [r c [|x l]]; simpl in *; [reflexivity|lia]. }
    simpl.
    destruct (foldM_invariant (fun B => B = Dense.empty)
                (fun i B => Dense.block_assign B (Int.wrap (i * 0)) (Int.wrap (i * 0))
                              0 0 Dense.empty)
                (upto d) (Dense.array_mul_zero Dense.empty))
      as (B & -> & ->); [reflexivity| |reflexivity].
    intros i B _ ->. exists Dense.empty. split; [|reflexivity].
    rewrite Z.mul_0_r. reflexivity.
  - rewrite sparse_repdiag_phases, insertions_no_entries by reflexivity.
    reflexivity.
Qed.

End SparsePattern.

(** ** Counting the stored entries of the result *)

Lemma upto_add (a b : Z) :
  0 <= a -> 0 <= b -> upto (a + b) = upto a ++ ((fun c => a + c) <$> upto b).
Proof.
  intros Ha Hb. revert b Hb. apply natlike_ind.
  - rewrite Z.add_0_r. simpl. now rewrite app_nil_r.
  - intros b Hb IH. unfold Z.succ.
    rewrite Z.add_assoc, !upto_snoc, IH, fmap_app by lia.
    now rewrite app_assoc.
Qed.

(** The column indices of the result, repetition by repetition. *)
Lemma upto_product (n d : Z) :
  0 <= n -> 0 <= d ->
  upto (n * d) = upto d ≫= (fun k => (fun c => k * n + c) <$> upto n).
Proof.
  intros Hn Hd. revert d Hd. apply natlike_ind.
  - now rewrite Z.mul_0_r.
  - intros d Hd IH. unfold Z.succ.
    rewrite Z.mul_add_distr_l, Z.mul_1_r, upto_add, IH by nia.
    rewrite upto_snoc, bind_app, bind_singleton by lia.
    now rewrite (Z.mul_comm n d).
Qed.

Lemma bind_fmap_list {X Y W : Type} (g : X -> Y) (f : Y -> list W) (l : list X) :
  (g <$> l) ≫= f = l ≫= (fun x => f (g x)).
Proof.
  induction l as [|x l IH]; [reflexivity|].
  now rewrite fmap_cons, !bind_cons, IH.
Qed.

Lemma bind_bind_list {X Y W : Type} (f : X -> list Y) (g : Y -> list W) (l : list X) :
  (l ≫= f) ≫= g = l ≫= (fun x => f x ≫= g).
Proof.
  induction l as [|x l IH]; [reflexivity|].
  now rewrite !bind_cons, bind_app, IH.
Qed.

Lemma length_bind_ext {X Y W : Type} (f : X -> list Y) (g : X -> list W) (l : list X) :
  (forall x, x ∈ l -> length (f x) = length (g x)) ->
  length (l ≫= f) = length (l ≫= g).
Proof.
  induction l as [|x l IH]; intros Hlen; [reflexivity|].
  rewrite !bind_cons, !length_app, IH, Hlen; [reflexivity|now left|].
  intros y Hy. apply Hlen. now right.
Qed.

Lemma imap_ignore {X Y : Type} (h : X -> Y) (l : list X) :
  imap (fun _ x => h x) l = h <$> l.
Proof.
  induction l as [|x l IH]; [reflexivity|].
  rewrite imap_cons, fmap_cons. f_equal. exact IH.
Qed.

Section SparseCount.
Context {T : Type} `{Scalar T}.

Lemma nonZeros_by_columns (A : Sparse.SparseMatrix T) :
  Z.of_nat (length (Sparse.outer A)) = Sparse.cols A ->
  Sparse.nonZeros A = Z.of_nat (length (upto (Sparse.cols A) ≫= column A)).
Proof.
  intros Hlen. unfold Sparse.nonZeros, column. rewrite <- Hlen.
  rewrite (bind_columns (fun _ v => v)), imap_ignore.
  now rewrite list_fmap_id.
Qed.

Lemma distinct_nonZeros_by_columns (A : Sparse.SparseMatrix T) :
  Z.of_nat (length (Sparse.outer A)) = Sparse.cols A ->
  Sparse.distinct_nonZeros A =
  Z.of_nat (length (upto (Sparse.cols A) ≫=
                      (fun c => remove_dups ((column A c).*1)))).
Proof.
  intros Hlen. unfold Sparse.distinct_nonZeros, column. rewrite <- Hlen.
  now rewrite (bind_columns (fun _ v => remove_dups (v.*1))), imap_ignore.
Qed.

Lemma stored_index (v : list (Z * T)) key :
  key ∈ v.*1 <-> is_Some (Sparse.vlookup key v).
Proof.
  rewrite <- not_eq_None_Some, vlookup_None.
  destruct (decide (key ∈ v.*1)); tauto.
Qed.

Lemma sparse_count_when_sizes_fit (S SB0 : Sparse.SparseMatrix T) (d : Z) :
  Sparse.wf S -> fits (Sparse.rows S) (Sparse.cols S) d ->
  exists B,
    Sparse.repdiag S d SB0 = Ok B /\
    Sparse.nonZeros B = d * Sparse.distinct_nonZeros S.
Proof.
  intros HS Hfits. pose proof Hfits as (Hd & _).
  pose proof HS as (Hm & Hn & Hlen & _).
  destruct (sparse_general_pattern S SB0 d HS Hfits)
    as (B & Hrep & Hcols & HB & Hcan & Hpat).
  exists B. split; [exact Hrep|].
  pose proof HB as (_ & _ & HlenB & _).
  rewrite (nonZeros_by_columns B HlenB), (distinct_nonZeros_by_columns S Hlen).
  rewrite Hcols, upto_product, bind_bind_list by lia.
  rewrite (length_bind_const _ _
             (length (upto (Sparse.cols S) ≫=
                        (fun c => remove_dups ((column S c).*1))))).
  { rewrite length_upto. nia. }
  intros k Hk. apply elem_of_upto in Hk.
  rewrite bind_fmap_list. apply length_bind_ext.
  intros c Hc. apply elem_of_upto in Hc.
  rewrite <- (length_fmap fst (column B _)).
  rewrite <- (length_fmap (fun r => k * Sparse.rows S + r) (remove_dups _)).
  apply Permutation_length, NoDup_Permutation.
  - apply vsorted_NoDup. unfold column.
    destruct (Sparse.outer B !! _) as [v|] eqn:Ev; [|exact I].
    exact (Forall_lookup_1 _ _ _ _ Hcan Ev).
  - apply NoDup_fmap_2; [intros x y; lia|apply NoDup_remove_dups].
  - intros x. rewrite stored_index, <- entry_column by nia. rewrite Hpat.
    rewrite list_elem_of_fmap. split.
    + intros (k' & r & c' & Hk' & Hr & Hc' & -> & Hj & Hstored).
      assert (k' = k) as -> by nia. assert (c' = c) as -> by lia.
      exists r. split; [reflexivity|].
      apply elem_of_remove_dups, stored_index. now rewrite <- entry_column by lia.
    + intros (r & -> & Hr). rewrite elem_of_remove_dups in Hr.
      exists k, r, c.
      pose proof (column_in_range S c HS) as Hrange.
      rewrite Forall_forall in Hrange.
      apply list_elem_of_fmap in Hr as Hr'. destruct Hr' as (e & -> & He).
      specialize (Hrange e He). simpl in Hrange.
      repeat split; try lia.
      rewrite entry_column by lia. now apply stored_index.
Qed.

Lemma distinct_nonZeros_no_entries (S : Sparse.SparseMatrix T) :
  Z.of_nat (length (Sparse.outer S)) = Sparse.cols S ->
  concat (Sparse.outer S) = [] -> Sparse.distinct_nonZeros S = 0.
Proof.
  intros Hlen Hcat. rewrite (distinct_nonZeros_by_columns S Hlen).
  rewrite bind_all_nil; [reflexivity|]. intros c _.
  unfold column. now rewrite (concat_nil_columns _ _ Hcat).
Qed.

(** X18 (sparse overload): every result stores [d] times as many entries
    as the input stores different coordinates; a coordinate that the input
    stores several times counts once. The call returns such a result when
    the sizes fit; the count is an [int] in the code, and that part is
    for the counts that an [int] holds. *)
Theorem sparse_nonzeros_count_coordinates
    (S SB0 : Sparse.SparseMatrix T) (d : Z) :
  Sparse.wf S -> 0 <= d <= Int.max_int ->
  (forall B, Sparse.repdiag S d SB0 = Ok B ->
     Sparse.nonZeros B = d * Sparse.distinct_nonZeros S) /\
  (fits (Sparse.rows S) (Sparse.cols S) d ->
   d * Sparse.distinct_nonZeros S <= Int.max_int ->
   exists B,
     Sparse.repdiag S d SB0 = Ok B /\
     Sparse.nonZeros B = d * Sparse.distinct_nonZeros S /\
     0 <= Sparse.nonZeros B <= Int.max_int).
Proof.
  intros HS Hd. split.
  - intros B Hrep.
    destruct (concat (Sparse.outer S)) as [|e0 l] eqn:Hcat.
    + pose proof HS as (_ & _ & Hlen & _).
      rewrite (distinct_nonZeros_no_entries S Hlen Hcat).
      apply (sparse_repdiag_no_entries S d SB0 B Hcat) in Hrep. subst B.
      unfold Sparse.nonZeros. simpl. rewrite concat_replicate_nil. simpl. lia.
    + assert (fits (Sparse.rows S) (Sparse.cols S) d) as Hfits.
      { apply (sparse_returns_with_entry_fits S SB0 B d); try assumption.
        rewrite Hcat. discriminate. }
      destruct (sparse_count_when_sizes_fit S SB0 d HS Hfits) as (B' & Hrep' & Heq).
      rewrite Hrep in Hrep'. now injection Hrep' as ->.
  - intros Hfits Hcount.
    destruct (sparse_count_when_sizes_fit S SB0 d HS Hfits) as (B & Hrep & Heq).
    exists B. split; [exact Hrep|]. split; [exact Heq|].
    unfold Sparse.nonZeros in *. lia.
Qed.

End SparseCount.

(** ** Results as inputs, and the dense overload on doubles *)

Section FixedPoints.
Context {T : Type} `{Scalar T}.

(** X19 (both overloads): a result is left as it is by one more
    repetition. Whatever [A] and [d] were, and also when the sizes had
    wrapped around, a matrix that the dense overload has returned is
    returned unchanged by [repdiag(B, 1)], for every element type; so is
    one that the sparse overload has returned, when [0 + x = x]. *)
Theorem results_are_fixed_points
    (heap heap' : nat -> T) (A B0 B0' B : Dense.Matrix T)
    (S SB0 SB0' SB : Sparse.SparseMatrix T) (d : Z) :
  Dense.wf B0 -> Dense.wf B0' ->
  (Dense.repdiag heap A d B0 = Ok B -> Dense.repdiag heap' B 1 B0' = Ok B) /\
  ((forall x : T, add zero x = x) ->
   Sparse.repdiag S d SB0 = Ok SB -> Sparse.repdiag SB 1 SB0' = Ok SB).
Proof.
  intros HB0 HB0'. split.
  - intros Hrep. pose proof (dense_result_wf _ _ _ _ _ HB0 Hrep) as HB.
    apply dense_result_dims in Hrep. unfold Dense.requested_dims in Hrep.
    cbv zeta in Hrep. rewrite !mul_of_index in Hrep. injection Hrep as Hr Hc.
    pose proof (wrap_range (Dense.rows A * d)) as [_ Hrmax].
    pose proof (wrap_range (Dense.cols A * d)) as [_ Hcmax].
    apply dense_repdiag_one; [assumption|assumption| |]; lia.
  - intros add_zero_l Hrep.
    destruct (sparse_result_wf S SB0 SB d Hrep) as [HB Hcan].
    now apply sparse_repdiag_one.
Qed.

End FixedPoints.

Lemma double_times_zero (x : double) : mul x zero = times_zero x.
Proof. now destruct x as [[|]|[|]| |[|] m e]. Qed.

(** X20 (dense overload on doubles, [B.array() *= 0]): outside the
    diagonal blocks the result holds a zero with the sign of the old
    content where the resized [B] held a finite number, and NaN where it
    held an infinity or a NaN. *)
Theorem dense_double_outside_blocks
    (heap : nat -> double) (A B0 : Dense.Matrix double) (d : Z) :
  Dense.wf A -> Dense.wf B0 -> fits (Dense.rows A) (Dense.cols A) d ->
  exists B1 B,
    Dense.resize heap B0 (Dense.rows A * d) (Dense.cols A * d) = Ok B1 /\
    Dense.repdiag heap A d B0 = Ok B /\
    forall i j,
      ~ (exists k, 0 <= k < d /\
           in_rect (k * Dense.rows A) (k * Dense.cols A)
                   (Dense.rows A) (Dense.cols A) i j) ->
      Dense.coeff B i j = times_zero <$> Dense.coeff B1 i j.
Proof.
  intros HA HB0 Hfits.
  destruct (dense_repdiag_spec heap A d B0 HA HB0 Hfits)
    as (B1 & B & Hres & Hrep & _ & _ & _ & _ & Hoff).
  exists B1, B. split; [exact Hres|]. split; [exact Hrep|].
  intros i j Hout. rewrite (Hoff i j Hout).
  destruct (Dense.coeff B1 i j) as [x|]; [|reflexivity].
  simpl. f_equal. apply double_times_zero.
Qed.

(** ** The properties on concrete inputs *)

Lemma dense_result_is_well_formed_witness :
  Dense.wf A22_twice /\
  (forall i j, 0 <= i < Dense.rows A22_twice -> 0 <= j < Dense.cols A22_twice ->
     is_Some (Dense.coeff A22_twice i j)).
Proof.
  apply (dense_result_is_well_formed stale A22 Dense.empty A22_twice 2);
    [solve_side | reflexivity].
Defined.

Lemma dense_result_has_exact_size_witness :
  fits (Dense.rows A22) (Dense.cols A22) 2 /\
  Dense.rows A22_twice = Dense.rows A22 * 2 /\
  Dense.cols A22_twice = Dense.cols A22 * 2.
Proof.
  apply (dense_result_has_exact_size stale A22 Dense.empty A22_twice 2);
    [solve_side | reflexivity].
Defined.

Lemma dense_outside_blocks_is_old_times_zero_witness :
  exists B1 B,
    Dense.resize stale Dense.empty (Dense.rows A22 * 2) (Dense.cols A22 * 2) = Ok B1 /\
    Dense.data B1 =
      (if Dense.rows A22 * 2 * (Dense.cols A22 * 2) =?
          Dense.rows (T:=Int.int) Dense.empty * Dense.cols (T:=Int.int) Dense.empty
       then Dense.data Dense.empty
       else stale <$> seq 0 (Z.to_nat (Dense.rows A22 * 2 * (Dense.cols A22 * 2)))) /\
    Dense.repdiag stale A22 2 Dense.empty = Ok B /\
    forall i j,
      ~ (exists k, 0 <= k < 2 /\
           in_rect (k * Dense.rows A22) (k * Dense.cols A22)
                   (Dense.rows A22) (Dense.cols A22) i j) ->
      Dense.coeff B i j = (fun x => mul x zero) <$> Dense.coeff B1 i j.
Proof.
  apply (dense_outside_blocks_is_old_times_zero stale A22 Dense.empty 2); solve_side.
Defined.

Lemma dense_result_ignores_old_contents_witness :
  Dense.repdiag stale A22 2 Dense.empty = Dense.repdiag (fun _ => Int.of_Z 0) A22 2 A22_twice /\
  repdiag (Dense_RepDiag stale) A22 2 = repdiag (Dense_RepDiag (fun _ => Int.of_Z 0)) A22 2.
Proof.
  apply (dense_result_ignores_old_contents (T:=Int.int));
    [exact int_mul_zero_r | solve_side ..].
Defined.

Lemma aliased_call_loses_the_input_witness :
  Dense.repdiag_aliased stale A22 0 = Ok Dense.empty /\
  Dense.repdiag_aliased stale A22 1 = Ok (Dense.array_mul_zero A22) /\
  (2 <= 2 <= Int.max_int -> Dense.rows A22 <> 0 \/ Dense.cols A22 <> 0 ->
   Dense.repdiag_aliased stale A22 2 = Err AssertionFailed).
Proof.
  apply (aliased_call_loses_the_input stale A22 2); solve_side.
Defined.

Lemma sparse_result_is_compressed_witness :
  Sparse.wf S33_twice /\ Sparse.canonical S33_twice /\ Sparse.no_duplicates S33_twice.
Proof.
  apply (sparse_result_is_compressed S33 Sparse.empty S33_twice 2). reflexivity.
Defined.

Lemma sparse_result_has_exact_size_or_no_entry_witness :
  (fits (Sparse.rows S33) (Sparse.cols S33) 2 /\
   Sparse.rows S33_twice = Sparse.rows S33 * 2 /\
   Sparse.cols S33_twice = Sparse.cols S33 * 2) /\
  Sparse.mk 0 4 [[]; []; []; []] =
    Sparse.mk (Int.wrap (Sparse.rows tall_sparse * 4))
              (Int.wrap (Sparse.cols tall_sparse * 4))
              (replicate (Z.to_nat (Int.wrap (Sparse.cols tall_sparse * 4)))
                         ([] : list (Z * Int.int))).
Proof.
  split.
  - apply (sparse_result_has_exact_size_or_no_entry S33 Sparse.empty S33_twice 2);
      [solve_side | solve_side | reflexivity |].
    vm_compute. discriminate.
  - apply (sparse_result_has_exact_size_or_no_entry tall_sparse Sparse.empty
             (Sparse.mk 0 4 [[]; []; []; []]) 4);
      [solve_side | solve_side | reflexivity | reflexivity].
Defined.

Lemma sparse_duplicates_are_summed_witness :
  exists B,
    Sparse.repdiag S_twice 2 Sparse.empty = Ok B /\
    Sparse.no_duplicates B /\
    (forall k r c, 0 <= k < 2 -> 0 <= r < Sparse.rows S_twice ->
       0 <= c < Sparse.cols S_twice ->
       Sparse.entry B (k * Sparse.rows S_twice + r) (k * Sparse.cols S_twice + c) =
       Sparse.accumulated None (Sparse.stored_under r (column S_twice c))) /\
    Sparse.nonZeros B <= 2 * Sparse.nonZeros S_twice.
Proof.
  apply (sparse_duplicates_are_summed S_twice Sparse.empty 2); solve_side.
Defined.

Lemma sparse_stores_nothing_outside_blocks_witness :
  exists B,
    Sparse.repdiag S_twice 2 Sparse.empty = Ok B /\
    forall i j,
      ~ (exists k, 0 <= k < 2 /\
           in_rect (k * Sparse.rows S_twice) (k * Sparse.cols S_twice)
                   (Sparse.rows S_twice) (Sparse.cols S_twice) i j) ->
      Sparse.entry B i j = None.
Proof.
  apply (sparse_stores_nothing_outside_blocks S_twice Sparse.empty 2); solve_side.
Defined.

Lemma sparse_double_values_witness :
  exists B,
    Sparse.repdiag SD22 2 Sparse.empty = Ok B /\
    forall k r c, 0 <= k < 2 -> 0 <= r < Sparse.rows SD22 -> 0 <= c < Sparse.cols SD22 ->
      Sparse.entry B (k * Sparse.rows SD22 + r) (k * Sparse.cols SD22 + c) =
      unsigned_zero <$> Sparse.entry SD22 r c.
Proof.
  apply (sparse_double_values SD22 Sparse.empty 2); solve_side.
Defined.

Lemma dense_result_in_closed_form_witness :
  exists B,
    Dense.repdiag stale A22 2 Dense.empty = Ok B /\
    forall i j,
      Dense.coeff B i j =
      if decide (0 <= i < Dense.rows A22 * 2 /\ 0 <= j < Dense.cols A22 * 2) then
        if i / Dense.rows A22 =? j / Dense.cols A22
        then Dense.coeff A22 (i mod Dense.rows A22) (j mod Dense.cols A22)
        else Some zero
      else None.
Proof.
  apply (dense_result_in_closed_form (T:=Int.int));
    [exact int_mul_zero_r | solve_side ..].
Defined.

Lemma sparse_result_in_closed_form_witness :
  exists B,
    Sparse.repdiag S33 2 Sparse.empty = Ok B /\
    forall i j,
      Sparse.coeff B i j =
      if decide (0 <= i < Sparse.rows S33 * 2 /\ 0 <= j < Sparse.cols S33 * 2) then
        if i / Sparse.rows S33 =? j / Sparse.cols S33
        then Sparse.coeff S33 (i mod Sparse.rows S33) (j mod Sparse.cols S33)
        else Some zero
      else None.
Proof.
  apply (sparse_result_in_closed_form (T:=Int.int)); [exact int_add_zero_l | solve_side ..].
Defined.

(** The coefficients of a 2 by 2 matrix, coordinate by coordinate. *)
Lemma two_by_two (P : Z -> Z -> Prop) :
  P 0 0 -> P 0 1 -> P 1 0 -> P 1 1 ->
  (forall r c, ~ (0 <= r < 2 /\ 0 <= c < 2) -> P r c) ->
  forall r c, P r c.
Proof.
  intros H00 H01 H10 H11 Hout r c.
  destruct (decide (0 <= r < 2 /\ 0 <= c < 2)) as [[Hr Hc]|Hno]; [|now apply Hout].
  assert (r = 0 \/ r = 1) as [-> | ->] by lia;
    assert (c = 0 \/ c = 1) as [-> | ->] by lia; assumption.
Qed.

Lemma entry_outside_two (S : Sparse.SparseMatrix Int.int) r c :
  Sparse.wf S -> Sparse.rows S = 2 -> Sparse.cols S = 2 ->
  ~ (0 <= r < 2 /\ 0 <= c < 2) -> Sparse.entry S r c = None.
Proof.
  intros HS Hr Hc Hout. apply entry_out_of_range; [exact HS|].
  now rewrite Hr, Hc.
Qed.

(** Side conditions on concrete matrices whose columns store several
    entries. *)
Ltac solve_concrete :=
  solve_side;
  try (let Hin := fresh "Hin" in
       intros Hin; simpl in Hin;
       repeat (apply elem_of_cons in Hin as [Hin|Hin]; [lia|]);
       now apply elem_of_nil in Hin).

Lemma overloads_agree_witness :
  exists BD BS,
    Dense.repdiag stale A22 2 Dense.empty = Ok BD /\
    Sparse.repdiag S22 2 Sparse.empty = Ok BS /\
    Sparse.rows BS = Dense.rows BD /\ Sparse.cols BS = Dense.cols BD /\
    forall i j, Sparse.coeff BS i j = Dense.coeff BD i j.
Proof.
  apply (overloads_agree (T:=Int.int));
    [exact int_mul_zero_r | exact int_add_zero_l | solve_concrete ..].
  apply (two_by_two (fun r c => Sparse.coeff S22 r c = Dense.coeff A22 r c));
    try reflexivity.
  intros r c Hout. rewrite coeff_out_of_bounds by exact Hout.
  now apply sparse_coeff_outside.
Defined.

Lemma sparse_result_ignores_storage_order_witness :
  exists B,
    Sparse.repdiag S22 2 Sparse.empty = Ok B /\
    Sparse.repdiag S22_unordered 2 Sparse.empty = Ok B /\
    Sparse.canonical B.
Proof.
  apply (sparse_result_ignores_storage_order (T:=Int.int)); [solve_concrete ..| |solve_concrete].
  apply (two_by_two (fun r c => Sparse.entry S22 r c = Sparse.entry S22_unordered r c));
    try reflexivity.
  intros r c Hout. rewrite !entry_outside_two; solve_concrete.
Defined.

Lemma symmetry_is_preserved_witness :
  (exists B, Dense.repdiag stale A_sym 2 Dense.empty = Ok B /\
             forall i j, Dense.coeff B i j = Dense.coeff B j i) /\
  (exists B, Sparse.repdiag S_sym 2 Sparse.empty = Ok B /\
             forall i j, Sparse.coeff B i j = Sparse.coeff B j i).
Proof.
  destruct (symmetry_is_preserved (T:=Int.int) int_mul_zero_r int_add_zero_l stale
              A_sym Dense.empty S_sym Sparse.empty 2) as [HD HS]; [solve_concrete ..|].
  split.
  - apply HD; [reflexivity|].
    apply (two_by_two (fun r c => Dense.coeff A_sym r c = Dense.coeff A_sym c r));
      try reflexivity.
    intros r c Hout. rewrite !coeff_out_of_bounds; [reflexivity| |]; simpl; lia.
  - apply HS; [reflexivity|].
    apply (two_by_two (fun r c => Sparse.coeff S_sym r c = Sparse.coeff S_sym c r));
      try reflexivity.
    intros r c Hout. rewrite !sparse_coeff_outside; [reflexivity| |]; simpl; lia.
Defined.

Lemma sparse_pattern_is_replicated_witness :
  exists B,
    Sparse.repdiag S_twice 2 Sparse.empty = Ok B /\
    forall i j,
      is_Some (Sparse.entry B i j) <->
      exists k r c,
        0 <= k < 2 /\ 0 <= r < Sparse.rows S_twice /\ 0 <= c < Sparse.cols S_twice /\
        i = k * Sparse.rows S_twice + r /\ j = k * Sparse.cols S_twice + c /\
        is_Some (Sparse.entry S_twice r c).
Proof.
  apply (sparse_pattern_is_replicated S_twice Sparse.empty 2); solve_side.
Defined.

Lemma empty_input_gives_empty_result_witness :
  Dense.repdiag stale Dense.empty 5 A22 = Ok Dense.empty /\
  Sparse.repdiag (T:=Int.int) Sparse.empty 5 S33 = Ok Sparse.empty.
Proof.
  apply (empty_input_gives_empty_result stale A22 S33 5). solve_side.
Defined.

Lemma sparse_nonzeros_count_coordinates_witness :
  exists B,
    Sparse.repdiag S_twice 2 Sparse.empty = Ok B /\
    Sparse.nonZeros B = 2 * Sparse.distinct_nonZeros S_twice /\
    0 <= Sparse.nonZeros B <= Int.max_int.
Proof.
  destruct (sparse_nonzeros_count_coordinates S_twice Sparse.empty 2)
    as [_ Hreturns]; [solve_side | solve_side |].
  apply Hreturns; [solve_side | vm_compute; discriminate].
Defined.

Lemma results_are_fixed_points_witness :
  Dense.repdiag stale A22 2 Dense.empty = Ok A22_twice /\
  Dense.repdiag stale A22_twice 1 A22 = Ok A22_twice /\
  Sparse.repdiag S33 2 Sparse.empty = Ok S33_twice /\
  Sparse.repdiag S33_twice 1 S33 = Ok S33_twice /\
  Dense.repdiag (fun _ => d_nan) D22 1 B_nan = Ok D22 /\
  Dense.repdiag (fun _ => d_nan) D22 1 B_zero = Ok D22.
Proof.
  destruct (results_are_fixed_points stale stale
              A22 Dense.empty A22 A22_twice S33 Sparse.empty S33 S33_twice 2)
    as [HD HS]; [solve_side ..|].
  destruct (results_are_fixed_points (fun _ => d_nan) (fun _ => d_nan)
              D22 B_nan B_zero D22 SD22 Sparse.empty Sparse.empty SD22 1)
    as [HD' _]; [solve_side ..|].
  split; [reflexivity|]. split; [now apply HD|].
  split; [reflexivity|]. split; [apply HS; [exact int_add_zero_l|reflexivity]|].
  split; [reflexivity|]. apply HD'. reflexivity.
Defined.

Lemma dense_double_outside_blocks_witness :
  exists B1 B,
    Dense.resize (fun _ => d_nan) B_nan (Dense.rows D22 * 2) (Dense.cols D22 * 2) = Ok B1 /\
    Dense.repdiag (fun _ => d_nan) D22 2 B_nan = Ok B /\
    forall i j,
      ~ (exists k, 0 <= k < 2 /\
           in_rect (k * Dense.rows D22) (k * Dense.cols D22)
                   (Dense.rows D22) (Dense.cols D22) i j) ->
      Dense.coeff B i j = times_zero <$> Dense.coeff B1 i j.
Proof.
  apply (dense_double_outside_blocks (fun _ => d_nan) D22 B_nan 2); solve_side.
Defined.

(** * Blocks, one repetition, entry count and composition *)

Section MapValues.
Context {T : Type} `{Scalar T}.

Lemma vlookup_fmap_values (f : T -> T) key (v : list (Z * T)) :
  Sparse.vlookup key ((fun e : Z * T => (e.1, f e.2)) <$> v) =
  f <$> Sparse.vlookup key v.
Proof.
  induction v as [|e v IH]; [reflexivity|].
  rewrite fmap_cons. simpl. destruct (e.1 =? key); [reflexivity|exact IH].
Qed.

Lemma entry_map_values (f : T -> T) (A : Sparse.SparseMatrix T) i j :
  Sparse.entry (Sparse.map_values f A) i j = f <$> Sparse.entry A i j.
Proof.
  unfold Sparse.entry, Sparse.map_values. simpl.
  destruct (0 <=? j); [|reflexivity].
  rewrite list_lookup_fmap.
  destruct (Sparse.outer A !! Z.to_nat j) as [v|]; [|reflexivity].
  simpl. apply vlookup_fmap_values.
Qed.

Lemma wf_map_values (f : T -> T) (A : Sparse.SparseMatrix T) :
  Sparse.wf A -> Sparse.wf (Sparse.map_values f A).
Proof.
  intros (Hr & Hc & Hlen & Hrange). unfold Sparse.wf, Sparse.map_values. simpl.
  rewrite length_fmap. repeat split; try lia.
  apply Forall_fmap. eapply Forall_impl; [exact Hrange|].
  intros v Hv. simpl. apply Forall_fmap. eapply Forall_impl; [exact Hv|].
  intros e He. exact He.
Qed.

Lemma vsorted_fmap_values (f : T -> T) (v : list (Z * T)) :
  Sparse.vsorted v -> Sparse.vsorted ((fun e : Z * T => (e.1, f e.2)) <$> v).
Proof.
  induction v as [|e v IH]; [intros; exact I|].
  intros [Hlt Hv]. rewrite fmap_cons. simpl. split; [|now apply IH].
  apply Forall_fmap. eapply Forall_impl; [exact Hlt|]. intros e' He'. exact He'.
Qed.

Lemma canonical_map_values (f : T -> T) (A : Sparse.SparseMatrix T) :
  Sparse.canonical A -> Sparse.canonical (Sparse.map_values f A).
Proof.
  unfold Sparse.canonical, Sparse.map_values. simpl. intros Hcan.
  apply Forall_fmap. eapply Forall_impl; [exact Hcan|].
  intros v. apply vsorted_fmap_values.
Qed.

(** One repetition of a sparse matrix in compressed form, for every
    element type: the stored values go through [0 + x]. *)
Lemma sparse_repdiag_one_general (S SB0 : Sparse.SparseMatrix T) :
  Sparse.wf S -> Sparse.canonical S ->
  Sparse.repdiag S 1 SB0 = Ok (Sparse.map_values (add zero) S).
Proof.
  intros HS Hcan. pose proof HS as (Hm & Hn & _).
  assert (fits (Sparse.rows S) (Sparse.cols S) 1) as Hfits
    by (unfold fits, Int.max_int in *; lia).
  assert (Sparse.no_duplicates S) as Hnd.
  { unfold Sparse.no_duplicates. eapply Forall_impl; [exact Hcan|].
    intros v. apply vsorted_NoDup. }
  destruct (sparse_repdiag_spec S 1 SB0 HS Hnd Hfits)
    as (B & Hrep & Hr & Hc & HB & HcanB & Hent & _).
  rewrite Hrep. f_equal.
  apply sparse_ext; try assumption.
  - now apply wf_map_values.
  - now apply canonical_map_values.
  - simpl. lia.
  - simpl. lia.
  - intros i j. rewrite entry_map_values. apply option_eq. intros y.
    rewrite Hent. split.
    + intros (k & r & c & x & Hk & Hr' & Hc' & -> & -> & Hx & ->).
      assert (k = 0) as -> by lia. rewrite !Z.mul_0_l, !Z.add_0_l, Hx.
      reflexivity.
    + intros Hy. destruct (Sparse.entry S i j) as [x|] eqn:Hx; [|discriminate].
      injection Hy as <-.
      destruct (decide (0 <= i < Sparse.rows S /\ 0 <= j < Sparse.cols S))
        as [[Hi Hj]|Hout].
      * exists 0, i, j, x. repeat split; try lia. exact Hx.
      * rewrite (entry_out_of_range S i j HS Hout) in Hx. discriminate.
Qed.

End MapValues.

Section BlocksAndCounts.
Context {T : Type} `{Scalar T}.

(** C1 (as amended): when [d >= 0] and the products [m*d] and [n*d] fit in
    an [int], the call returns a matrix whose sub-block at rows
    [k*m, (k+1)*m) and columns [k*n, (k+1)*n), for every [k] in [0, d),
    is [A]: in the dense overload coefficient for coefficient, for every
    element type; in the sparse overload with the stored coordinates of
    [A], each holding the stored values of [A] added to 0, that is
    [0 + v] for the one stored [v] when [A] stores no coordinate twice.
    [0 + v] is [v] for an [int]; for a double it is [v], except that
    [-0.0] becomes [+0.0]. *)
Theorem C1_diagonal_blocks_equal_A
    (heap : nat -> T) (A B0 : Dense.Matrix T) (S SB0 : Sparse.SparseMatrix T) (d : Z) :
  Dense.wf A -> Dense.wf B0 -> Sparse.wf S ->
  fits (Dense.rows A) (Dense.cols A) d ->
  fits (Sparse.rows S) (Sparse.cols S) d ->
  (exists B, Dense.repdiag heap A d B0 = Ok B /\
     forall k r c, 0 <= k < d -> 0 <= r < Dense.rows A -> 0 <= c < Dense.cols A ->
       Dense.coeff B (k * Dense.rows A + r) (k * Dense.cols A + c) = Dense.coeff A r c) /\
  (exists B, Sparse.repdiag S d SB0 = Ok B /\
     forall k r c, 0 <= k < d -> 0 <= r < Sparse.rows S -> 0 <= c < Sparse.cols S ->
       Sparse.entry B (k * Sparse.rows S + r) (k * Sparse.cols S + c) =
         Sparse.accumulated None (Sparse.stored_under r (column S c)) /\
       (Sparse.no_duplicates S ->
        Sparse.entry B (k * Sparse.rows S + r) (k * Sparse.cols S + c) =
          add zero <$> Sparse.entry S r c) /\
       (Sparse.no_duplicates S -> (forall x : T, add zero x = x) ->
        Sparse.entry B (k * Sparse.rows S + r) (k * Sparse.cols S + c) =
          Sparse.entry S r c /\
        Sparse.coeff B (k * Sparse.rows S + r) (k * Sparse.cols S + c) =
          Sparse.coeff S r c)) /\
  (forall x : Int.int, add zero x = x) /\
  (forall x : double, add zero x = unsigned_zero x).
Proof.
  intros HA HB0 HS HfA HfS. split; [|split; [|split]].
  - destruct (dense_repdiag_spec heap A d B0 HA HB0 HfA)
      as (_ & B & _ & HB & _ & _ & _ & Hblock & _).
    exists B. auto.
  - destruct (sparse_repdiag_general S SB0 d HS HfS)
      as (B & Hrep & Hr & Hc & _ & _ & Hent & _).
    exists B. split; [exact Hrep|]. intros k r c Hk Hr' Hc'.
    assert (Sparse.entry B (k * Sparse.rows S + r) (k * Sparse.cols S + c) =
            Sparse.accumulated None (Sparse.stored_under r (column S c))) as Hacc
      by now rewrite Hent, inserted_on_block.
    assert (Sparse.no_duplicates S ->
            Sparse.entry B (k * Sparse.rows S + r) (k * Sparse.cols S + c) =
            add zero <$> Sparse.entry S r c) as Hone.
    { intros Hnd. rewrite Hacc, stored_under_NoDup by now apply column_NoDup.
      rewrite entry_column by lia.
      now destruct (Sparse.vlookup r (column S c)). }
    split; [exact Hacc|]. split; [exact Hone|].
    intros Hnd Hlaw.
    assert (Sparse.entry B (k * Sparse.rows S + r) (k * Sparse.cols S + c) =
            Sparse.entry S r c) as Hsame.
    { rewrite (Hone Hnd). destruct (Sparse.entry S r c) as [x|]; [|reflexivity].
      simpl. now rewrite Hlaw. }
    split; [exact Hsame|].
    rewrite !coeff_entry by nia. now rewrite Hsame.
  - exact int_add_zero_l.
  - exact double_zero_plus.
Qed.

(** C4 (as amended): for every dense [A] whose numbers of rows and columns
    fit in an [int], [repdiag(A, 1)] returns [A] itself, for every element
    type. For every sparse [A] in compressed form (each column in
    strictly increasing order of the rows) it returns the matrix of the
    same sizes and the same stored coordinates in which each stored
    value [v] is replaced by [0 + v]: [A] itself when [0 + v = v], as for
    an [int]; for doubles [A] with each stored [-0.0] replaced by
    [+0.0]. *)
Theorem C4_one_repetition_is_identity
    (heap : nat -> T) (A B0 : Dense.Matrix T) (S SB0 : Sparse.SparseMatrix T) :
  Dense.wf A -> Dense.wf B0 ->
  Dense.rows A <= Int.max_int -> Dense.cols A <= Int.max_int ->
  Sparse.wf S -> Sparse.canonical S ->
  Dense.repdiag heap A 1 B0 = Ok A /\
  Sparse.repdiag S 1 SB0 = Ok (Sparse.map_values (add zero) S) /\
  ((forall x : T, add zero x = x) -> Sparse.repdiag S 1 SB0 = Ok S) /\
  (forall x : Int.int, add zero x = x) /\
  (forall x : double, add zero x = unsigned_zero x).
Proof.
  intros HA HB0 Hm Hn HS Hcan. split; [|split; [|split; [|split]]].
  - now apply dense_repdiag_one.
  - now apply sparse_repdiag_one_general.
  - intros Hlaw. now apply sparse_repdiag_one.
  - exact int_add_zero_l.
  - exact double_zero_plus.
Qed.

(** C6: for a sparse [A] that stores no coordinate twice and [d >= 0],
    every result of [repdiag(A, d)] stores [d] times as many entries as
    [A], whether or not [A] stores zeros. The call returns such a result
    when [m*d] and [n*d] fit in an [int]; the count is an [int] in the
    code, and that part is for the counts that an [int] holds. *)
Theorem C6_nonzeros_scale
    (S SB0 : Sparse.SparseMatrix T) (d : Z) :
  Sparse.wf S -> Sparse.no_duplicates S -> 0 <= d <= Int.max_int ->
  (forall B, Sparse.repdiag S d SB0 = Ok B ->
     Sparse.nonZeros B = d * Sparse.nonZeros S) /\
  (fits (Sparse.rows S) (Sparse.cols S) d ->
   d * Sparse.nonZeros S <= Int.max_int ->
   exists B, Sparse.repdiag S d SB0 = Ok B /\
             Sparse.nonZeros B = d * Sparse.nonZeros S /\
             0 <= Sparse.nonZeros B <= Int.max_int).
Proof.
  intros HS Hnd Hd.
  assert (forall B, fits (Sparse.rows S) (Sparse.cols S) d ->
            Sparse.repdiag S d SB0 = Ok B ->
            Sparse.nonZeros B = d * Sparse.nonZeros S) as Hfit.
  { intros B Hfits Hrep.
    destruct (sparse_repdiag_spec S d SB0 HS Hnd Hfits)
      as (B' & Hrep' & _ & _ & _ & _ & _ & Hnnz).
    rewrite Hrep in Hrep'. now injection Hrep' as ->. }
  split.
  - intros B Hrep.
    destruct (concat (Sparse.outer S)) as [|e0 l] eqn:Hcat.
    + apply (sparse_repdiag_no_entries S d SB0 B Hcat) in Hrep. subst B.
      unfold Sparse.nonZeros. simpl. rewrite concat_replicate_nil, Hcat. simpl. lia.
    + apply Hfit; [|exact Hrep].
      apply (sparse_returns_with_entry_fits S SB0 B d); try assumption.
      rewrite Hcat. discriminate.
  - intros Hfits Hcount.
    destruct (sparse_repdiag_spec S d SB0 HS Hnd Hfits)
      as (B & Hrep & _ & _ & _ & _ & _ & Hnnz).
    exists B. split; [exact Hrep|]. split; [exact Hnnz|].
    unfold Sparse.nonZeros in *. lia.
Qed.

End BlocksAndCounts.


(** ** The claims on concrete inputs *)

Lemma C1_witness :
  (exists B, Dense.repdiag stale A22 2 Dense.empty = Ok B /\
     forall k r c, 0 <= k < 2 -> 0 <= r < Dense.rows A22 -> 0 <= c < Dense.cols A22 ->
       Dense.coeff B (k * Dense.rows A22 + r) (k * Dense.cols A22 + c) =
       Dense.coeff A22 r c) /\
  (exists B, Sparse.repdiag S33 2 Sparse.empty = Ok B /\
     forall k r c, 0 <= k < 2 -> 0 <= r < Sparse.rows S33 -> 0 <= c < Sparse.cols S33 ->
       Sparse.entry B (k * Sparse.rows S33 + r) (k * Sparse.cols S33 + c) =
       Sparse.entry S33 r c) /\
  (exists B, Dense.repdiag (fun _ => d_nan) D22 2 B_nan = Ok B /\
     forall k r c, 0 <= k < 2 -> 0 <= r < Dense.rows D22 -> 0 <= c < Dense.cols D22 ->
       Dense.coeff B (k * Dense.rows D22 + r) (k * Dense.cols D22 + c) =
       Dense.coeff D22 r c) /\
  (exists B, Sparse.repdiag SD22 2 Sparse.empty = Ok B /\
     forall k r c, 0 <= k < 2 -> 0 <= r < Sparse.rows SD22 -> 0 <= c < Sparse.cols SD22 ->
       Sparse.entry B (k * Sparse.rows SD22 + r) (k * Sparse.cols SD22 + c) =
       unsigned_zero <$> Sparse.entry SD22 r c).
Proof.
  destruct (C1_diagonal_blocks_equal_A stale A22 Dense.empty S33 Sparse.empty 2)
    as (HD & (B & HB & Hent) & Hint & _); [solve_side ..|].
  destruct (C1_diagonal_blocks_equal_A (fun _ => d_nan) D22 B_nan SD22 Sparse.empty 2)
    as (HD' & (B' & HB' & Hent') & _ & Hdouble); [solve_side ..|].
  split; [exact HD|]. split; [|split; [exact HD'|]].
  - exists B. split; [exact HB|]. intros k r c Hk Hr Hc.
    destruct (Hent k r c Hk Hr Hc) as (_ & _ & Hsame).
    apply Hsame; [solve_side|exact Hint].
  - exists B'. split; [exact HB'|]. intros k r c Hk Hr Hc.
    destruct (Hent' k r c Hk Hr Hc) as (_ & Hone & _).
    rewrite Hone by solve_side.
    destruct (Sparse.entry SD22 r c) as [x|]; [|reflexivity].
    simpl. f_equal. apply Hdouble.
Defined.

(** Counterexample to C1 as stated. For a 2^30 by 1 sparse matrix without
    entries and [d = 4] the product [m*d] is 2^32: the call returns a
    0 by 4 matrix, in which the block of [k = 0] does not exist. For a
    sparse matrix of doubles that stores [-0.0] at (0, 0) the blocks hold
    [+0.0] there. *)
Lemma C1_counterexample :
  ~ (exists B, Sparse.repdiag tall_sparse 4 Sparse.empty = Ok B /\
       forall k r c, 0 <= k < 4 ->
         0 <= r < Sparse.rows tall_sparse -> 0 <= c < Sparse.cols tall_sparse ->
         Sparse.coeff B (k * Sparse.rows tall_sparse + r)
                        (k * Sparse.cols tall_sparse + c) =
         Sparse.coeff tall_sparse r c) /\
  ~ (exists B, Sparse.repdiag SD22 2 Sparse.empty = Ok B /\
       forall k r c, 0 <= k < 2 ->
         0 <= r < Sparse.rows SD22 -> 0 <= c < Sparse.cols SD22 ->
         Sparse.coeff B (k * Sparse.rows SD22 + r) (k * Sparse.cols SD22 + c) =
         Sparse.coeff SD22 r c).
Proof.
  split.
  - intros (B & HB & Hall). vm_compute in HB. injection HB as <-.
    specialize (Hall 0 0 0 ltac:(lia) ltac:(simpl; lia) ltac:(simpl; lia)).
    vm_compute in Hall. discriminate.
  - intros (B & HB & Hall). vm_compute in HB. injection HB as <-.
    specialize (Hall 0 0 0 ltac:(lia) ltac:(simpl; lia) ltac:(simpl; lia)).
    vm_compute in Hall. discriminate.
Qed.

Lemma C4_witness :
  Dense.repdiag stale A22 1 Dense.empty = Ok A22 /\
  Sparse.repdiag S33 1 Sparse.empty = Ok S33 /\
  Dense.repdiag (fun _ => d_nan) D22 1 B_nan = Ok D22 /\
  Sparse.repdiag SD22 1 Sparse.empty = Ok (Sparse.map_values unsigned_zero SD22).
Proof.
  destruct (C4_one_repetition_is_identity stale A22 Dense.empty S33 Sparse.empty)
    as (HD & _ & HS & Hint & _); [solve_side ..|].
  destruct (C4_one_repetition_is_identity (fun _ => d_nan) D22 B_nan SD22 Sparse.empty)
    as (HD' & HS' & _); [solve_side ..|].
  split; [exact HD|]. split; [exact (HS Hint)|]. split; [exact HD'|exact HS'].
Defined.

(** Counterexample to C4 as stated. A sparse matrix of doubles in
    compressed form that stores [-0.0] comes back with [+0.0] in its
    place; a sparse matrix that stores a coordinate twice comes back with
    one entry there, and one whose column is not in increasing order comes
    back ordered; for a dense matrix with 2^31 rows and no column
    [int m = A.rows()] is negative and the call fails. *)
Lemma C4_counterexample :
  (Sparse.wf SD22 /\ Sparse.canonical SD22 /\
   exists B, Sparse.repdiag SD22 1 Sparse.empty = Ok B /\ B <> SD22) /\
  (Sparse.wf S_twice /\
   exists B, Sparse.repdiag S_twice 1 Sparse.empty = Ok B /\ B <> S_twice) /\
  (Sparse.wf S22_unordered /\ Sparse.no_duplicates S22_unordered /\
   exists B, Sparse.repdiag S22_unordered 1 Sparse.empty = Ok B /\
             B <> S22_unordered) /\
  (Dense.wf huge_dense /\
   Dense.repdiag stale huge_dense 1 Dense.empty <> Ok huge_dense).
Proof.
  split; [|split; [|split]].
  - split; [solve_side|]. split; [solve_side|].
    eexists. split; [vm_compute; reflexivity|]. discriminate.
  - split; [solve_side|].
    eexists. split; [vm_compute; reflexivity|]. discriminate.
  - split; [solve_concrete|]. split; [solve_concrete|].
    eexists. split; [vm_compute; reflexivity|]. discriminate.
  - split; [solve_side|]. vm_compute. discriminate.
Qed.

Lemma C6_witness :
  (forall B, Sparse.repdiag S33 3 Sparse.empty = Ok B ->
     Sparse.nonZeros B = 3 * Sparse.nonZeros S33) /\
  (exists B, Sparse.repdiag S33 3 Sparse.empty = Ok B /\
             Sparse.nonZeros B = 3 * Sparse.nonZeros S33 /\
             0 <= Sparse.nonZeros B <= Int.max_int).
Proof.
  destruct (C6_nonzeros_scale S33 Sparse.empty 3) as [Hall Hreturns];
    [solve_side | solve_side | solve_side |].
  split; [exact Hall|].
  apply Hreturns; [solve_side | vm_compute; discriminate].
Defined.

(** On [int] elements the values stored under one coordinate are added
    with wrap-around: 2147483647 and 1 give -2147483648. *)
Example int_duplicates_wrap_around :
  Sparse.repdiag (sparse_ints 1 1 [[(0, 2147483647); (0, 1)]]) 1 Sparse.empty =
  Ok (sparse_ints 1 1 [[(0, -2147483648)]]).
Proof. vm_compute. reflexivity. Qed.
